(** * Score combination (combo/models/score_comb.py)

    A shallow embedding of the score-combination module: the bucket based
    combiners [aom] and [moa] with their shared helper [_aom_moa_helper], the
    row reductions [average] and [maximization], and [majority_vote].

    Conventions.
    - A score matrix is a list of rows.  Numbers live in a carrier [F] with the
      operations numpy applies to them ([Numeric]); the development is generic
      in the carrier and is instantiated at binary64 floats, which is what
      float arrays hold, and at exact rationals.  [check_array] keeps the
      dtype of what it is given: the bucket combiners and the row reductions
      are modelled on [float64] arrays, [average] also on [int64] arrays,
      whose products and sums wrap around at 64 bits ([average_dtype]), and
      the labels of [majority_vote] are integers, returned in a [float64]
      array.
    - Python exceptions are values of [exn]; a computation that may raise
      returns [exn + A].
    - Random draws thread a [store] holding the state of the generators a call
      can reach: numpy's process-wide generator, the generator object the
      caller passed, and the operating system's entropy.
    - numpy, scikit-learn and pyod are libraries the module calls; their
      functions are written out here as their documentation and source
      describe them, each under the name it has there. *)

From Stdlib Require Import ZArith QArith Lqa Floats Uint63 Lia.
From stdpp Require Import base list sorting numbers strings.

Set Warnings "-inexact-float".
Local Open Scope string_scope.
Local Open Scope list_scope.
Local Open Scope nat_scope.

(** ** Numbers *)

(** The arithmetic numpy performs on array entries. [fnat] converts an element
    count to a number (the divisor of [np.mean]); [ffinite] is the finiteness
    test of [check_array]; [fisnan] is [np.isnan]; [fint] is the conversion
    of an integer to the carrier, as when an [int64] value is stored in a
    [float64] array. *)
Class Numeric (F : Type) : Type := {
  fzero : F;
  fone : F;
  fadd : F → F → F;
  fmul : F → F → F;
  fdiv : F → F → F;
  fltb : F → F → bool;
  fnat : nat → F;
  ffinite : F → bool;
  fisnan : F → bool;
  fint : Z → F
}.

(** The binary64 value nearest to an integer, ties to even. *)
Definition float_of_Z (z : Z) : float :=
  SF2Prim (binary_normalize prec emax z 0 false).

(** binary64, as stored in the arrays. *)
#[export] Instance float_numeric : Numeric float := {|
  fzero := 0%float;
  fone := 1%float;
  fadd := PrimFloat.add;
  fmul := PrimFloat.mul;
  fdiv := PrimFloat.div;
  fltb := PrimFloat.ltb;
  fnat := λ n, PrimFloat.of_uint63 (Uint63.of_Z (Z.of_nat n));
  ffinite := λ x, PrimFloat.ltb (PrimFloat.abs x) infinity;
  fisnan := PrimFloat.is_nan;
  fint := float_of_Z
|}.

(** Exact rational arithmetic. *)
#[export] Instance Q_numeric : Numeric Q := {|
  fzero := 0%Q;
  fone := 1%Q;
  fadd := Qplus;
  fmul := Qmult;
  fdiv := Qdiv;
  fltb := λ x y, negb (Qle_bool y x);
  fnat := λ n, inject_Z (Z.of_nat n);
  ffinite := λ _, true;
  fisnan := λ _, false;
  fint := inject_Z
|}.

(** ** Exceptions *)

Inductive exn : Type :=
  | NotImplementedError (what : string)
  | ValueError_check_array
  | ValueError_check_parameter
  | ValueError_remainder
  | ValueError_range_step
  | ValueError_weights_shape (score_shape : nat) (received : list nat)
  | ValueError_low_ge_high
  | ValueError_seed
  | ValueError_sample
  | ValueError_empty_reduction
  | ValueError_broadcast
  | TypeError_seed
  | IndexError
  | AssertionError.

Definition result (A : Type) : Type := exn + A.

Definition rbind {A B} (m : result A) (k : A → result B) : result B :=
  match m with
  | inl e => inl e
  | inr a => k a
  end.

#[export] Instance result_ret : MRet result := λ A a, inr a.
#[export] Instance result_bind : MBind result := λ A B k m, rbind m k.

Fixpoint mapR {A B} (f : A → result B) (l : list A) : result (list B) :=
  match l with
  | [] => inr []
  | x :: l' => y ← f x; ys ← mapR f l'; inr (y :: ys)
  end.

(** ** numpy reductions and indexing *)

Section Arrays.
Context {F : Type} `{Numeric F}.

(** [np.maximum] on finite values.  Of two entries that compare equal, which
    are the same number or zeros of different sign, the first is kept. *)
Definition fmax (a b : F) : F := if fltb a b then b else a.
Definition fmin (a b : F) : F := if fltb b a then b else a.

(** [np.sum] of a row: left-to-right accumulation (what numpy does for rows
    of fewer than eight entries; its pairwise blocks for longer rows can
    differ in the last binary64 digit and not at all in exact arithmetic). *)
Definition np_sum (l : list F) : F := foldl fadd fzero l.

(** [np.mean] of a row: the sum divided by the element count. *)
Definition np_mean (l : list F) : F := fdiv (np_sum l) (fnat (length l)).

(** [np.max] of a row; a zero-size reduction raises. *)
Definition np_max (l : list F) : result F :=
  match l with
  | [] => inl ValueError_empty_reduction
  | x :: l' => inr (foldl fmax x l')
  end.

Definition np_min (l : list F) : result F :=
  match l with
  | [] => inl ValueError_empty_reduction
  | x :: l' => inr (foldl fmin x l')
  end.

(** [np.zeros([n_rows, n_cols])]. *)
Definition np_zeros (n_rows n_cols : nat) : list (list F) :=
  replicate n_rows (replicate n_cols fzero).

(** [row[ind]] with a list of positions (fancy indexing). *)
Definition take_index (row : list F) (ind : list nat) : result (list F) :=
  mapR (λ j, match row !! j with Some x => inr x | None => inl IndexError end) ind.

(** [sklearn.utils.check_array]: at least one row and one column, all rows
    of one length, every entry finite. *)
Definition check_array (scores : list (list F)) : result (list (list F)) :=
  match scores with
  | [] => inl ValueError_check_array
  | r :: rs =>
      if (0 <? length r)
         && forallb (λ r', length r' =? length r) rs
         && forallb (forallb ffinite) scores
      then inr scores
      else inl ValueError_check_array
  end.

(** [scores.shape[1]]. *)
Definition n_columns (scores : list (list F)) : nat := length (hd [] scores).

(** [a[:, j] = v]. *)
Definition set_column (a : list (list F)) (n_cols j : nat) (v : list F)
  : result (list (list F)) :=
  if negb (j <? n_cols) then inl IndexError
  else if negb (length v =? length a) then inl ValueError_broadcast
  else inr (zip_with (λ row x, <[j:=x]> row) a v).
End Arrays.

(** [pyod.utils.utility.check_parameter(param, low, high, include_left=True,
    include_right=True)]: raises unless [low <= param <= high]. *)
Definition check_parameter (param low high : nat) : result unit :=
  if (low <=? param) && (param <=? high) then inr tt
  else inl ValueError_check_parameter.

(** Python's [l[head:tail]]. *)
Definition slice {A} (l : list A) (head tail : nat) : list A :=
  take (tail - head) (drop head l).

(** Python's [range(0, stop, step)]. *)
Definition py_range (stop step : nat) : result (list nat) :=
  if step =? 0 then inl ValueError_range_step
  else inr ((λ k, k * step) <$> seq 0 ((stop + step - 1) / step)).

(** ** Random sources *)

(** What the module asks of a numpy generator.  [G] is the generator state.
    - [RandomState_seeded s] is [RandomState(s)] for an integer seed;
    - [RandomState_urandom k] is the [k]-th generator seeded by the operating
      system ([RandomState(None)]);
    - [rng_shuffle g n] shuffles [arange(n)] in place;
    - [rng_sample g n k] is the draw behind
      [sample_without_replacement(n, k)];
    - [rng_randint g low high] is the draw behind [randint(low, high)].
    Every draw returns the advanced generator state. *)
Class RandomOps (G : Type) : Type := {
  RandomState_seeded : Z → G;
  RandomState_urandom : nat → G;
  rng_shuffle : G → nat → list nat * G;
  rng_sample : G → nat → nat → list nat * G;
  rng_randint : G → Z → Z → Z * G
}.

(** What numpy and scikit-learn document about the draws: a shuffle is a
    rearrangement, a sample without replacement has the requested number of
    distinct positions of the population, a random integer lies in the
    half-open range. *)
Class RandomLaws (G : Type) `{RandomOps G} : Prop := {
  rng_shuffle_perm : ∀ g n, (rng_shuffle g n).1 ≡ₚ seq 0 n;
  rng_sample_length : ∀ g n k, k ≤ n → length (rng_sample g n k).1 = k;
  rng_sample_NoDup : ∀ g n k, k ≤ n → NoDup (rng_sample g n k).1;
  rng_sample_lt : ∀ g n k, k ≤ n → Forall (λ j, j < n) (rng_sample g n k).1;
  rng_randint_range : ∀ g low high,
    (low < high)%Z → (low ≤ (rng_randint g low high).1 < high)%Z
}.

(** The [random_state] argument: [None], an integer seed, or the caller's
    [RandomState] instance. *)
Inductive random_state : Type :=
  | RS_None
  | RS_int (seed : Z)
  | RS_instance.

(** The generators a call can reach. *)
Record store (G : Type) : Type := Store {
  np_random : G;       (* numpy's process-wide generator *)
  caller_rng : G;      (* the RandomState instance the caller holds *)
  urandom : nat        (* how many OS-seeded generators were made *)
}.
Arguments Store {G}.
Arguments np_random {G}.
Arguments caller_rng {G}.
Arguments urandom {G}.

(** Computations that draw random numbers and may raise. *)
Definition M (G A : Type) : Type := store G → result A * store G.

#[export] Instance M_ret {G} : MRet (M G) := λ A a st, (inr a, st).
#[export] Instance M_bind {G} : MBind (M G) := λ A B k m st,
  match m st with
  | (inl e, st') => (inl e, st')
  | (inr a, st') => k a st'
  end.

Definition raise {G A} (e : exn) : M G A := λ st, (inl e, st).
Definition lift {G A} (r : result A) : M G A := λ st, (r, st).

(** [for x in l: s = body(x, s)]. *)
Fixpoint for_each {G A S} (l : list A) (body : A → S → M G S) (s : S) : M G S :=
  match l with
  | [] => mret s
  | x :: l' => s' ← body x s; for_each l' body s'
  end.

Section Random.
Context {G : Type} `{RandomOps G}.

(** Seeds [RandomState] accepts. *)
Definition seed_ok (s : Z) : bool := ((0 <=? s) && (s <? 2 ^ 32))%Z.

(** A draw through [check_random_state(random_state)]: [None] uses and
    advances numpy's process-wide generator, an integer seeds a new
    generator that is dropped after the draw, an instance is used and
    advanced itself. *)
Definition with_random_state {A} (rs : random_state) (draw : G → A * G) : M G A :=
  λ st,
    match rs with
    | RS_None =>
        let '(a, g) := draw (np_random st) in
        (inr a, Store g (caller_rng st) (urandom st))
    | RS_int s =>
        if seed_ok s then (inr (draw (RandomState_seeded s)).1, st)
        else (inl ValueError_seed, st)
    | RS_instance =>
        let '(a, g) := draw (caller_rng st) in
        (inr a, Store (np_random st) g (urandom st))
    end.

(** [sklearn.utils.shuffle(l, random_state=rs)]: the entries of [l] at the
    shuffled positions. *)
Definition shuffle (l : list nat) (rs : random_state) : M G (list nat) :=
  idx ← with_random_state rs (λ g, rng_shuffle g (length l));
  lift (mapR (λ j, match l !! j with Some x => inr x | None => inl IndexError end) idx).

(** [sklearn.utils.random.sample_without_replacement(n_population,
    n_samples, random_state=rs)]. *)
Definition sample_without_replacement (n_population n_samples : nat)
    (rs : random_state) : M G (list nat) :=
  if n_population <? n_samples then raise ValueError_sample
  else with_random_state rs (λ g, rng_sample g n_population n_samples).

(** [RandomState(seed=rs)]: a new generator; a [RandomState] instance is
    not a seed. *)
Definition RandomState (rs : random_state) : M G G :=
  λ st,
    match rs with
    | RS_None =>
        (inr (RandomState_urandom (urandom st)),
         Store (np_random st) (caller_rng st) (S (urandom st)))
    | RS_int s =>
        if seed_ok s then (inr (RandomState_seeded s), st)
        else (inl ValueError_seed, st)
    | RS_instance => (inl TypeError_seed, st)
    end.

(** [g.randint(low, high)] on a generator that is dropped afterwards. *)
Definition randint (g : G) (low high : Z) : result Z :=
  if (low <? high)%Z then inr (rng_randint g low high).1
  else inl ValueError_low_ge_high.
End Random.

(** ** The shared helper of AOM and MOA *)

Section Helper.
Context {F : Type} `{Numeric F} {G : Type} `{RandomOps G}.

(** [np.max(a, axis=1)] and [np.mean(a, axis=1)]. *)
Definition np_max_axis1 (a : list (list F)) : result (list F) := mapR np_max a.
Definition np_mean_axis1 (a : list (list F)) : list F := np_mean <$> a.

(** [scores[:, ind]]. *)
Definition take_columns (scores : list (list F)) (ind : list nat)
  : result (list (list F)) :=
  mapR (λ row, take_index row ind) scores.

(** The body shared by the three loops:
    [scores_buckets[:, j] = np.max(scores[:, ind], axis=1)] under AOM and
    [... = np.mean(scores[:, ind], axis=1)] otherwise. *)
Definition fill_bucket (mode : string) (scores scores_buckets : list (list F))
    (n_buckets j : nat) (ind : list nat) : result (list (list F)) :=
  sub ← take_columns scores ind;
  if String.eqb mode "AOM" then
    v ← np_max_axis1 sub; set_column scores_buckets n_buckets j v
  else
    set_column scores_buckets n_buckets j (np_mean_axis1 sub).

(** Loop state: the matrix under construction and, as a ghost, the column
    positions each bucket was built from, in bucket order. *)
Definition buckets_state : Type := list (list F) * list (list nat).

(** static, no bootstrap: lines 85-100.  One pass of the loop body for the
    loop variable [i]; [head] is carried from pass to pass. *)
Definition static_shuffle_step (mode : string) (scores : list (list F))
    (n_buckets n_estimators_per_bucket : nat) (shuffled_list : list nat)
    (acc : result (nat * list (list F) * list (list nat))) (i : nat)
  : result (nat * list (list F) * list (list nat)) :=
  '(head, sb, bs) ← acc;
  let tail := i + n_estimators_per_bucket in
  let batch_ind := i / n_estimators_per_bucket in
  let ind := slice shuffled_list head tail in
  sb' ← fill_bucket mode scores sb n_buckets batch_ind ind;
  inr (head + n_estimators_per_bucket, sb', bs ++ [ind]).

Definition static_shuffle_loop (mode : string) (scores : list (list F))
    (n_estimators n_buckets n_estimators_per_bucket : nat)
    (shuffled_list : list nat) (scores_buckets : list (list F))
  : result buckets_state :=
  r ← py_range n_estimators n_estimators_per_bucket;
  '(_, sb, bs) ←
    foldl (static_shuffle_step mode scores n_buckets n_estimators_per_bucket
             shuffled_list)
          (inr (0, scores_buckets, [])) r;
  inr (sb, bs).

(** static, bootstrap: lines 103-110. *)
Definition static_bootstrap_loop (mode : string) (scores : list (list F))
    (n_estimators n_buckets n_estimators_per_bucket : nat)
    (rs : random_state) (scores_buckets : list (list F))
  : M G buckets_state :=
  for_each (seq 0 n_buckets)
    (λ i '(sb, bs),
       ind ← sample_without_replacement n_estimators n_estimators_per_bucket rs;
       sb' ← lift (fill_bucket mode scores sb n_buckets i ind);
       mret (sb', bs ++ [ind]))
    (scores_buckets, []).

(** dynamic: lines 113-123. *)
Definition dynamic_loop (mode : string) (scores : list (list F))
    (n_estimators n_buckets : nat)
    (rs : random_state) (scores_buckets : list (list F))
  : M G buckets_state :=
  for_each (seq 0 n_buckets)
    (λ i '(sb, bs),
       g ← RandomState rs;
       max_estimator_per_bucket ← lift (randint g 2 (Z.of_nat (n_estimators / 2)));
       ind ← sample_without_replacement n_estimators
               (Z.to_nat max_estimator_per_bucket) rs;
       sb' ← lift (fill_bucket mode scores sb n_buckets i ind);
       mret (sb', bs ++ [ind]))
    (scores_buckets, []).

(** [_aom_moa_helper], returning next to the combined scores the bucket
    assignment it used (ghost). *)
Definition aom_moa_helper_traced (mode : string) (scores : list (list F))
    (n_buckets : nat) (method : string) (bootstrap_estimators : bool)
    (rs : random_state) : M G (list F * list (list nat)) :=
  if negb (String.eqb mode "AOM") && negb (String.eqb mode "MOA") then
    raise (NotImplementedError mode)
  else
    scores ← lift (check_array scores);
    let n_estimators := n_columns scores in
    _ ← lift (check_parameter n_buckets 2 n_estimators);
    let scores_buckets := np_zeros (length scores) n_buckets in
    '(scores_buckets, bs) ←
      (if String.eqb method "static" then
         let n_estimators_per_bucket := n_estimators / n_buckets in
         if negb (n_estimators mod n_buckets =? 0) then raise ValueError_remainder
         else if negb bootstrap_estimators then
           shuffled_list ← shuffle (seq 0 n_estimators) rs;
           lift (static_shuffle_loop mode scores n_estimators n_buckets
                   n_estimators_per_bucket shuffled_list scores_buckets)
         else
           static_bootstrap_loop mode scores n_estimators n_buckets
             n_estimators_per_bucket rs scores_buckets
       else if String.eqb method "dynamic" then
         dynamic_loop mode scores n_estimators n_buckets rs scores_buckets
       else raise (NotImplementedError method));
    if String.eqb mode "AOM" then mret (np_mean_axis1 scores_buckets, bs)
    else out ← lift (np_max_axis1 scores_buckets); mret (out, bs).

Definition _aom_moa_helper (mode : string) (scores : list (list F))
    (n_buckets : nat) (method : string) (bootstrap_estimators : bool)
    (rs : random_state) : M G (list F) :=
  r ← aom_moa_helper_traced mode scores n_buckets method bootstrap_estimators rs;
  mret r.1.

Definition aom (scores : list (list F)) (n_buckets : nat) (method : string)
    (bootstrap_estimators : bool) (rs : random_state) : M G (list F) :=
  _aom_moa_helper "AOM" scores n_buckets method bootstrap_estimators rs.

Definition moa (scores : list (list F)) (n_buckets : nat) (method : string)
    (bootstrap_estimators : bool) (rs : random_state) : M G (list F) :=
  _aom_moa_helper "MOA" scores n_buckets method bootstrap_estimators rs.
End Helper.

(** ** Weights, [average], [maximization] *)

(** A weight argument as the caller may build it: a 1-D or a 2-D array. *)
Inductive ndarray (F : Type) : Type :=
  | Array1 (v : list F)
  | Array2 (rows : list (list F)).
Arguments Array1 {F}.
Arguments Array2 {F}.

(** [a.shape]. *)
Definition shape {F} (a : ndarray F) : list nat :=
  match a with
  | Array1 v => [length v]
  | Array2 rows => [length rows; length (hd [] rows)]
  end.

(** All entries in storage order ([a.ravel()]). *)
Definition ravel {F} (a : ndarray F) : list F :=
  match a with
  | Array1 v => v
  | Array2 rows => concat rows
  end.

Section Average.
Context {F : Type} `{Numeric F}.

(** [np.multiply(scores, w)] for [w] of shape [(1, n)], row by row. *)
Definition multiply_rows (scores : list (list F)) (w : list F) : list (list F) :=
  (λ row, zip_with fmul row w) <$> scores.

Definition average (scores : list (list F)) (estimator_weights : option (ndarray F))
  : result (list F) :=
  scores ← check_array scores;
  match estimator_weights with
  | Some w =>
      if negb (bool_decide (shape w = [1; n_columns scores])) then
        inl (ValueError_weights_shape (n_columns scores) (shape w))
      else
        let total := np_sum (ravel w) in
        inr ((λ row, fdiv (np_sum row) total) <$> multiply_rows scores (ravel w))
  | None => inr (np_mean <$> scores)
  end.

Definition maximization (scores : list (list F)) : result (list F) :=
  scores ← check_array scores;
  mapR np_max scores.
End Average.

(** ** [majority_vote] *)

(** Label matrices hold integers: [check_classification_targets] lets
    through an [int64] array, or a [float64] array whose entries are all
    integers, so the input type holds exactly the matrices it accepts (a
    float label [-0.0] is the integer 0), and [check_array] keeps its shape
    tests.  [weighted_mode] works in
    [float64]: its running winner starts as [0.0], a label that takes the
    lead is stored converted to [float64], which rounds a label beyond
    [2^53], and the weights reach the totals through a [float64] array. *)

(** [np.unique]: the distinct values in increasing order. *)
Fixpoint insert_unique (x : Z) (l : list Z) : list Z :=
  match l with
  | [] => [x]
  | y :: l' =>
      if (x <? y)%Z then x :: y :: l'
      else if (x =? y)%Z then y :: l'
      else y :: insert_unique x l'
  end.

Definition np_unique (a : list Z) : list Z := foldr insert_unique [] a.

Section Vote.
Context {F : Type} `{Numeric F}.

(** The total the loop of [weighted_mode] computes for one candidate:
    [np.sum(template)] where [template] holds [w] at the positions voting
    [score] and zero elsewhere. *)
Definition template (a : list Z) (w : list F) (score : Z) : list F :=
  zip_with (λ x wx, if (x =? score)%Z then wx else fzero) a w.

(** [np.maximum(a, b)]: [a] when [a >= b] or [a] is a NaN, else [b]; a NaN
    on either side comes out. *)
Definition np_maximum (a b : F) : F :=
  if fisnan a then a
  else if fisnan b then b
  else if fltb a b then b else a.

(** One pass of the loop of [weighted_mode] over the distinct values:
    [mostfrequent = np.where(counts > oldcounts, score, oldmostfreq)], a
    [float64] array, and [oldcounts = np.maximum(counts, oldcounts)]. *)
Definition weighted_mode_step (a : list Z) (w : list F) (state : F * F) (score : Z)
  : F * F :=
  let '(oldmostfreq, oldcounts) := state in
  let counts := np_sum (template a w score) in
  (if fltb oldcounts counts then fint score else oldmostfreq,
   np_maximum counts oldcounts).

(** [sklearn.utils.extmath.weighted_mode(a, w)] for 1-D [a] and [w]:
    the pair (most frequent value, its total), starting from
    [oldmostfreq = np.zeros(...)] and [oldcounts = np.zeros(...)]. *)
Definition weighted_mode (a : list Z) (w : list F) : F * F :=
  foldl (weighted_mode_step a w) (fzero, fzero) (np_unique a).

(** [check_array] on an integer matrix: the shape tests. *)
Definition check_array_labels (scores : list (list Z)) : result (list (list Z)) :=
  match scores with
  | [] => inl ValueError_check_array
  | r :: rs =>
      if (0 <? length r) && forallb (λ r', length r' =? length r) rs
      then inr scores
      else inl ValueError_check_array
  end.

Definition majority_vote (scores : list (list Z)) (n_classes : nat)
    (weights : option (ndarray F)) : result (list F) :=
  scores ← check_array_labels scores;
  let n_estimators := length (hd [] scores) in
  weights ←
    match weights with
    | Some (Array1 _) => inl IndexError
    | Some (Array2 rows) =>
        if negb (n_estimators =? length (hd [] rows)) then inl AssertionError
        else inr rows
    | None => inr [replicate n_estimators fone]
    end;
  mapR (λ row,
          match weights with
          | [w] => inr (weighted_mode row w).1
          | _ => inl ValueError_broadcast
          end) scores.
End Vote.

(** ** [average] on arrays of either dtype

    [check_array] keeps the dtype of the array it is given, so [average]
    also runs on [int64] arrays (what [np.array] makes of Python integers).
    numpy multiplies and adds [int64] entries modulo [2^64], divides in
    [float64] ([true_divide]) and takes the mean of integers in [float64]. *)

(** A score matrix, a row of entries, a single number and a weight array,
    each of binary64 entries or of 64-bit integers. *)
Inductive matrix (F : Type) : Type :=
  | Float64_matrix (rows : list (list F))
  | Int64_matrix (rows : list (list Z)).
Arguments Float64_matrix {F}.
Arguments Int64_matrix {F}.

Inductive vector (F : Type) : Type :=
  | Float64_vector (l : list F)
  | Int64_vector (l : list Z).
Arguments Float64_vector {F}.
Arguments Int64_vector {F}.

Inductive number (F : Type) : Type :=
  | Float64_number (x : F)
  | Int64_number (z : Z).
Arguments Float64_number {F}.
Arguments Int64_number {F}.

Inductive weight_array (F : Type) : Type :=
  | Float64_weights (a : ndarray F)
  | Int64_weights (a : ndarray Z).
Arguments Float64_weights {F}.
Arguments Int64_weights {F}.

(** The value an [int64] holds after an operation whose exact result is
    [z]: two's complement wrap-around. *)
Definition wrap64 (z : Z) : Z := ((z + 2 ^ 63) mod 2 ^ 64 - 2 ^ 63)%Z.

(** [np.sum] of [int64] entries. *)
Definition int64_sum (l : list Z) : Z := foldl (λ acc x, wrap64 (acc + x)) 0%Z l.

Section AverageDtype.
Context {F : Type} `{Numeric F}.

Definition check_array_dtype (scores : matrix F) : result (matrix F) :=
  match scores with
  | Float64_matrix a => a ← check_array a; inr (Float64_matrix a)
  | Int64_matrix a => a ← check_array_labels a; inr (Int64_matrix a)
  end.

Definition shape_dtype (w : weight_array F) : list nat :=
  match w with
  | Float64_weights a => shape a
  | Int64_weights a => shape a
  end.

Definition ravel_dtype (w : weight_array F) : vector F :=
  match w with
  | Float64_weights a => Float64_vector (ravel a)
  | Int64_weights a => Int64_vector (ravel a)
  end.

Definition n_columns_dtype (scores : matrix F) : nat :=
  match scores with
  | Float64_matrix a => n_columns a
  | Int64_matrix a => n_columns a
  end.

(** The entries as [float64] values. *)
Definition to_float64 (v : vector F) : list F :=
  match v with
  | Float64_vector l => l
  | Int64_vector l => fint <$> l
  end.

Definition number_to_float64 (x : number F) : F :=
  match x with
  | Float64_number y => y
  | Int64_number z => fint z
  end.

(** [np.multiply(scores, w)] for [w] of shape [(1, n)]: integers times
    integers stay integers, any other pair is promoted to [float64]. *)
Definition np_multiply (scores : matrix F) (w : vector F) : matrix F :=
  match scores, w with
  | Int64_matrix a, Int64_vector l =>
      Int64_matrix ((λ row, zip_with (λ x y, wrap64 (x * y)) row l) <$> a)
  | Int64_matrix a, Float64_vector l =>
      Float64_matrix (multiply_rows ((λ row : list Z, fint <$> row) <$> a) l)
  | Float64_matrix a, Int64_vector l =>
      Float64_matrix (multiply_rows a (fint <$> l))
  | Float64_matrix a, Float64_vector l =>
      Float64_matrix (multiply_rows a l)
  end.

(** [np.sum(a, axis=1)]. *)
Definition np_sum_axis1 (a : matrix F) : vector F :=
  match a with
  | Float64_matrix a => Float64_vector (np_sum <$> a)
  | Int64_matrix a => Int64_vector (int64_sum <$> a)
  end.

(** [np.sum] of all the entries of the weights. *)
Definition np_sum_all (v : vector F) : number F :=
  match v with
  | Float64_vector l => Float64_number (np_sum l)
  | Int64_vector l => Int64_number (int64_sum l)
  end.

(** [v / x]: the division of numpy is [true_divide], in [float64]. *)
Definition true_divide (v : vector F) (x : number F) : list F :=
  (λ y, fdiv y (number_to_float64 x)) <$> to_float64 v.

(** [np.mean(a, axis=1)]: integers are added up as [float64]. *)
Definition np_mean_axis1_dtype (a : matrix F) : list F :=
  match a with
  | Float64_matrix a => np_mean <$> a
  | Int64_matrix a => (λ row : list Z, np_mean (fint <$> row)) <$> a
  end.

(** [average], whatever the dtypes of the scores and of the weights. *)
Definition average_dtype (scores : matrix F)
    (estimator_weights : option (weight_array F)) : result (list F) :=
  scores ← check_array_dtype scores;
  match estimator_weights with
  | Some w =>
      if negb (bool_decide (shape_dtype w = [1; n_columns_dtype scores])) then
        inl (ValueError_weights_shape (n_columns_dtype scores) (shape_dtype w))
      else
        inr (true_divide (np_sum_axis1 (np_multiply scores (ravel_dtype w)))
                         (np_sum_all (ravel_dtype w)))
  | None => inr (np_mean_axis1_dtype scores)
  end.
End AverageDtype.

(** ** The weighted mean as the specification words it

    The formula of the specification, [(d1*w1 + ... + dn*wn)/(w1 + ... + wn)],
    and the mean, over the rationals, against which the results of
    [average] are compared. *)









(** ** A concrete random source

    A linear congruential generator with a rotation shuffle: enough to run the
    combiners on concrete inputs. *)
Module Lcg.
Definition next (g : Z) : Z := ((1103515245 * g + 12345) mod 2 ^ 31)%Z.

Definition shuffled (g : Z) (n : nat) : list nat :=
  rotate (Z.to_nat (next g mod (Z.of_nat n + 1))) (seq 0 n).

#[global] Instance ops : RandomOps Z := {|
  RandomState_seeded := λ s, s;
  RandomState_urandom := λ k, (Z.of_nat k + 2 ^ 20)%Z;
  rng_shuffle := λ g n, (shuffled g n, next g);
  rng_sample := λ g n k, (take k (shuffled g n), next g);
  rng_randint := λ g low high, ((low + next g mod (high - low))%Z, next g)
|}.

Definition st0 : store Z := Store 7%Z 11%Z 0.
End Lcg.

(** ** The combiners in the words of the specification *)

Section Spec.
Context {F : Type} `{Numeric F}.

(** Per-sample maximum score across one bucket's estimator columns. *)
Definition bucket_max (row : list F) (bucket : list nat) : result F :=
  cols ← take_index row bucket; np_max cols.

(** Per-sample mean across one bucket's columns. *)
Definition bucket_mean (row : list F) (bucket : list nat) : result F :=
  cols ← take_index row bucket; inr (np_mean cols).

(** AOM: the bucket maxima of a sample, averaged across all buckets. *)
Definition average_of_maximum (buckets : list (list nat)) (row : list F) : result F :=
  ms ← mapR (bucket_max row) buckets; inr (np_mean ms).

(** MOA: the bucket means of a sample, maximised across all buckets. *)
Definition maximum_of_average (buckets : list (list nat)) (row : list F) : result F :=
  avgs ← mapR (bucket_mean row) buckets; np_max avgs.

(** Weighted row sum divided by the sum of the weights. *)
Definition weighted_mean (w row : list F) : F :=
  fdiv (np_sum (zip_with fmul row w)) (np_sum w).

(** The value one row contributes to the column of a bucket. *)
Definition bucket_value (mode : string) (row : list F) (ind : list nat) : result F :=
  cols ← take_index row ind;
  if String.eqb mode "AOM" then np_max cols else inr (np_mean cols).

(** Filling the columns [j], [j+1], ... from a list of buckets. *)
Fixpoint fill_from (mode : string) (scores sb : list (list F)) (n_buckets j : nat)
    (bs : list (list nat)) : result (list (list F)) :=
  match bs with
  | [] => inr sb
  | ind :: bs' =>
      sb' ← fill_bucket mode scores sb n_buckets j ind;
      fill_from mode scores sb' n_buckets (S j) bs'
  end.

(** Sum of the weights of the estimators that voted for [label]. *)
Definition vote_weight (a : list Z) (w : list F) (label : Z) : F :=
  np_sum ((filter (λ p, p.1 = label) (zip a w)).*2).
End Spec.

(** ** How the buckets of a run were drawn *)

Section Drawn.
Context {G : Type} `{RandomOps G}.

(** The contiguous slices of width [step] of a list. *)
Definition slices (step n_buckets : nat) (l : list nat) : list (list nat) :=
  (λ q, take step (drop (q * step) l)) <$> seq 0 n_buckets.

(** [ind] is what one pass of the static bootstrap loop can draw. *)
Definition drawn_static (n_estimators n_estimators_per_bucket : nat)
    (rs : random_state) (ind : list nat) : Prop :=
  ∃ st st', sample_without_replacement n_estimators n_estimators_per_bucket rs st
            = (inr ind, st').

(** [ind] is what one pass of the dynamic loop can draw: a size from a new
    generator, then that many positions. *)
Definition drawn_dynamic (n_estimators : nat) (rs : random_state)
    (ind : list nat) : Prop :=
  ∃ st g st1 size st2,
    RandomState rs st = (inr g, st1)
    ∧ randint g 2 (Z.of_nat (n_estimators / 2)) = inr size
    ∧ sample_without_replacement n_estimators (Z.to_nat size) rs st1
      = (inr ind, st2).

(** The generator a draw through [check_random_state] reads. *)
Definition generator_of (rs : random_state) (st : store G) : G :=
  match rs with
  | RS_None => np_random st
  | RS_int s => RandomState_seeded s
  | RS_instance => caller_rng st
  end.

(** Random sources every draw accepts: an integer must be a valid seed. *)
Definition seedable (rs : random_state) : Prop :=
  match rs with
  | RS_int s => seed_ok s = true
  | _ => True
  end.
End Drawn.

(** ** Order and zero laws of exact weights

    What the statements on the vote ask of the arithmetic on weights: [<] is
    a strict weak order, adding zero changes nothing ([WeightLaws]) and no
    value is a NaN ([NoNaN]).  These are laws of exact arithmetic: the
    rationals satisfy them, binary64 does not (a NaN is unordered,
    [-0.0 + 0.0] is [0.0], sums round), and what is proved under them is
    proved of exact arithmetic only. *)
Class WeightLaws (F : Type) `{Numeric F} : Prop := {
  fltb_irrefl : ∀ x : F, fltb x x = false;
  fltb_trans : ∀ x y z : F, fltb x y = true → fltb y z = true → fltb x z = true;
  fltb_negtrans : ∀ x y z : F,
    fltb x z = true → fltb x y = true ∨ fltb y z = true;
  fadd_zero_r : ∀ x : F, fadd x fzero = x;
  fadd_one_pos : ∀ x : F, fltb x fzero = false → fltb fzero (fadd x fone) = true
}.

Class NoNaN (F : Type) `{Numeric F} : Prop :=
  fisnan_never : ∀ x : F, fisnan x = false.

Section VoteInvariant.
Context {F : Type} `{Numeric F}.

(** The state of the loop of [weighted_mode] after the candidates [seen]:
    the running total is at least every total seen; and either the running
    winner is the conversion of a seen candidate with a positive total that
    ties the running total and beats every smaller candidate, or no seen
    candidate had a positive total and the winner is still the initial
    zero. *)
Definition vote_inv (a : list Z) (w : list F) (seen : list Z) (state : F * F) : Prop :=
  let v := λ s, np_sum (template a w s) in
  (∀ s, s ∈ seen → fltb state.2 (v s) = false)
  ∧ fltb state.2 fzero = false
  ∧ ((∃ best, state.1 = fint best
        ∧ best ∈ seen
        ∧ fltb fzero (v best) = true
        ∧ fltb state.2 (v best) = false
        ∧ fltb (v best) state.2 = false
        ∧ ∀ s, s ∈ seen → (s < best)%Z → fltb (v s) (v best) = true)
     ∨ (state.1 = fzero
        ∧ fltb fzero state.2 = false
        ∧ ∀ s, s ∈ seen → fltb fzero (v s) = false)).
End VoteInvariant.

(** ** [median] *)

Section Median.
Context {F : Type} `{Numeric F}.

(** [np.sort] of a row: increasing order. *)
Fixpoint insert_sorted (x : F) (l : list F) : list F :=
  match l with
  | [] => [x]
  | y :: l' => if fltb x y then x :: y :: l' else y :: insert_sorted x l'
  end.

Definition np_sort (l : list F) : list F := foldr insert_sorted [] l.

(** [np.median] of a row: the mean of the middle slice of the ordered row,
    one entry for an odd count and two for an even count (numpy orders the
    row only as far as those positions need, which gives the same values
    there). *)
Definition np_median (l : list F) : F :=
  let part := np_sort l in
  let index := length part / 2 in
  if length part mod 2 =? 1 then np_mean (slice part index (index + 1))
  else np_mean (slice part (index - 1) (index + 1)).

Definition median (scores : list (list F)) : result (list F) :=
  scores ← check_array scores;
  inr (np_median <$> scores).
End Median.

(** ** Computations that leave the generators alone *)

(** [m] returns the same result from every store and hands the store back
    unchanged. *)
Definition store_free {G A : Type} (m : M G A) : Prop :=
  ∃ r, ∀ st, m st = (r, st).

(** ** The draws of the bootstrap loop, one after the other *)

Section Sampled.
Context {G : Type} `{RandomOps G}.

(** The store after a draw through [check_random_state] left the generator
    in state [g]: the process-wide generator or the caller's instance is
    advanced, a generator seeded from an integer is dropped. *)
Definition advance_generator (rs : random_state) (g : G) (st : store G) : store G :=
  match rs with
  | RS_None => Store g (caller_rng st) (urandom st)
  | RS_int _ => st
  | RS_instance => Store (np_random st) g (urandom st)
  end.

(** [count] successive calls of
    [sample_without_replacement(n, k, random_state=rs)]: the samples, and the
    store they leave. *)
Fixpoint sampled_buckets (rs : random_state) (n k count : nat) (st : store G)
  : list (list nat) * store G :=
  match count with
  | 0 => ([], st)
  | S count' =>
      let d := rng_sample (generator_of rs st) n k in
      let '(rest, st') := sampled_buckets rs n k count' (advance_generator rs d.2 st) in
      (d.1 :: rest, st')
  end.
End Sampled.

(** ** Inputs used in the examples *)

Definition example_scores : list (list float) :=
  [[1; 2; 3; 4; 5; 6]; [6; 5; 4; 3; 2; 1]]%float.

Definition example_scores_exact : list (list Q) :=
  [[1; 2; 3; 4; 5; 6]; [6; 5; 4; 3; 2; 1]]%Q.

Definition example_scores5 : list (list float) :=
  [[1; 2; 3; 4; 5]; [5; 4; 3; 2; 1]]%float.

Definition example_scores8 : list (list float) :=
  [[1; 2; 3; 4; 5; 6; 7; 8]; [8; 7; 6; 5; 4; 3; 2; 1]]%float.

(** * Proofs *)

(** ** The concrete random source obeys the laws *)

Module LcgProofs.
Import Lcg.

Lemma shuffled_perm g n : shuffled g n ≡ₚ seq 0 n.
Proof.
  unfold shuffled, rotate.
  etrans; [apply Permutation_app_comm|]. by rewrite take_drop.
Qed.

#[global] Instance laws : RandomLaws Z.
Proof.
  split; simpl.
  - intros g n. apply shuffled_perm.
  - intros g n k Hk. rewrite length_take_le; [done|].
    by rewrite (shuffled_perm g n), length_seq.
  - intros g n k _. apply (sublist_NoDup _ (shuffled g n)); [|apply sublist_take].
    rewrite (shuffled_perm g n). apply NoDup_seq.
  - intros g n k _. apply Forall_take, Forall_forall. intros j Hj.
    rewrite (shuffled_perm g n) in Hj. apply elem_of_seq in Hj. lia.
  - intros g low high Hlt.
    pose proof (Z.mod_pos_bound (next g) (high - low)). lia.
Qed.
End LcgProofs.

(** ** The error monad and [mapR] *)

Lemma rbind_inr {A B} (m : result A) (k : A → result B) (b : B) :
  (m ≫= k) = inr b → ∃ a, m = inr a ∧ k a = inr b.
Proof. destruct m as [e|a]; [discriminate | eauto]. Qed.

Lemma mapR_inr {A B} (f : A → result B) (l : list A) (k : list B) :
  mapR f l = inr k ↔ Forall2 (λ x y, f x = inr y) l k.
Proof.
  revert k. induction l as [|x l IH]; intros k; simpl.
  - split.
    + intros [= <-]. constructor.
    + intros ->%Forall2_nil_inv_l. reflexivity.
  - split.
    + intros (y & Hy & Hrest)%rbind_inr.
      apply rbind_inr in Hrest as (ys & Hys & [= <-]).
      constructor; [assumption | by apply IH].
    + intros (y & ys & Hy & Hys & ->)%Forall2_cons_inv_l.
      apply IH in Hys. unfold mbind, result_bind. rewrite Hy. simpl.
      unfold mbind, result_bind. by rewrite Hys.
Qed.

Lemma mapR_length {A B} (f : A → result B) (l : list A) (k : list B) :
  mapR f l = inr k → length k = length l.
Proof. intros Hk%mapR_inr. symmetry. by eapply Forall2_length. Qed.

Lemma mapR_ext {A B} (f g : A → result B) (l : list A) :
  (∀ x, x ∈ l → f x = g x) → mapR f l = mapR g l.
Proof.
  induction l as [|x l IH]; intros Hfg; [reflexivity|]. simpl.
  rewrite (Hfg x) by constructor.
  destruct (g x); [reflexivity|]. simpl.
  rewrite IH; [reflexivity|]. intros y Hy. apply Hfg. by constructor.
Qed.

Lemma mapR_replicate {A B} (f : A → result B) (x : A) (y : B) (n : nat) :
  f x = inr y → mapR f (replicate n x) = inr (replicate n y).
Proof.
  intros Hf. induction n as [|n IH]; [reflexivity|]. simpl.
  unfold mbind, result_bind. rewrite Hf. simpl.
  unfold mbind, result_bind. by rewrite IH.
Qed.

Lemma Forall2_compose {A B C} (R : A → B → Prop) (S : B → C → Prop) l k m :
  Forall2 R l k → Forall2 S k m →
  Forall2 (λ x z, ∃ y, R x y ∧ S y z) l m.
Proof.
  intros HR. revert m. induction HR as [|x y l k Hxy _ IH]; intros m HS.
  - apply Forall2_nil_inv_l in HS as ->. constructor.
  - apply Forall2_cons_inv_l in HS as (z & m' & Hyz & Hm' & ->).
    constructor; eauto.
Qed.

Lemma foldl_result_inl {A B} (f : result A → B → result A) (e : exn) (l : list B) :
  (∀ e' b, f (inl e') b = inl e') → foldl f (inl e) l = inl e.
Proof. intros Hf. induction l as [|b l IH]; simpl; [reflexivity|]. by rewrite Hf. Qed.

(** ** One bucket, then all buckets *)

Section FillProofs.
Context {F : Type} `{Numeric F}.

Lemma fill_bucket_inr mode (scores sb sb' : list (list F)) n_buckets j ind :
  fill_bucket mode scores sb n_buckets j ind = inr sb' →
  j < n_buckets ∧
  ∃ v, Forall2 (λ row x, bucket_value mode row ind = inr x) scores v
       ∧ length v = length sb
       ∧ sb' = zip_with (λ row x, <[j:=x]> row) sb v.
Proof.
  unfold fill_bucket, take_columns.
  intros (sub & Hsub & Hfill)%rbind_inr.
  apply mapR_inr in Hsub.
  assert (∀ v, set_column sb n_buckets j v = inr sb' →
            j < n_buckets ∧ length v = length sb
            ∧ sb' = zip_with (λ row x, <[j:=x]> row) sb v) as Hset.
  { intros v. unfold set_column.
    destruct (j <? n_buckets) eqn:Hj; simpl; [|discriminate].
    destruct (length v =? length sb) eqn:Hv; simpl; [|discriminate].
    intros [= <-]. apply Nat.ltb_lt in Hj. apply Nat.eqb_eq in Hv. done. }
  destruct (String.eqb mode "AOM") eqn:Hmode.
  - apply rbind_inr in Hfill as (v & Hv & Hfill).
    apply Hset in Hfill as (? & ? & ->). split; [done|].
    exists v. split_and!; [|done..].
    apply mapR_inr in Hv.
    eapply Forall2_impl; [exact (Forall2_compose _ _ _ _ _ Hsub Hv)|].
    intros row x (cols & Hcols & Hx). unfold bucket_value.
    rewrite Hcols. simpl. by rewrite Hmode.
  - apply Hset in Hfill as (? & Hlen & ->). split; [done|].
    exists (np_mean_axis1 sub). split_and!; [|done..].
    unfold np_mean_axis1. apply Forall2_fmap_r.
    eapply Forall2_impl; [exact Hsub|].
    intros row cols Hcols. unfold bucket_value.
    rewrite Hcols. simpl. by rewrite Hmode.
Qed.

(** After filling the columns [j .. j + length bs) every row keeps its
    entries outside that window and holds the bucket values inside. *)
Lemma fill_from_rows mode (scores : list (list F)) n_buckets bs :
  ∀ j sb sb',
    length sb = length scores →
    Forall (λ old, length old = n_buckets) sb →
    fill_from mode scores sb n_buckets j bs = inr sb' →
    length sb' = length scores
    ∧ (bs = [] ∨ j + length bs ≤ n_buckets)
    ∧ ∀ r row old, scores !! r = Some row → sb !! r = Some old →
        ∃ vals, Forall2 (λ ind x, bucket_value mode row ind = inr x) bs vals
                ∧ sb' !! r = Some (take j old ++ vals ++ drop (j + length bs) old).
Proof.
  induction bs as [|ind bs IH]; intros j sb sb' Hlen Hwidth Hfill; simpl in Hfill.
  - injection Hfill as <-. split_and!; [done | by left |].
    intros r row old _ Hold. exists []. split; [constructor|].
    simpl. rewrite Nat.add_0_r, take_drop. done.
  - apply rbind_inr in Hfill as (sb1 & Hsb1 & Hfill).
    apply fill_bucket_inr in Hsb1 as (Hj & v & Hv & Hvlen & ->).
    apply IH in Hfill as (Hlen' & Hbound & Hrows).
    + split_and!; [done | right; simpl; destruct Hbound as [->|]; simpl; lia |].
      intros r row old Hrow Hold.
      assert (is_Some (v !! r)) as [x Hx].
      { apply lookup_lt_is_Some. rewrite Hvlen. by eapply lookup_lt_Some. }
      assert (length old = n_buckets) as Hold_len.
      { eapply Forall_lookup_1 in Hwidth; eauto. }
      destruct (Hrows r row (<[j:=x]> old) Hrow) as (vals & Hvals & Hsb').
      { rewrite lookup_zip_with, Hold, Hx. done. }
      exists (x :: vals). split.
      * constructor; [|done].
        eapply Forall2_lookup_lr in Hv; eauto.
      * rewrite Hsb'. f_equal.
        rewrite (take_S_r _ _ x) by (apply list_lookup_insert_eq; lia).
        rewrite take_insert_ge by lia.
        rewrite drop_insert_lt by lia.
        replace (j + length (ind :: bs)) with (S j + length bs) by (simpl; lia).
        by rewrite <- app_assoc.
    + rewrite length_zip_with_l_eq; [done | by rewrite Hvlen].
    + apply Forall_forall. intros new Hnew.
      apply elem_of_lookup_zip_with in Hnew as (r & old & x & -> & Hold & _).
      rewrite length_insert. eapply Forall_lookup_1 in Hwidth; eauto.
Qed.

(** Filling all [n_buckets] columns of the zero matrix leaves exactly the
    bucket values. *)
Lemma fill_from_zeros mode (scores : list (list F)) bs sb' :
  fill_from mode scores (np_zeros (length scores) (length bs)) (length bs) 0 bs
    = inr sb' →
  Forall2 (λ row vals,
             Forall2 (λ ind x, bucket_value mode row ind = inr x) bs vals)
          scores sb'.
Proof.
  intros Hfill. apply fill_from_rows in Hfill as (Hlen & _ & Hrows).
  - apply Forall2_same_length_lookup_2; [done|].
    intros r row vals Hrow Hvals.
    destruct (Hrows r row (replicate (length bs) fzero) Hrow) as (vals' & Hv & Hsb').
    { unfold np_zeros. apply lookup_replicate_2. by eapply lookup_lt_Some. }
    rewrite Hvals in Hsb'. injection Hsb' as ->.
    cbn [take Nat.add app].
    rewrite drop_ge by (rewrite length_replicate; lia).
    by rewrite app_nil_r.
  - unfold np_zeros. by rewrite length_replicate.
  - unfold np_zeros. apply Forall_forall. intros old Hold.
    apply elem_of_replicate in Hold as [-> _]. by rewrite length_replicate.
Qed.
End FillProofs.

(** ** The three loops *)

Lemma M_bind_inr {G A B} (m : M G A) (k : A → M G B) st b st' :
  (m ≫= k) st = (inr b, st') →
  ∃ a st1, m st = (inr a, st1) ∧ k a st1 = (inr b, st').
Proof.
  unfold mbind, M_bind. destruct (m st) as [[e|a] st1]; [discriminate | eauto].
Qed.

Lemma lift_inr {G A} (r : result A) (st st' : store G) a :
  lift r st = (inr a, st') → r = inr a ∧ st' = st.
Proof. unfold lift. by intros [= -> ->]. Qed.

Section LoopProofs.
Context {F : Type} `{Numeric F} {G : Type} `{RandomOps G}.

(** A loop over the bucket numbers whose every pass draws positions with
    property [P] and fills the column of its number. *)
Lemma for_each_buckets mode (scores : list (list F)) n_buckets
    (body : nat → buckets_state → M G buckets_state) (P : list nat → Prop) :
  (∀ i sb bs st sb' bs' st',
      body i (sb, bs) st = (inr (sb', bs'), st') →
      ∃ ind, bs' = bs ++ [ind] ∧ P ind
             ∧ fill_bucket mode scores sb n_buckets i ind = inr sb') →
  ∀ k j sb bs st sb' bs' st',
    for_each (seq j k) body (sb, bs) st = (inr (sb', bs'), st') →
    ∃ new, bs' = bs ++ new ∧ length new = k ∧ Forall P new
           ∧ fill_from mode scores sb n_buckets j new = inr sb'.
Proof.
  intros Hbody k. induction k as [|k IH]; intros j sb bs st sb' bs' st' Hloop.
  - injection Hloop as <- <- <-. exists []. by rewrite app_nil_r.
  - simpl in Hloop.
    apply M_bind_inr in Hloop as ([sb1 bs1] & st1 & Hpass & Hloop).
    apply Hbody in Hpass as (ind & -> & HP & Hfill).
    apply IH in Hloop as (new & -> & <- & Hnew & Hrest).
    exists (ind :: new). split_and!.
    + by rewrite <- app_assoc.
    + done.
    + by constructor.
    + simpl. unfold mbind, result_bind. by rewrite Hfill.
Qed.

Lemma static_bootstrap_loop_inr mode (scores : list (list F)) n nb step rs sb0
    st sb bs st' :
  static_bootstrap_loop mode scores n nb step rs sb0 st = (inr (sb, bs), st') →
  length bs = nb ∧ Forall (drawn_static n step rs) bs
  ∧ fill_from mode scores sb0 nb 0 bs = inr sb.
Proof.
  unfold static_bootstrap_loop. intros Hloop.
  eapply (for_each_buckets mode scores nb _ (drawn_static n step rs))
    in Hloop as (new & -> & Hlen & Hdrawn & Hfill); [done|].
  clear. intros i sb bs st sb' bs' st' Hpass.
  apply M_bind_inr in Hpass as (ind & st1 & Hind & Hpass).
  apply M_bind_inr in Hpass as (sb1 & st2 & Hfill & Hret).
  apply lift_inr in Hfill as [Hfill ->].
  injection Hret as <- <- <-.
  exists ind. split_and!; [done | by exists st, st1 | done].
Qed.

Lemma dynamic_loop_inr mode (scores : list (list F)) n nb rs sb0 st sb bs st' :
  dynamic_loop mode scores n nb rs sb0 st = (inr (sb, bs), st') →
  length bs = nb ∧ Forall (drawn_dynamic n rs) bs
  ∧ fill_from mode scores sb0 nb 0 bs = inr sb.
Proof.
  unfold dynamic_loop. intros Hloop.
  eapply (for_each_buckets mode scores nb _ (drawn_dynamic n rs))
    in Hloop as (new & -> & Hlen & Hdrawn & Hfill); [done|].
  clear. intros i sb bs st sb' bs' st' Hpass.
  apply M_bind_inr in Hpass as (g & st1 & Hg & Hpass).
  apply M_bind_inr in Hpass as (size & st2 & Hsize & Hpass).
  apply lift_inr in Hsize as [Hsize ->].
  apply M_bind_inr in Hpass as (ind & st3 & Hind & Hpass).
  apply M_bind_inr in Hpass as (sb1 & st4 & Hfill & Hret).
  apply lift_inr in Hfill as [Hfill ->].
  injection Hret as <- <- <-.
  exists ind. split_and!; [done | by exists st, g, st1, size, st3 | done].
Qed.

(** The static loop without bootstrap fills the columns from the
    contiguous slices of the shuffled list, in order. *)
Lemma static_shuffle_fold mode (scores : list (list F)) nb step l :
  step ≠ 0 →
  ∀ cnt j sb0 bs0,
    let new := (λ q, take step (drop (q * step) l)) <$> seq j cnt in
    foldl (static_shuffle_step mode scores nb step l)
          (inr (j * step, sb0, bs0)) ((λ k, k * step) <$> seq j cnt)
    = (sb ← fill_from mode scores sb0 nb j new;
       inr ((j + cnt) * step, sb, bs0 ++ new)).
Proof.
  intros Hstep cnt. induction cnt as [|cnt IH]; intros j sb0 bs0; simpl.
  - by rewrite Nat.add_0_r, app_nil_r.
  - rewrite Nat.div_mul by done. unfold slice.
    replace (j * step + step - j * step) with step by lia.
    destruct (fill_bucket mode scores sb0 nb j (take step (drop (j * step) l)))
      as [e|sb1]; simpl.
    + by rewrite foldl_result_inl.
    + replace (j * step + step) with (S j * step) by lia.
      etrans; [apply IH|].
      replace (S j + cnt) with (j + S cnt) by lia.
      rewrite <- app_assoc. reflexivity.
Qed.

Lemma static_shuffle_loop_eq mode (scores : list (list F)) nb step l sb0 :
  step ≠ 0 →
  static_shuffle_loop mode scores (nb * step) nb step l sb0
  = (sb ← fill_from mode scores sb0 nb 0 (slices step nb l);
     inr (sb, slices step nb l)).
Proof.
  intros Hstep. unfold static_shuffle_loop, py_range.
  destruct (step =? 0) eqn:Hz; [by apply Nat.eqb_eq in Hz|].
  replace ((nb * step + step - 1) / step) with nb.
  2:{ apply Nat.div_unique with (step - 1); lia. }
  simpl.
  change (0 :: seq 1 (nb * step)) with (seq 0 (S (nb * step))).
  pose proof (static_shuffle_fold mode scores nb step l Hstep nb 0
                sb0 []) as Hfold.
  simpl in Hfold. unfold mbind, result_bind in *. rewrite Hfold.
  unfold slices. by destruct (fill_from _ _ _ _ _ _).
Qed.

Lemma static_shuffle_loop_inr mode (scores : list (list F)) nb step l sb0 sb bs :
  step ≠ 0 →
  static_shuffle_loop mode scores (nb * step) nb step l sb0 = inr (sb, bs) →
  bs = slices step nb l ∧ fill_from mode scores sb0 nb 0 bs = inr sb.
Proof.
  intros Hstep. rewrite static_shuffle_loop_eq by done.
  by intros (sb1 & Hfill & [= <- <-])%rbind_inr.
Qed.
End LoopProofs.

(** ** What a successful run of the helper went through *)

Section HelperProofs.
Context {F : Type} `{Numeric F} {G : Type} `{RandomOps G}.

Lemma check_array_inr (scores scores' : list (list F)) :
  check_array scores = inr scores' →
  scores' = scores ∧ 0 < length scores ∧ 0 < n_columns scores
  ∧ Forall (λ row, length row = n_columns scores) scores.
Proof.
  unfold check_array, n_columns. destruct scores as [|r rs]; [discriminate|].
  destruct (_ && _) eqn:Hchk; [|discriminate]. intros [= <-].
  apply andb_prop in Hchk as [Hchk _]. apply andb_prop in Hchk as [Hr Hrs].
  apply Nat.ltb_lt in Hr. simpl. split_and!; [done | lia | done |].
  constructor; [done|]. apply Forall_forall. intros r' Hr'.
  rewrite forallb_forall in Hrs. apply Nat.eqb_eq, Hrs.
  by apply list_elem_of_In.
Qed.

Lemma check_parameter_inr (param low high : nat) u :
  check_parameter param low high = inr u → low ≤ param ≤ high.
Proof.
  unfold check_parameter. destruct (_ && _) eqn:Hchk; [|discriminate].
  intros _. apply andb_prop in Hchk as [?%Nat.leb_le ?%Nat.leb_le]. lia.
Qed.

Lemma helper_traced_inr mode (scores : list (list F)) nb method boot rs
    (st st' : store G) out bs :
  aom_moa_helper_traced mode scores nb method boot rs st = (inr (out, bs), st') →
  let n := n_columns scores in
  (mode = "AOM" ∨ mode = "MOA")
  ∧ check_array scores = inr scores
  ∧ 2 ≤ nb ≤ n
  ∧ length bs = nb
  ∧ (∃ sb, fill_from mode scores (np_zeros (length scores) nb) nb 0 bs = inr sb
           ∧ if String.eqb mode "AOM" then out = np_mean_axis1 sb
             else np_max_axis1 sb = inr out)
  ∧ ((method = "static" ∧ n mod nb = 0 ∧ boot = false
      ∧ ∃ shuffled st1, shuffle (seq 0 n) rs st = (inr shuffled, st1)
                        ∧ bs = slices (n / nb) nb shuffled)
     ∨ (method = "static" ∧ n mod nb = 0 ∧ boot = true
        ∧ Forall (drawn_static n (n / nb) rs) bs)
     ∨ (method = "dynamic" ∧ Forall (drawn_dynamic n rs) bs)).
Proof.
  intros Hrun n. unfold aom_moa_helper_traced in Hrun.
  destruct (negb (String.eqb mode "AOM") && negb (String.eqb mode "MOA")) eqn:Hmode;
    [discriminate|].
  assert (mode = "AOM" ∨ mode = "MOA") as Hmode'.
  { destruct (String.eqb mode "AOM") eqn:E1; [left; by apply String.eqb_eq|].
    destruct (String.eqb mode "MOA") eqn:E2; [right; by apply String.eqb_eq|].
    discriminate. }
  apply M_bind_inr in Hrun as (scores' & st1 & Hchk & Hrun).
  apply lift_inr in Hchk as [Hchk ->].
  pose proof (check_array_inr _ _ Hchk) as (-> & Hrows & Hcols & Hrect).
  apply M_bind_inr in Hrun as (u & st1 & Hpar & Hrun).
  apply lift_inr in Hpar as [Hpar%check_parameter_inr ->].
  apply M_bind_inr in Hrun as ([sb bs'] & st1 & Hloop & Hfinal).
  fold n in Hloop, Hpar.
  assert (bs' = bs ∧ if String.eqb mode "AOM" then out = np_mean_axis1 sb
                     else np_max_axis1 sb = inr out) as [-> Hout].
  { destruct (String.eqb mode "AOM").
    - by injection Hfinal as <- <- <-.
    - apply M_bind_inr in Hfinal as (out' & st2 & Hmax & Hret).
      apply lift_inr in Hmax as [Hmax ->]. by injection Hret as <- <- <-. }
  clear Hfinal.
  assert (n = nb * (n / nb) + n mod nb) as Hdiv by (apply Nat.div_mod; lia).
  destruct (String.eqb method "static") eqn:Hstatic.
  - apply String.eqb_eq in Hstatic as ->.
    destruct (n mod nb =? 0) eqn:Hrem; [|discriminate]. simpl in Hloop.
    apply Nat.eqb_eq in Hrem.
    destruct boot; simpl in Hloop.
    + apply static_bootstrap_loop_inr in Hloop as (Hlen & Hdrawn & Hfill).
      do 4 (split; [done|]). split; [by exists sb|]. right; left; done.
    + apply M_bind_inr in Hloop as (shuffled & st2 & Hshuffle & Hloop).
      apply lift_inr in Hloop as [Hloop ->].
      replace n with (nb * (n / nb)) in Hloop at 1 by lia.
      apply static_shuffle_loop_inr in Hloop as [-> Hfill]; [|nia].
      do 3 (split; [done|]).
      split; [unfold slices; by rewrite length_fmap, length_seq|].
      split; [by exists sb|].
      left. do 3 (split; [done|]). by exists shuffled, st2.
  - destruct (String.eqb method "dynamic") eqn:Hdynamic; [|discriminate].
    apply String.eqb_eq in Hdynamic as ->.
    apply dynamic_loop_inr in Hloop as (Hlen & Hdrawn & Hfill).
    do 4 (split; [done|]). split; [by exists sb|]. right; right; done.
Qed.
End HelperProofs.

(** ** C1: the two-stage reduction *)

Section ReductionProofs.
Context {F : Type} `{Numeric F} {G : Type} `{RandomOps G}.

Lemma bucket_value_AOM (row : list F) ind : bucket_value "AOM" row ind = bucket_max row ind.
Proof. reflexivity. Qed.

Lemma bucket_value_MOA (row : list F) ind : bucket_value "MOA" row ind = bucket_mean row ind.
Proof. reflexivity. Qed.

Lemma helper_traced_AOM (scores : list (list F)) nb method boot rs
    (st st' : store G) out bs :
  aom_moa_helper_traced "AOM" scores nb method boot rs st = (inr (out, bs), st') →
  length bs = nb ∧ mapR (average_of_maximum bs) scores = inr out.
Proof.
  intros (_ & _ & _ & Hlen & (sb & Hfill & Hout) & _)%helper_traced_inr.
  split; [done|]. simpl in Hout. subst out nb.
  apply fill_from_zeros in Hfill.
  apply mapR_inr. unfold np_mean_axis1. apply Forall2_fmap_r.
  eapply Forall2_impl; [exact Hfill|].
  intros row vals Hvals. unfold average_of_maximum.
  apply mapR_inr in Hvals.
  change (mapR (bucket_max row) bs = inr vals) in Hvals.
  unfold mbind, result_bind. by rewrite Hvals.
Qed.

Lemma helper_traced_MOA (scores : list (list F)) nb method boot rs
    (st st' : store G) out bs :
  aom_moa_helper_traced "MOA" scores nb method boot rs st = (inr (out, bs), st') →
  length bs = nb ∧ mapR (maximum_of_average bs) scores = inr out.
Proof.
  intros (_ & _ & _ & Hlen & (sb & Hfill & Hout) & _)%helper_traced_inr.
  split; [done|]. simpl in Hout. subst nb.
  apply fill_from_zeros in Hfill.
  apply mapR_inr in Hout.
  apply mapR_inr.
  eapply Forall2_impl; [exact (Forall2_compose _ _ _ _ _ Hfill Hout)|].
  intros row y (vals & Hvals & Hy). unfold maximum_of_average.
  apply mapR_inr in Hvals.
  change (mapR (bucket_mean row) bs = inr vals) in Hvals.
  unfold mbind, result_bind. by rewrite Hvals.
Qed.

(** The public functions return the first component of the traced run. *)
Lemma helper_inr mode (scores : list (list F)) nb method boot rs
    (st st' : store G) out :
  _aom_moa_helper mode scores nb method boot rs st = (inr out, st') →
  ∃ bs, aom_moa_helper_traced mode scores nb method boot rs st
        = (inr (out, bs), st').
Proof.
  unfold _aom_moa_helper.
  intros ([out' bs] & st1 & Hrun & [= <- <-])%M_bind_inr. by exists bs.
Qed.

Lemma helper_of_traced mode (scores : list (list F)) nb method boot rs
    (st st' : store G) r :
  aom_moa_helper_traced mode scores nb method boot rs st = (r, st') →
  _aom_moa_helper mode scores nb method boot rs st
  = (match r with inl e => inl e | inr p => inr p.1 end, st').
Proof.
  unfold _aom_moa_helper, mbind, M_bind. intros ->. by destruct r as [e|[out bs]].
Qed.
End ReductionProofs.


(** ** Draws and their properties *)

Section DrawProofs.
Context {G : Type} `{RandomLaws G}.

Lemma with_random_state_inr {A} rs (draw : G → A * G) (st st' : store G) a :
  with_random_state rs draw st = (inr a, st') → ∃ g, a = (draw g).1.
Proof.
  unfold with_random_state. destruct rs as [|s|].
  - destruct (draw (np_random st)) as [a' g] eqn:Hd. intros [= <- <-].
    exists (np_random st). by rewrite Hd.
  - destruct (seed_ok s); [|discriminate]. intros [= <- <-]. eauto.
  - destruct (draw (caller_rng st)) as [a' g] eqn:Hd. intros [= <- <-].
    exists (caller_rng st). by rewrite Hd.
Qed.

Lemma with_random_state_seedable {A} rs (draw : G → A * G) (st : store G) :
  seedable rs →
  ∃ st', with_random_state rs draw st = (inr (draw (generator_of rs st)).1, st').
Proof.
  unfold with_random_state, seedable, generator_of. destruct rs as [|s|]; intros Hs.
  - destruct (draw (np_random st)) as [a g]. eauto.
  - rewrite Hs. eauto.
  - destruct (draw (caller_rng st)) as [a g]. eauto.
Qed.


Lemma mapR_lookup_seq n (idx : list nat) :
  Forall (λ j, j < n) idx →
  mapR (λ j, match seq 0 n !! j with Some x => inr x | None => inl IndexError end) idx
  = inr idx.
Proof.
  intros Hidx. apply mapR_inr. apply Forall2_same_length_lookup_2; [done|].
  intros i j j' Hj Hj'. rewrite Hj in Hj'. injection Hj' as <-.
  eapply Forall_lookup_1 in Hidx; [|exact Hj]. simpl in Hidx.
  by rewrite lookup_seq_lt.
Qed.

Lemma rng_shuffle_lt g n : Forall (λ j, j < n) (rng_shuffle g n).1.
Proof.
  apply Forall_forall. intros j Hj.
  rewrite (rng_shuffle_perm g n) in Hj. apply elem_of_seq in Hj. lia.
Qed.

(** Shuffling [range(n)] returns the shuffled positions themselves. *)
Lemma shuffle_seq_inr n rs (st st' : store G) l :
  shuffle (seq 0 n) rs st = (inr l, st') → l ≡ₚ seq 0 n.
Proof.
  unfold shuffle. intros (idx & st1 & Hidx & Hl)%M_bind_inr.
  apply lift_inr in Hl as [Hl ->].
  apply with_random_state_inr in Hidx as [g ->].
  rewrite length_seq in Hl.
  rewrite mapR_lookup_seq in Hl by apply rng_shuffle_lt.
  injection Hl as <-. apply rng_shuffle_perm.
Qed.

Lemma shuffle_seq_seedable n rs (st : store G) :
  seedable rs →
  ∃ st', shuffle (seq 0 n) rs st
         = (inr (rng_shuffle (generator_of rs st) n).1, st').
Proof.
  intros Hs. unfold shuffle.
  destruct (with_random_state_seedable rs (λ g, rng_shuffle g (length (seq 0 n))) st Hs)
    as [st' Hdraw].
  exists st'. unfold mbind, M_bind. rewrite Hdraw. unfold lift.
  rewrite length_seq. by rewrite mapR_lookup_seq by apply rng_shuffle_lt.
Qed.

Lemma sample_inr n k rs (st st' : store G) ind :
  sample_without_replacement n k rs st = (inr ind, st') →
  k ≤ n ∧ length ind = k ∧ NoDup ind ∧ Forall (λ j, j < n) ind.
Proof.
  unfold sample_without_replacement.
  destruct (n <? k) eqn:Hk; [discriminate|]. apply Nat.ltb_ge in Hk.
  intros [g ->]%with_random_state_inr.
  split_and!; [done | by apply rng_sample_length | by apply rng_sample_NoDup
              | by apply rng_sample_lt].
Qed.

Lemma sample_seedable n k rs (st : store G) :
  k ≤ n → seedable rs →
  ∃ st', sample_without_replacement n k rs st
         = (inr (rng_sample (generator_of rs st) n k).1, st').
Proof.
  intros Hk Hs. unfold sample_without_replacement.
  destruct (n <? k) eqn:Hlt; [apply Nat.ltb_lt in Hlt; lia|].
  apply with_random_state_seedable, Hs.
Qed.

Lemma randint_inr (g : G) low high size :
  randint g low high = inr size → (low ≤ size < high)%Z.
Proof.
  unfold randint. destruct (low <? high)%Z eqn:Hlt; [|discriminate].
  intros [= <-]. apply rng_randint_range. lia.
Qed.

Lemma drawn_static_spec n k rs ind :
  drawn_static n k rs ind →
  k ≤ n ∧ length ind = k ∧ NoDup ind ∧ Forall (λ j, j < n) ind.
Proof. intros (st & st' & Hdraw). by eapply sample_inr. Qed.

Lemma drawn_dynamic_spec n rs ind :
  drawn_dynamic n rs ind →
  2 ≤ length ind < n / 2 ∧ NoDup ind ∧ Forall (λ j, j < n) ind.
Proof.
  intros (st & g & st1 & size & st2 & Hg & Hsize & Hdraw).
  apply randint_inr in Hsize. apply sample_inr in Hdraw as (_ & Hlen & ? & ?).
  split; [lia | done].
Qed.
End DrawProofs.

(** ** Runs that succeed *)

Lemma mapR_success {A B} (f : A → result B) (l : list A) :
  Forall (λ x, ∃ y, f x = inr y) l → ∃ k, mapR f l = inr k.
Proof.
  induction 1 as [|x l [y Hy] _ [k Hk]]; [by exists []|].
  exists (y :: k). simpl. unfold mbind, result_bind. rewrite Hy. simpl.
  unfold mbind, result_bind. by rewrite Hk.
Qed.

Section SuccessProofs.
Context {F : Type} `{Numeric F} {G : Type} `{RandomOps G}.

Lemma take_index_length (row : list F) ind cols :
  take_index row ind = inr cols → length cols = length ind.
Proof. apply mapR_length. Qed.

Lemma take_index_success (row : list F) ind :
  Forall (λ j, j < length row) ind → ∃ cols, take_index row ind = inr cols.
Proof.
  intros Hind. apply mapR_success. eapply Forall_impl; [exact Hind|].
  intros j Hj. simpl in Hj. apply lookup_lt_is_Some in Hj as [x ->]. eauto.
Qed.

Lemma np_max_success (cols : list F) : cols ≠ [] → ∃ x, np_max cols = inr x.
Proof. destruct cols; [done|]. simpl. eauto. Qed.

Lemma fill_bucket_success mode (scores sb : list (list F)) nb j ind n :
  Forall (λ row, length row = n) scores →
  length sb = length scores →
  j < nb → ind ≠ [] → Forall (λ j, j < n) ind →
  ∃ sb', fill_bucket mode scores sb nb j ind = inr sb'
         ∧ length sb' = length scores.
Proof.
  intros Hrect Hlen Hj Hne Hind.
  assert (∃ sub, take_columns scores ind = inr sub) as [sub Hsub].
  { apply mapR_success. eapply Forall_impl; [exact Hrect|].
    intros row <-. by apply take_index_success. }
  unfold fill_bucket, mbind, result_bind. rewrite Hsub. simpl.
  pose proof (mapR_length _ _ _ Hsub) as Hsublen.
  assert (∀ v, length v = length sub →
            ∃ sb', set_column sb nb j v = inr sb' ∧ length sb' = length scores)
    as Hset.
  { intros v Hv. unfold set_column.
    apply Nat.ltb_lt in Hj as ->. simpl.
    assert (length v = length sb) as Hvsb by lia.
    rewrite <- Nat.eqb_eq in Hvsb. rewrite Hvsb. simpl.
    eexists. split; [done|]. apply Nat.eqb_eq in Hvsb.
    rewrite length_zip_with_l_eq; lia. }
  destruct (String.eqb mode "AOM").
  - assert (∃ v, np_max_axis1 sub = inr v) as [v Hv].
    { apply mapR_success. apply mapR_inr in Hsub.
      apply Forall_forall. intros cols Hcols.
      apply list_elem_of_lookup in Hcols as [r Hcols].
      destruct (Forall2_lookup_r _ _ _ _ _ Hsub Hcols) as (row & _ & Hrow).
      apply np_max_success. apply take_index_length in Hrow.
      destruct cols; [|done]. by destruct ind. }
    rewrite Hv. simpl. apply Hset. by apply mapR_length in Hv.
  - apply Hset. unfold np_mean_axis1. by rewrite length_fmap.
Qed.

Lemma fill_from_success mode (scores : list (list F)) nb n bs :
  Forall (λ row, length row = n) scores →
  Forall (λ ind, ind ≠ [] ∧ Forall (λ j, j < n) ind) bs →
  ∀ j sb, length sb = length scores → j + length bs ≤ nb →
          ∃ sb', fill_from mode scores sb nb j bs = inr sb'.
Proof.
  intros Hrect Hbs. induction Hbs as [|ind bs [Hne Hind] _ IH]; intros j sb Hlen Hj.
  - by exists sb.
  - simpl in Hj.
    destruct (fill_bucket_success mode scores sb nb j ind n)
      as (sb1 & Hsb1 & Hlen1); [done | done | lia | done | done |].
    destruct (IH (S j) sb1) as [sb' Hsb']; [done | lia |].
    exists sb'. simpl. unfold mbind, result_bind. by rewrite Hsb1.
Qed.

(** A loop over the bucket numbers whose every pass succeeds. *)
Lemma for_each_success {St} (body : nat → St → M G St) (Inv : St → Prop) nb :
  (∀ i s st, i < nb → Inv s →
             ∃ s' st', body i s st = (inr s', st') ∧ Inv s') →
  ∀ k j s st, j + k ≤ nb → Inv s →
              ∃ s' st', for_each (seq j k) body s st = (inr s', st') ∧ Inv s'.
Proof.
  intros Hbody k. induction k as [|k IH]; intros j s st Hj Hs.
  - by exists s, st.
  - destruct (Hbody j s st) as (s1 & st1 & Hpass & Hs1); [lia | done |].
    destruct (IH (S j) s1 st1) as (s' & st' & Hloop & Hs'); [lia | done |].
    exists s', st'. split; [|done].
    simpl. unfold mbind, M_bind. by rewrite Hpass.
Qed.

(** The last line of the helper on a filled matrix. *)
Lemma final_reduction_success mode (scores : list (list F)) bs sb (st : store G) :
  bs ≠ [] →
  fill_from mode scores (np_zeros (length scores) (length bs)) (length bs) 0 bs
    = inr sb →
  ∃ out,
    (if String.eqb mode "AOM" then mret (np_mean_axis1 sb, bs)
     else out ← lift (np_max_axis1 sb); mret (out, bs)) st
    = (inr (out, bs), st).
Proof.
  intros Hne Hfill. apply fill_from_zeros in Hfill.
  destruct (String.eqb mode "AOM"); [by eexists|].
  assert (∃ out, np_max_axis1 sb = inr out) as [out Hout].
  { apply mapR_success. apply Forall_forall. intros vals Hvals.
    apply list_elem_of_lookup in Hvals as [r Hvals].
    destruct (Forall2_lookup_r _ _ _ _ _ Hfill Hvals) as (row & _ & Hrow).
    apply np_max_success. apply Forall2_length in Hrow.
    destruct vals; [|done]. by destruct bs. }
  exists out. unfold mbind, M_bind, lift. by rewrite Hout.
Qed.

(** The helper after its validation steps. *)
Lemma helper_traced_validated mode (scores : list (list F)) nb method boot rs
    (st : store G) :
  mode = "AOM" ∨ mode = "MOA" →
  check_array scores = inr scores →
  2 ≤ nb ≤ n_columns scores →
  aom_moa_helper_traced mode scores nb method boot rs st
  = (let n_estimators := n_columns scores in
     let scores_buckets := np_zeros (length scores) nb in
     '(scores_buckets, bs) ←
       (if String.eqb method "static" then
          let n_estimators_per_bucket := n_estimators / nb in
          if negb (n_estimators mod nb =? 0) then raise ValueError_remainder
          else if negb boot then
            shuffled_list ← shuffle (seq 0 n_estimators) rs;
            lift (static_shuffle_loop mode scores n_estimators nb
                    n_estimators_per_bucket shuffled_list scores_buckets)
          else
            static_bootstrap_loop mode scores n_estimators nb
              n_estimators_per_bucket rs scores_buckets
        else if String.eqb method "dynamic" then
          dynamic_loop mode scores n_estimators nb rs scores_buckets
        else raise (NotImplementedError method));
     if String.eqb mode "AOM" then mret (np_mean_axis1 scores_buckets, bs)
     else out ← lift (np_max_axis1 scores_buckets); mret (out, bs)) st.
Proof.
  intros Hmode Hchk Hnb. unfold aom_moa_helper_traced.
  assert (negb (String.eqb mode "AOM") && negb (String.eqb mode "MOA") = false) as ->.
  { by destruct Hmode as [-> | ->]. }
  unfold check_parameter.
  assert ((2 <=? nb) && (nb <=? n_columns scores) = true) as Hpar.
  { apply andb_true_intro. split; apply Nat.leb_le; lia. }
  unfold mbind at 1, M_bind at 1, lift at 1. rewrite Hchk.
  unfold mbind at 1, M_bind at 1, lift at 1. rewrite Hpar. reflexivity.
Qed.
End SuccessProofs.

(** ** C1: one bucket assignment, two reductions *)

Section SameBuckets.
Context {F : Type} `{Numeric F} {G : Type} `{RandomOps G}.

(** Two loops over the same bucket numbers whose passes, started from the
    same trace and store, agree on the trace and the store they leave. *)
Lemma for_each_same_trace
    (body1 body2 : nat → buckets_state (F:=F) → M G (buckets_state (F:=F))) :
  (∀ i sb1 sb2 bs st sb1' bs1 st1 sb2' bs2 st2,
      body1 i (sb1, bs) st = (inr (sb1', bs1), st1) →
      body2 i (sb2, bs) st = (inr (sb2', bs2), st2) →
      bs1 = bs2 ∧ st1 = st2) →
  ∀ l sb1 sb2 bs st sb1' bs1 st1 sb2' bs2 st2,
    for_each l body1 (sb1, bs) st = (inr (sb1', bs1), st1) →
    for_each l body2 (sb2, bs) st = (inr (sb2', bs2), st2) →
    bs1 = bs2 ∧ st1 = st2.
Proof.
  intros Hbody l. induction l as [|i l IH];
    intros sb1 sb2 bs st sb1' bs1 st1 sb2' bs2 st2 Hrun1 Hrun2.
  - injection Hrun1 as <- <- <-. by injection Hrun2 as <- <- <-.
  - simpl in Hrun1, Hrun2.
    apply M_bind_inr in Hrun1 as ([sa1 ba1] & sta1 & Hpass1 & Hrun1).
    apply M_bind_inr in Hrun2 as ([sa2 ba2] & sta2 & Hpass2 & Hrun2).
    destruct (Hbody _ _ _ _ _ _ _ _ _ _ _ Hpass1 Hpass2) as [-> ->].
    by eapply IH.
Qed.

Lemma static_bootstrap_loop_same mode1 mode2 (scores : list (list F)) n nb step rs
    sb0 (st st1 st2 : store G) sb1 bs1 sb2 bs2 :
  static_bootstrap_loop mode1 scores n nb step rs sb0 st = (inr (sb1, bs1), st1) →
  static_bootstrap_loop mode2 scores n nb step rs sb0 st = (inr (sb2, bs2), st2) →
  bs1 = bs2 ∧ st1 = st2.
Proof.
  unfold static_bootstrap_loop. apply for_each_same_trace.
  clear. intros i sb1 sb2 bs st sb1' bs1 st1 sb2' bs2 st2 Hpass1 Hpass2.
  apply M_bind_inr in Hpass1 as (ind1 & sta & Hind1 & Hpass1).
  apply M_bind_inr in Hpass2 as (ind2 & stb & Hind2 & Hpass2).
  rewrite Hind1 in Hind2. injection Hind2 as <- <-.
  apply M_bind_inr in Hpass1 as (sa & sta' & Hfill1 & Hret1).
  apply M_bind_inr in Hpass2 as (sb & stb' & Hfill2 & Hret2).
  apply lift_inr in Hfill1 as [_ ->]. apply lift_inr in Hfill2 as [_ ->].
  injection Hret1 as _ <- <-. by injection Hret2 as _ <- <-.
Qed.

Lemma dynamic_loop_same mode1 mode2 (scores : list (list F)) n nb rs
    sb0 (st st1 st2 : store G) sb1 bs1 sb2 bs2 :
  dynamic_loop mode1 scores n nb rs sb0 st = (inr (sb1, bs1), st1) →
  dynamic_loop mode2 scores n nb rs sb0 st = (inr (sb2, bs2), st2) →
  bs1 = bs2 ∧ st1 = st2.
Proof.
  unfold dynamic_loop. apply for_each_same_trace.
  clear. intros i sb1 sb2 bs st sb1' bs1 st1 sb2' bs2 st2 Hpass1 Hpass2.
  apply M_bind_inr in Hpass1 as (g1 & sta & Hg1 & Hpass1).
  apply M_bind_inr in Hpass2 as (g2 & stb & Hg2 & Hpass2).
  rewrite Hg1 in Hg2. injection Hg2 as <- <-.
  apply M_bind_inr in Hpass1 as (size1 & sta' & Hsize1 & Hpass1).
  apply M_bind_inr in Hpass2 as (size2 & stb' & Hsize2 & Hpass2).
  apply lift_inr in Hsize1 as [Hsize1 ->]. apply lift_inr in Hsize2 as [Hsize2 ->].
  rewrite Hsize1 in Hsize2. injection Hsize2 as <-.
  apply M_bind_inr in Hpass1 as (ind1 & stc & Hind1 & Hpass1).
  apply M_bind_inr in Hpass2 as (ind2 & std & Hind2 & Hpass2).
  rewrite Hind1 in Hind2. injection Hind2 as <- <-.
  apply M_bind_inr in Hpass1 as (sa & stc' & Hfill1 & Hret1).
  apply M_bind_inr in Hpass2 as (sb & std' & Hfill2 & Hret2).
  apply lift_inr in Hfill1 as [_ ->]. apply lift_inr in Hfill2 as [_ ->].
  injection Hret1 as _ <- <-. by injection Hret2 as _ <- <-.
Qed.

(** The bucket assignment does not depend on the mode: an AOM run and a MOA
    run on the same inputs, from the same store, use the same buckets and
    leave the same store. *)
Lemma aom_moa_same_buckets (scores : list (list F)) nb method boot rs
    (st st1 st2 : store G) out1 bs1 out2 bs2 :
  aom_moa_helper_traced "AOM" scores nb method boot rs st = (inr (out1, bs1), st1) →
  aom_moa_helper_traced "MOA" scores nb method boot rs st = (inr (out2, bs2), st2) →
  bs1 = bs2 ∧ st1 = st2.
Proof.
  intros Hrun1 Hrun2.
  pose proof (helper_traced_inr _ _ _ _ _ _ _ _ _ _ Hrun1) as (_ & Hchk & Hnb & _).
  rewrite helper_traced_validated in Hrun1 by (done || by left).
  rewrite helper_traced_validated in Hrun2 by (done || by right).
  cbv zeta in Hrun1, Hrun2.
  apply M_bind_inr in Hrun1 as ([sb1 bs1'] & sta & Hloop1 & Hfin1).
  apply M_bind_inr in Hrun2 as ([sb2 bs2'] & stb & Hloop2 & Hfin2).
  change (String.eqb "AOM" "AOM") with true in Hfin1.
  change (String.eqb "MOA" "AOM") with false in Hfin2.
  cbv iota in Hfin1, Hfin2.
  injection Hfin1 as _ <- <-.
  apply M_bind_inr in Hfin2 as (o2 & stb' & Hmax & Hret).
  apply lift_inr in Hmax as [_ ->]. injection Hret as _ <- <-.
  destruct (String.eqb method "static").
  - destruct (n_columns scores mod nb =? 0) eqn:Hrem; [|discriminate].
    apply Nat.eqb_eq in Hrem. cbn [negb] in Hloop1, Hloop2.
    destruct boot; cbn [negb] in Hloop1, Hloop2.
    + by eapply static_bootstrap_loop_same.
    + apply M_bind_inr in Hloop1 as (l1 & stc & Hshuffle1 & Hloop1).
      apply M_bind_inr in Hloop2 as (l2 & std & Hshuffle2 & Hloop2).
      rewrite Hshuffle1 in Hshuffle2. injection Hshuffle2 as <- <-.
      apply lift_inr in Hloop1 as [Hloop1 ->].
      apply lift_inr in Hloop2 as [Hloop2 ->].
      split; [|done].
      assert (n_columns scores = nb * (n_columns scores / nb)) as Hdiv.
      { rewrite (Nat.div_mod (n_columns scores) nb) at 1 by lia. lia. }
      rewrite Hdiv in Hloop1 at 1. rewrite Hdiv in Hloop2 at 1.
      apply static_shuffle_loop_inr in Hloop1 as [-> _]; [|nia].
      by apply static_shuffle_loop_inr in Hloop2 as [-> _]; [|nia].
  - destruct (String.eqb method "dynamic"); [|discriminate].
    by eapply dynamic_loop_same.
Qed.
End SameBuckets.

(** C1.  Whenever [aom] returns, its result is, sample by sample, the mean
    across the buckets of the run of the per-bucket maximum over the bucket's
    columns; whenever [moa] returns, its result is the maximum across the
    buckets of the per-bucket mean.  Both use [n_buckets] buckets, and on the
    same inputs and random source both use the same bucket assignment. *)
Theorem aom_moa_two_stage_reduction {F : Type} `{Numeric F} {G : Type} `{RandomOps G}
    (scores : list (list F)) (n_buckets : nat) (method : string)
    (bootstrap_estimators : bool) (rs : random_state) (st st' : store G)
    (out : list F) :
  (aom scores n_buckets method bootstrap_estimators rs st = (inr out, st') →
   ∃ buckets,
     aom_moa_helper_traced "AOM" scores n_buckets method bootstrap_estimators rs st
       = (inr (out, buckets), st')
     ∧ length buckets = n_buckets
     ∧ mapR (average_of_maximum buckets) scores = inr out)
  ∧ (moa scores n_buckets method bootstrap_estimators rs st = (inr out, st') →
     ∃ buckets,
       aom_moa_helper_traced "MOA" scores n_buckets method bootstrap_estimators rs st
         = (inr (out, buckets), st')
       ∧ length buckets = n_buckets
       ∧ mapR (maximum_of_average buckets) scores = inr out)
  ∧ (∀ out1 buckets1 st1 out2 buckets2 st2,
       aom_moa_helper_traced "AOM" scores n_buckets method bootstrap_estimators rs st
         = (inr (out1, buckets1), st1) →
       aom_moa_helper_traced "MOA" scores n_buckets method bootstrap_estimators rs st
         = (inr (out2, buckets2), st2) →
       buckets1 = buckets2 ∧ st1 = st2).
Proof.
  split_and!.
  - intros [bs Hrun]%helper_inr. exists bs. split; [exact Hrun|].
    by apply helper_traced_AOM in Hrun.
  - intros [bs Hrun]%helper_inr. exists bs. split; [exact Hrun|].
    by apply helper_traced_MOA in Hrun.
  - intros out1 buckets1 st1 out2 buckets2 st2. apply aom_moa_same_buckets.
Qed.

Lemma aom_moa_two_stage_reduction_witness :
  (∃ buckets,
     aom_moa_helper_traced "AOM" example_scores 3 "static" false (RS_int 42) Lcg.st0
       = (inr ([4; 4]%float, buckets), Lcg.st0)
     ∧ length buckets = 3
     ∧ mapR (average_of_maximum buckets) example_scores = inr [4; 4]%float)
  ∧ (∃ buckets,
       aom_moa_helper_traced "MOA" example_scores 3 "static" false (RS_int 42) Lcg.st0
         = (inr ([5.5; 5.5]%float, buckets), Lcg.st0)
       ∧ length buckets = 3
       ∧ mapR (maximum_of_average buckets) example_scores = inr [5.5; 5.5]%float).
Proof.
  split.
  - apply (proj1 (aom_moa_two_stage_reduction example_scores 3 "static" false
                    (RS_int 42) Lcg.st0 Lcg.st0 [4; 4]%float)).
    vm_compute. reflexivity.
  - apply (proj1 (proj2 (aom_moa_two_stage_reduction example_scores 3 "static" false
                           (RS_int 42) Lcg.st0 Lcg.st0 [5.5; 5.5]%float))).
    vm_compute. reflexivity.
Defined.

(** ** C2: static buckets without bootstrap *)

Lemma concat_slices_from step (l : list nat) k :
  ∀ j, concat ((λ q, take step (drop (q * step) l)) <$> seq j k)
       = take (k * step) (drop (j * step) l).
Proof.
  induction k as [|k IH]; intros j; [reflexivity|].
  simpl. rewrite IH.
  replace (S j * step) with (j * step + step) by lia.
  rewrite <- drop_drop. apply take_take_drop.
Qed.

Lemma concat_slices step nb (l : list nat) :
  length l = nb * step → concat (slices step nb l) = l.
Proof.
  intros Hlen. unfold slices. rewrite concat_slices_from. simpl.
  rewrite drop_0. apply take_ge. lia.
Qed.

Lemma slices_length step nb (l : list nat) :
  length l = nb * step → Forall (λ b, length b = step) (slices step nb l).
Proof.
  intros Hlen. unfold slices. apply Forall_fmap, Forall_forall.
  intros q [_ Hq]%elem_of_seq. simpl.
  rewrite length_take_le; [done|]. rewrite length_drop. nia.
Qed.

Lemma slices_elem step nb (l : list nat) b j :
  b ∈ slices step nb l → j ∈ b → j ∈ l.
Proof.
  unfold slices. intros (q & -> & _)%list_elem_of_fmap Hj.
  by apply subseteq_take, subseteq_drop in Hj.
Qed.

Section StaticProofs.
Context {F : Type} `{Numeric F} {G : Type} `{RandomLaws G}.

Lemma static_shuffle_run mode (scores : list (list F)) nb rs (st : store G) :
  let n := n_columns scores in
  mode = "AOM" ∨ mode = "MOA" →
  check_array scores = inr scores →
  2 ≤ nb ≤ n → n mod nb = 0 → seedable rs →
  ∃ out st',
    aom_moa_helper_traced mode scores nb "static" false rs st
    = (inr (out, slices (n / nb) nb (rng_shuffle (generator_of rs st) n).1), st').
Proof.
  intros n Hmode Hchk Hnb Hrem Hseed.
  rewrite helper_traced_validated by done. fold n.
  apply check_array_inr in Hchk as (_ & _ & _ & Hrect). fold n in Hrect.
  apply Nat.eqb_eq in Hrem as Hrem'. cbv zeta.
  change (String.eqb "static" "static") with true. rewrite Hrem'. cbn [negb].
  assert (n = nb * (n / nb)) as Hdiv.
  { rewrite (Nat.div_mod n nb) at 1 by lia. lia. }
  destruct (shuffle_seq_seedable n rs st Hseed) as [st' Hshuffle].
  set (l := (rng_shuffle (generator_of rs st) n).1) in *.
  assert (length l = nb * (n / nb)) as Hl.
  { rewrite <- Hdiv. unfold l. by rewrite (rng_shuffle_perm _ n), length_seq. }
  assert (∃ sb, fill_from mode scores (np_zeros (length scores) nb) nb 0
                  (slices (n / nb) nb l) = inr sb) as [sb Hsb].
  { apply (fill_from_success mode scores nb n); [done | | | ].
    - pose proof (slices_length _ _ _ Hl) as Hlens.
      apply Forall_forall. intros b Hb.
      eapply Forall_forall in Hlens; [|exact Hb]. split.
      + intros ->. simpl in Hlens. nia.
      + apply Forall_forall. intros j Hj.
        eapply slices_elem in Hj; [|exact Hb].
        pose proof (rng_shuffle_lt (generator_of rs st) n) as Hlt.
        by eapply Forall_forall in Hlt.
    - unfold np_zeros. by rewrite length_replicate.
    - unfold slices. rewrite length_fmap, length_seq. lia. }
  destruct (final_reduction_success mode scores (slices (n / nb) nb l) sb st')
    as [out Hout].
  { unfold slices. destruct nb; [lia | done]. }
  { replace (length (slices (n / nb) nb l)) with nb; [done|].
    unfold slices. by rewrite length_fmap, length_seq. }
  exists out, st'.
  unfold mbind at 1, M_bind at 1. unfold mbind at 1, M_bind at 1.
  rewrite Hshuffle. unfold lift.
  replace n with (nb * (n / nb)) at 1 by lia.
  rewrite static_shuffle_loop_eq by nia.
  rewrite Hsb. simpl. exact Hout.
Qed.
End StaticProofs.

(** C2.  With [method='static'], [bootstrap_estimators=False] and
    [n_estimators] divisible by [n_buckets], the run succeeds and its buckets
    are the [n_buckets] contiguous slices of width
    [n_estimators / n_buckets] of the shuffled index sequence; together they
    hold every estimator index exactly once. *)
Theorem static_buckets_partition {F : Type} `{Numeric F} {G : Type} `{RandomLaws G}
    (mode : string) (scores : list (list F)) (n_buckets : nat)
    (rs : random_state) (st : store G) :
  mode = "AOM" ∨ mode = "MOA" →
  check_array scores = inr scores →
  2 ≤ n_buckets ≤ n_columns scores →
  n_columns scores mod n_buckets = 0 →
  seedable rs →
  ∃ out buckets st' shuffled st1,
    aom_moa_helper_traced mode scores n_buckets "static" false rs st
      = (inr (out, buckets), st')
    ∧ shuffle (seq 0 (n_columns scores)) rs st = (inr shuffled, st1)
    ∧ shuffled ≡ₚ seq 0 (n_columns scores)
    ∧ buckets = slices (n_columns scores / n_buckets) n_buckets shuffled
    ∧ length buckets = n_buckets
    ∧ Forall (λ b, length b = n_columns scores / n_buckets) buckets
    ∧ concat buckets = shuffled
    ∧ concat buckets ≡ₚ seq 0 (n_columns scores)
    ∧ NoDup (concat buckets)
    ∧ ∀ j, j ∈ concat buckets ↔ j < n_columns scores.
Proof.
  intros Hmode Hchk Hnb Hrem Hseed.
  destruct (static_shuffle_run mode scores n_buckets rs st Hmode Hchk Hnb Hrem Hseed)
    as (out & st' & Hrun).
  destruct (shuffle_seq_seedable (n_columns scores) rs st Hseed) as [st1 Hshuffle].
  set (n := n_columns scores) in *.
  set (l := (rng_shuffle (generator_of rs st) n).1) in *.
  assert (l ≡ₚ seq 0 n) as Hperm by apply rng_shuffle_perm.
  assert (length l = n_buckets * (n / n_buckets)) as Hl.
  { rewrite Hperm, length_seq. rewrite (Nat.div_mod n n_buckets) at 1 by lia. lia. }
  exists out, (slices (n / n_buckets) n_buckets l), st', l, st1.
  rewrite concat_slices by done.
  split_and!; try done.
  - unfold slices. by rewrite length_fmap, length_seq.
  - by apply slices_length.
  - rewrite Hperm. apply NoDup_seq.
  - intros j. rewrite Hperm, elem_of_seq. lia.
Qed.

Lemma static_buckets_partition_witness :
  ∃ out buckets st' shuffled st1,
    aom_moa_helper_traced "AOM" example_scores 3 "static" false (RS_int 42) Lcg.st0
      = (inr (out, buckets), st')
    ∧ shuffle (seq 0 (n_columns example_scores)) (RS_int 42) Lcg.st0
      = (inr shuffled, st1)
    ∧ shuffled ≡ₚ seq 0 (n_columns example_scores)
    ∧ buckets = slices (n_columns example_scores / 3) 3 shuffled
    ∧ length buckets = 3
    ∧ Forall (λ b, length b = n_columns example_scores / 3) buckets
    ∧ concat buckets = shuffled
    ∧ concat buckets ≡ₚ seq 0 (n_columns example_scores)
    ∧ NoDup (concat buckets)
    ∧ ∀ j, j ∈ concat buckets ↔ j < n_columns example_scores.
Proof.
  apply (static_buckets_partition "AOM" example_scores 3 (RS_int 42) Lcg.st0).
  - left. reflexivity.
  - reflexivity.
  - vm_compute. lia.
  - reflexivity.
  - reflexivity.
Defined.

(** ** Static buckets with bootstrap, dynamic buckets *)

Section BootstrapProofs.
Context {F : Type} `{Numeric F} {G : Type} `{RandomLaws G}.

Lemma static_bootstrap_loop_success mode (scores : list (list F)) n nb step rs
    (st : store G) :
  Forall (λ row, length row = n) scores →
  1 ≤ step ≤ n → seedable rs →
  ∃ sb bs st',
    static_bootstrap_loop mode scores n nb step rs
      (np_zeros (length scores) nb) st = (inr (sb, bs), st').
Proof.
  intros Hrect Hstep Hseed. unfold static_bootstrap_loop.
  edestruct (for_each_success
               (λ i '(sb, bs),
                  ind ← sample_without_replacement n step rs;
                  sb' ← lift (fill_bucket mode scores sb nb i ind);
                  mret (sb', bs ++ [ind]))
               (λ s : buckets_state, length s.1 = length scores) nb)
    as ([sb bs] & st' & Hloop & _); [| | |by eauto].
  - intros i [sb bs] st1 Hi Hsb. simpl in Hsb.
    destruct (sample_seedable n step rs st1) as [st2 Hdraw]; [lia | done |].
    pose proof (sample_inr _ _ _ _ _ _ Hdraw) as (_ & Hlen & _ & Hlt).
    destruct (fill_bucket_success mode scores sb nb i
                (rng_sample (generator_of rs st1) n step).1 n)
      as (sb' & Hfill & Hlen'); [done | done | done | | done |].
    { intros Hnil. rewrite Hnil in Hlen. simpl in Hlen. lia. }
    eexists (sb', _), st2. split; [|done].
    unfold mbind, M_bind. rewrite Hdraw. unfold lift. by rewrite Hfill.
  - simpl. lia.
  - apply length_replicate.
Qed.

Lemma static_bootstrap_run mode (scores : list (list F)) nb rs (st : store G) :
  let n := n_columns scores in
  mode = "AOM" ∨ mode = "MOA" →
  check_array scores = inr scores →
  2 ≤ nb ≤ n → n mod nb = 0 → seedable rs →
  ∃ out bs st',
    aom_moa_helper_traced mode scores nb "static" true rs st
    = (inr (out, bs), st').
Proof.
  intros n Hmode Hchk Hnb Hrem Hseed.
  rewrite helper_traced_validated by done. fold n.
  apply check_array_inr in Hchk as (_ & _ & _ & Hrect). fold n in Hrect.
  apply Nat.eqb_eq in Hrem as Hrem'. cbv zeta.
  change (String.eqb "static" "static") with true. rewrite Hrem'. cbn [negb].
  assert (n = nb * (n / nb)) as Hdiv.
  { rewrite (Nat.div_mod n nb) at 1 by lia. lia. }
  destruct (static_bootstrap_loop_success mode scores n nb (n / nb) rs st)
    as (sb & bs & st' & Hloop); [done | nia | done |].
  pose proof (static_bootstrap_loop_inr _ _ _ _ _ _ _ _ _ _ _ Hloop)
    as (Hlen & _ & Hfill).
  destruct (final_reduction_success mode scores bs sb st') as [out Hout].
  { destruct bs; [simpl in Hlen; lia | done]. }
  { by rewrite Hlen. }
  exists out, bs, st'. unfold mbind at 1, M_bind at 1. rewrite Hloop. exact Hout.
Qed.

(** Random sources a new [RandomState] can be built from. *)
Lemma RandomState_success rs (st : store G) :
  seedable rs → rs ≠ RS_instance → ∃ g st', RandomState rs st = (inr g, st').
Proof.
  unfold RandomState, seedable. destruct rs as [|s|]; intros Hseed Hrs.
  - eauto.
  - rewrite Hseed. eauto.
  - done.
Qed.

Lemma dynamic_loop_success mode (scores : list (list F)) n nb rs (st : store G) :
  Forall (λ row, length row = n) scores →
  6 ≤ n → seedable rs → rs ≠ RS_instance →
  ∃ sb bs st',
    dynamic_loop mode scores n nb rs (np_zeros (length scores) nb) st
    = (inr (sb, bs), st').
Proof.
  intros Hrect Hn Hseed Hrs. unfold dynamic_loop.
  edestruct (for_each_success
               (λ i '(sb, bs),
                  g ← RandomState rs;
                  max_estimator_per_bucket ← lift (randint g 2 (Z.of_nat (n / 2)));
                  ind ← sample_without_replacement n
                          (Z.to_nat max_estimator_per_bucket) rs;
                  sb' ← lift (fill_bucket mode scores sb nb i ind);
                  mret (sb', bs ++ [ind]))
               (λ s : buckets_state, length s.1 = length scores) nb)
    as ([sb bs] & st' & Hloop & _); [| | |by eauto].
  - intros i [sb bs] st1 Hi Hsb. simpl in Hsb.
    destruct (RandomState_success rs st1) as (g & st2 & Hg); [done..|].
    assert (3 ≤ n / 2) as Hhalf by (apply Nat.div_le_lower_bound; lia).
    assert (n / 2 ≤ n) as Hle by (apply Nat.Div0.div_le_upper_bound; lia).
    assert (∃ size, randint g 2 (Z.of_nat (n / 2)) = inr size) as [size Hsize].
    { unfold randint. destruct (2 <? Z.of_nat (n / 2))%Z eqn:Hlt; [eauto|].
      apply Z.ltb_ge in Hlt. lia. }
    pose proof (randint_inr _ _ _ _ Hsize) as Hrange.
    destruct (sample_seedable n (Z.to_nat size) rs st2) as [st3 Hdraw];
      [lia | done |].
    pose proof (sample_inr _ _ _ _ _ _ Hdraw) as (_ & Hlen & _ & Hlt).
    destruct (fill_bucket_success mode scores sb nb i
                (rng_sample (generator_of rs st2) n (Z.to_nat size)).1 n)
      as (sb' & Hfill & Hlen'); [done | done | done | | done |].
    { intros Hnil. rewrite Hnil in Hlen. simpl in Hlen. lia. }
    eexists (sb', _), st3. split; [|done].
    unfold mbind, M_bind. rewrite Hg. unfold lift at 1. rewrite Hsize.
    rewrite Hdraw. unfold lift. by rewrite Hfill.
  - simpl. lia.
  - apply length_replicate.
Qed.

Lemma dynamic_run mode (scores : list (list F)) nb boot rs (st : store G) :
  let n := n_columns scores in
  mode = "AOM" ∨ mode = "MOA" →
  check_array scores = inr scores →
  2 ≤ nb ≤ n → 6 ≤ n → seedable rs → rs ≠ RS_instance →
  ∃ out bs st',
    aom_moa_helper_traced mode scores nb "dynamic" boot rs st
    = (inr (out, bs), st').
Proof.
  intros n Hmode Hchk Hnb Hn Hseed Hrs.
  rewrite helper_traced_validated by done. fold n.
  apply check_array_inr in Hchk as (_ & _ & _ & Hrect). fold n in Hrect.
  cbv zeta. change (String.eqb "dynamic" "static") with false.
  change (String.eqb "dynamic" "dynamic") with true. cbv iota.
  destruct (dynamic_loop_success mode scores n nb rs st)
    as (sb & bs & st' & Hloop); [done..|].
  pose proof (dynamic_loop_inr _ _ _ _ _ _ _ _ _ _ Hloop) as (Hlen & _ & Hfill).
  destruct (final_reduction_success mode scores bs sb st') as [out Hout].
  { destruct bs; [simpl in Hlen; lia | done]. }
  { by rewrite Hlen. }
  exists out, bs, st'. unfold mbind at 1, M_bind at 1. rewrite Hloop. exact Hout.
Qed.
End BootstrapProofs.


(** ** C3: the remainder check of the static method *)

(** The claim restricts the failure to [bootstrap_estimators=False]; the check
    sits before the bootstrap test and so fires with bootstrap as well:
    four estimators in three buckets, with bootstrap. *)
Lemma static_bootstrap_remainder_raises :
  let scores := [[1; 2; 3; 4]]%float in
  check_array scores = inr scores
  ∧ n_columns scores mod 3 ≠ 0
  ∧ aom scores 3 "static" true (RS_int 0) Lcg.st0
    = (inl ValueError_remainder, Lcg.st0)
  ∧ moa scores 3 "static" true (RS_int 0) Lcg.st0
    = (inl ValueError_remainder, Lcg.st0).
Proof. vm_compute. split_and!; (reflexivity || discriminate). Qed.

(** C3, amended.  In static mode, once the inputs are validated, the helper
    raises the remainder error exactly when [n_estimators mod n_buckets] is
    not zero, with or without bootstrap.  When the division is even the run
    succeeds, and with bootstrap each of the [n_buckets] buckets is a draw of
    [n_estimators / n_buckets] distinct column positions. *)
Theorem static_remainder_check {F : Type} `{Numeric F} {G : Type} `{RandomLaws G}
    (mode : string) (scores : list (list F)) (n_buckets : nat)
    (bootstrap_estimators : bool) (rs : random_state) (st : store G) :
  mode = "AOM" ∨ mode = "MOA" →
  check_array scores = inr scores →
  2 ≤ n_buckets ≤ n_columns scores →
  seedable rs →
  ((∃ st', _aom_moa_helper mode scores n_buckets "static" bootstrap_estimators rs st
           = (inl ValueError_remainder, st'))
   ↔ n_columns scores mod n_buckets ≠ 0)
  ∧ (n_columns scores mod n_buckets ≠ 0 →
     _aom_moa_helper mode scores n_buckets "static" bootstrap_estimators rs st
     = (inl ValueError_remainder, st))
  ∧ (n_columns scores mod n_buckets = 0 →
     ∃ out buckets st',
       aom_moa_helper_traced mode scores n_buckets "static" bootstrap_estimators rs st
       = (inr (out, buckets), st')
       ∧ length buckets = n_buckets
       ∧ (bootstrap_estimators = true →
          Forall (λ b, drawn_static (n_columns scores)
                         (n_columns scores / n_buckets) rs b
                       ∧ length b = n_columns scores / n_buckets
                       ∧ NoDup b
                       ∧ Forall (λ j, j < n_columns scores) b) buckets)).
Proof.
  intros Hmode Hchk Hnb Hseed.
  assert (n_columns scores mod n_buckets ≠ 0 →
          aom_moa_helper_traced mode scores n_buckets "static" bootstrap_estimators rs st
          = (inl ValueError_remainder, st)) as Huneven.
  { intros Hrem. rewrite helper_traced_validated by done. cbv zeta.
    change (String.eqb "static" "static") with true. cbv iota.
    apply Nat.eqb_neq in Hrem. rewrite Hrem. reflexivity. }
  assert (n_columns scores mod n_buckets = 0 →
          ∃ out buckets st',
            aom_moa_helper_traced mode scores n_buckets "static"
              bootstrap_estimators rs st = (inr (out, buckets), st')) as Heven.
  { intros Hrem. destruct bootstrap_estimators.
    - by apply static_bootstrap_run.
    - destruct (static_shuffle_run mode scores n_buckets rs st) as (out & st' & Hrun);
        eauto. }
  split_and!.
  - split.
    + intros [st1 Hraise] Hrem.
      destruct (Heven Hrem) as (out & buckets & st' & Hrun).
      rewrite (helper_of_traced _ _ _ _ _ _ _ _ _ Hrun) in Hraise. discriminate.
    + intros Hrem. exists st.
      by rewrite (helper_of_traced _ _ _ _ _ _ _ _ _ (Huneven Hrem)).
  - intros Hrem. by rewrite (helper_of_traced _ _ _ _ _ _ _ _ _ (Huneven Hrem)).
  - intros Hrem. destruct (Heven Hrem) as (out & buckets & st' & Hrun).
    exists out, buckets, st'. split; [done|].
    pose proof (helper_traced_inr _ _ _ _ _ _ _ _ _ _ Hrun)
      as (_ & _ & _ & Hlen & _ & Hbranch).
    split; [done|]. intros ->.
    destruct Hbranch as [(_ & _ & [=] & _) | [(_ & _ & _ & Hdrawn) | ([=] & _)]].
    eapply Forall_impl; [exact Hdrawn|]. intros b Hb. simpl.
    split; [done|]. by apply drawn_static_spec in Hb as (_ & ? & ? & ?).
Qed.

Lemma static_remainder_check_witness :
  ((∃ st', _aom_moa_helper "MOA" example_scores 4 "static" true (RS_int 42) Lcg.st0
           = (inl ValueError_remainder, st'))
   ↔ n_columns example_scores mod 4 ≠ 0)
  ∧ (n_columns example_scores mod 4 ≠ 0 →
     _aom_moa_helper "MOA" example_scores 4 "static" true (RS_int 42) Lcg.st0
     = (inl ValueError_remainder, Lcg.st0))
  ∧ (n_columns example_scores mod 4 = 0 →
     ∃ out buckets st',
       aom_moa_helper_traced "MOA" example_scores 4 "static" true (RS_int 42) Lcg.st0
       = (inr (out, buckets), st')
       ∧ length buckets = 4
       ∧ (true = true →
          Forall (λ b, drawn_static (n_columns example_scores)
                         (n_columns example_scores / 4) (RS_int 42) b
                       ∧ length b = n_columns example_scores / 4
                       ∧ NoDup b
                       ∧ Forall (λ j, j < n_columns example_scores) b) buckets)).
Proof.
  apply (static_remainder_check "MOA" example_scores 4 true (RS_int 42) Lcg.st0).
  - right. reflexivity.
  - reflexivity.
  - vm_compute. lia.
  - reflexivity.
Defined.

(** ** C9: an integer seed with static bootstrap *)

Lemma mapR_replicate_bind {A B} (f : A → result B) (x : A) (n : nat) :
  1 ≤ n → mapR f (replicate n x) = (y ← f x; inr (replicate n y)).
Proof.
  intros Hn. destruct (f x) as [e|y] eqn:Hf.
  - destruct n; [lia|]. simpl. unfold mbind, result_bind. by rewrite Hf.
  - by apply mapR_replicate.
Qed.

(** The maximum of equal values is that value. *)
Lemma np_max_replicate {F : Type} `{Numeric F} (x : F) (n : nat) :
  1 ≤ n → np_max (replicate n x) = inr x.
Proof.
  intros Hn. destruct n as [|n]; [lia|]. clear Hn. simpl. f_equal.
  induction n as [|n IH]; [reflexivity|]. simpl.
  replace (fmax x x) with x; [done|].
  unfold fmax. by destruct (fltb x x).
Qed.

Section IntSeedProofs.
Context {F : Type} `{Numeric F} {G : Type} `{RandomLaws G}.

Lemma drawn_static_int n k s ind :
  drawn_static n k (RS_int s) ind → ind = (rng_sample (RandomState_seeded s) n k).1.
Proof.
  intros (st & st' & Hdraw). unfold sample_without_replacement in Hdraw.
  destruct (n <? k); [discriminate|].
  unfold with_random_state in Hdraw.
  destruct (seed_ok s); [|discriminate]. by injection Hdraw as <- _.
Qed.

End IntSeedProofs.

(** C9.  With an integer [random_state], [method='static'] and
    [bootstrap_estimators=True], every bucket is the same draw, the one the
    generator freshly seeded with that integer gives; every column of the
    intermediate matrix then holds the same value, and the result is the
    across-bucket reduction of that one value repeated [n_buckets] times. *)
Theorem static_bootstrap_int_seed_repeats {F : Type} `{Numeric F}
    {G : Type} `{RandomLaws G}
    (mode : string) (scores : list (list F)) (n_buckets : nat) (s : Z)
    (st : store G) :
  mode = "AOM" ∨ mode = "MOA" →
  check_array scores = inr scores →
  2 ≤ n_buckets ≤ n_columns scores →
  n_columns scores mod n_buckets = 0 →
  seed_ok s = true →
  let ind := (rng_sample (RandomState_seeded s) (n_columns scores)
                (n_columns scores / n_buckets)).1 in
  ∃ out st',
    aom_moa_helper_traced mode scores n_buckets "static" true (RS_int s) st
      = (inr (out, replicate n_buckets ind), st')
    ∧ _aom_moa_helper mode scores n_buckets "static" true (RS_int s) st
      = (inr out, st')
    ∧ (∃ scores_buckets,
         fill_from mode scores (np_zeros (length scores) n_buckets) n_buckets 0
           (replicate n_buckets ind) = inr scores_buckets
         ∧ Forall2 (λ row filled, ∃ v, bucket_value mode row ind = inr v
                                       ∧ filled = replicate n_buckets v)
                   scores scores_buckets)
    ∧ (mode = "AOM" →
       mapR (λ row, m ← bucket_max row ind; inr (np_mean (replicate n_buckets m)))
            scores = inr out)
    ∧ (mode = "MOA" → mapR (λ row, bucket_mean row ind) scores = inr out).
Proof.
  intros Hmode Hchk Hnb Hrem Hseed ind.
  destruct (static_bootstrap_run mode scores n_buckets (RS_int s) st)
    as (out & bs & st' & Hrun); [done..|].
  pose proof (helper_traced_inr _ _ _ _ _ _ _ _ _ _ Hrun)
    as (_ & _ & _ & Hlen & (sb & Hfill & _) & Hbranch).
  assert (bs = replicate n_buckets ind) as ->.
  { symmetry. apply replicate_as_Forall. split; [done|].
    destruct Hbranch as [(_ & _ & [=] & _) | [(_ & _ & _ & Hdrawn) | ([=] & _)]].
    eapply Forall_impl; [exact Hdrawn|]. intros b Hb. simpl.
    symmetry. by apply drawn_static_int. }
  exists out, st'. split; [done|].
  split; [by rewrite (helper_of_traced _ _ _ _ _ _ _ _ _ Hrun)|].
  split_and!.
  - exists sb. split; [done|].
    rewrite <- Hlen in Hfill at 1 2. apply fill_from_zeros in Hfill.
    eapply Forall2_impl; [exact Hfill|]. intros row vals Hvals. simpl in Hvals.
    apply mapR_inr in Hvals.
    rewrite mapR_replicate_bind in Hvals by lia.
    apply rbind_inr in Hvals as (v & Hv & [= <-]).
    by exists v.
  - intros ->. apply helper_traced_AOM in Hrun as [_ Hout].
    rewrite <- Hout. apply mapR_ext. intros row _.
    unfold average_of_maximum. rewrite mapR_replicate_bind by lia.
    by destruct (bucket_max row ind).
  - intros ->. apply helper_traced_MOA in Hrun as [_ Hout].
    rewrite <- Hout. apply mapR_ext. intros row _.
    unfold maximum_of_average. rewrite mapR_replicate_bind by lia.
    destruct (bucket_mean row ind) as [e|a]; [done|]. simpl.
    symmetry. apply np_max_replicate. lia.
Qed.

Lemma static_bootstrap_int_seed_repeats_witness :
  let ind := (rng_sample (RandomState_seeded 42) (n_columns example_scores)
                (n_columns example_scores / 3)).1 in
  ∃ out st',
    aom_moa_helper_traced "AOM" example_scores 3 "static" true (RS_int 42) Lcg.st0
      = (inr (out, replicate 3 ind), st')
    ∧ _aom_moa_helper "AOM" example_scores 3 "static" true (RS_int 42) Lcg.st0
      = (inr out, st')
    ∧ (∃ scores_buckets,
         fill_from "AOM" example_scores (np_zeros (length example_scores) 3) 3 0
           (replicate 3 ind) = inr scores_buckets
         ∧ Forall2 (λ row filled, ∃ v, bucket_value "AOM" row ind = inr v
                                       ∧ filled = replicate 3 v)
                   example_scores scores_buckets)
    ∧ ("AOM" = "AOM" →
       mapR (λ row, m ← bucket_max row ind; inr (np_mean (replicate 3 m)))
            example_scores = inr out)
    ∧ ("AOM" = "MOA" → mapR (λ row, bucket_mean row ind) example_scores = inr out).
Proof.
  apply (static_bootstrap_int_seed_repeats "AOM" example_scores 3 42 Lcg.st0).
  - left. reflexivity.
  - reflexivity.
  - vm_compute. lia.
  - reflexivity.
  - reflexivity.
Defined.

(** ** C7: buckets of the dynamic method *)



(** A [RandomState] instance is not a seed: the dynamic method cannot build
    its size generator from it. *)
Lemma dynamic_instance_raises {F : Type} `{Numeric F} {G : Type} `{RandomOps G}
    (mode : string) (scores : list (list F)) (n_buckets : nat)
    (bootstrap_estimators : bool) (st : store G) :
  mode = "AOM" ∨ mode = "MOA" →
  check_array scores = inr scores →
  2 ≤ n_buckets ≤ n_columns scores →
  aom_moa_helper_traced mode scores n_buckets "dynamic" bootstrap_estimators
    RS_instance st = (inl TypeError_seed, st).
Proof.
  intros Hmode Hchk Hnb. rewrite helper_traced_validated by done. cbv zeta.
  change (String.eqb "dynamic" "static") with false.
  change (String.eqb "dynamic" "dynamic") with true. cbv iota.
  unfold dynamic_loop. destruct n_buckets as [|nb]; [lia|]. reflexivity.
Qed.

(** ** C10: the dynamic method needs six estimators *)

Section DynamicSmall.
Context {F : Type} `{Numeric F} {G : Type} `{RandomOps G}.

Lemma randint_inr_lt (g : G) low high size :
  randint g low high = inr size → (low < high)%Z.
Proof.
  unfold randint. destruct (low <? high)%Z eqn:Hlt; [|discriminate].
  intros _. by apply Z.ltb_lt.
Qed.

Lemma dynamic_success_six mode (scores : list (list F)) nb boot rs
    (st st' : store G) out bs :
  aom_moa_helper_traced mode scores nb "dynamic" boot rs st = (inr (out, bs), st') →
  6 ≤ n_columns scores.
Proof.
  intros Hrun.
  pose proof (helper_traced_inr _ _ _ _ _ _ _ _ _ _ Hrun)
    as (_ & _ & Hnb & Hlen & _ & Hbranch).
  assert (Forall (drawn_dynamic (n_columns scores) rs) bs) as Hdrawn.
  { by destruct Hbranch as [([=] & _) | [([=] & _) | (_ & Hdrawn)]]. }
  destruct bs as [|b bs]; [simpl in Hlen; lia|].
  apply Forall_cons in Hdrawn as [(st0 & g & st1 & size & st2 & _ & Hsize & _) _].
  apply randint_inr_lt in Hsize.
  destruct (decide (6 ≤ n_columns scores)) as [|Hsmall]; [done|].
  assert (n_columns scores / 2 < 3) by (apply Nat.Div0.div_lt_upper_bound; lia).
  lia.
Qed.

Lemma dynamic_first_pass_raises mode (scores : list (list F)) nb boot rs
    (st : store G) :
  mode = "AOM" ∨ mode = "MOA" →
  check_array scores = inr scores →
  2 ≤ nb ≤ n_columns scores → n_columns scores ≤ 5 →
  seedable rs → rs ≠ RS_instance →
  ∃ st', aom_moa_helper_traced mode scores nb "dynamic" boot rs st
         = (inl ValueError_low_ge_high, st').
Proof.
  intros Hmode Hchk Hnb Hn Hseed Hrs.
  rewrite helper_traced_validated by done. cbv zeta.
  change (String.eqb "dynamic" "static") with false.
  change (String.eqb "dynamic" "dynamic") with true. cbv iota.
  unfold dynamic_loop. destruct nb as [|nb]; [lia|].
  assert (n_columns scores / 2 < 3) as Hhalf
    by (apply Nat.Div0.div_lt_upper_bound; lia).
  assert (randint (G:=G) = λ g low high,
            if (low <? high)%Z then inr (rng_randint g low high).1
            else inl ValueError_low_ge_high) as Hrand by reflexivity.
  assert ((2 <? Z.of_nat (n_columns scores / 2))%Z = false) as Hlt
    by (apply Z.ltb_ge; lia).
  cbn [seq for_each]. unfold mbind at 1 2, M_bind at 1 2.
  unfold mbind at 1, M_bind at 1.
  destruct rs as [|s|]; [| |done]; unfold RandomState.
  - unfold lift at 1. rewrite Hrand, Hlt. eauto.
  - simpl in Hseed. rewrite Hseed. unfold lift at 1. rewrite Hrand, Hlt. eauto.
Qed.
End DynamicSmall.

(** C10.  With [method='dynamic'] and at most five estimators the helper
    never returns a result: whatever passes validation stops in the first
    pass of the loop, where the size range [[2, n_estimators / 2)] is empty
    and [randint] raises, before any bucket is reduced.  A successful dynamic
    run therefore has at least six estimators, and with six or more (and a
    usable random source) the run does succeed. *)
Theorem dynamic_needs_six_estimators {F : Type} `{Numeric F}
    {G : Type} `{RandomLaws G}
    (mode : string) (scores : list (list F)) (n_buckets : nat)
    (bootstrap_estimators : bool) (rs : random_state) (st : store G) :
  (n_columns scores ≤ 5 →
   ∃ e st', _aom_moa_helper mode scores n_buckets "dynamic" bootstrap_estimators rs st
            = (inl e, st'))
  ∧ (n_columns scores ≤ 5 →
     mode = "AOM" ∨ mode = "MOA" →
     check_array scores = inr scores →
     2 ≤ n_buckets ≤ n_columns scores →
     seedable rs → rs ≠ RS_instance →
     ∃ st', _aom_moa_helper mode scores n_buckets "dynamic" bootstrap_estimators rs st
            = (inl ValueError_low_ge_high, st'))
  ∧ (∀ out st',
       _aom_moa_helper mode scores n_buckets "dynamic" bootstrap_estimators rs st
       = (inr out, st') → 6 ≤ n_columns scores)
  ∧ (6 ≤ n_columns scores →
     mode = "AOM" ∨ mode = "MOA" →
     check_array scores = inr scores →
     2 ≤ n_buckets ≤ n_columns scores →
     seedable rs → rs ≠ RS_instance →
     ∃ out st',
       _aom_moa_helper mode scores n_buckets "dynamic" bootstrap_estimators rs st
       = (inr out, st')).
Proof.
  split_and!.
  - intros Hn.
    destruct (_aom_moa_helper mode scores n_buckets "dynamic" bootstrap_estimators
                rs st) as [[e|out] st'] eqn:Hrun; [by eauto|].
    apply helper_inr in Hrun as [bs Hrun].
    apply dynamic_success_six in Hrun. lia.
  - intros Hn Hmode Hchk Hnb Hseed Hrs.
    destruct (dynamic_first_pass_raises mode scores n_buckets bootstrap_estimators
                rs st) as [st' Hrun]; [done..|].
    exists st'. by rewrite (helper_of_traced _ _ _ _ _ _ _ _ _ Hrun).
  - intros out st' Hrun. apply helper_inr in Hrun as [bs Hrun].
    by apply dynamic_success_six in Hrun.
  - intros Hn Hmode Hchk Hnb Hseed Hrs.
    destruct (dynamic_run mode scores n_buckets bootstrap_estimators rs st)
      as (out & bs & st' & Hrun); [done..|].
    exists out, st'. by rewrite (helper_of_traced _ _ _ _ _ _ _ _ _ Hrun).
Qed.

(** ** C4: the combined score against the extremes of its row *)

(** In binary64 the claim fails: the mean of three equal values need not be
    that value.  Three estimators scoring 0.1 in three buckets average to
    0.10000000000000002 under AOM; six estimators scoring 0.1 in two buckets
    of three give the same bucket mean, and so the same maximum, under MOA. *)
Lemma aom_moa_exceed_row_maximum_binary64 :
  let scores := [[0.1; 0.1; 0.1]]%float in
  let scores6 := [[0.1; 0.1; 0.1; 0.1; 0.1; 0.1]]%float in
  check_array scores = inr scores
  ∧ check_array scores6 = inr scores6
  ∧ aom scores 3 "static" false (RS_int 0) Lcg.st0
    = (inr [0.10000000000000002]%float, Lcg.st0)
  ∧ moa scores6 2 "static" false (RS_int 0) Lcg.st0
    = (inr [0.10000000000000002]%float, Lcg.st0)
  ∧ np_max [0.1; 0.1; 0.1]%float = inr 0.1%float
  ∧ np_max [0.1; 0.1; 0.1; 0.1; 0.1; 0.1]%float = inr 0.1%float
  ∧ fltb 0.1%float 0.10000000000000002%float = true.
Proof. vm_compute. split_and!; reflexivity. Qed.

Section ExactBounds.
Local Open Scope Q_scope.

Lemma fltb_Q_true (x y : Q) : fltb x y = true ↔ x < y.
Proof.
  simpl. rewrite negb_true_iff. split.
  - intros Hle. apply Qnot_le_lt. intros Hyx%Qle_bool_iff. congruence.
  - intros Hlt. destruct (Qle_bool y x) eqn:Hle; [|done].
    apply Qle_bool_iff in Hle. by apply Qlt_not_le in Hlt.
Qed.

Lemma fltb_Q_false (x y : Q) : fltb x y = false ↔ y <= x.
Proof.
  simpl. rewrite negb_false_iff. apply Qle_bool_iff.
Qed.

Lemma foldl_fmax_Q (l : list Q) (acc : Q) :
  let m := foldl fmax acc l in
  (m = acc ∨ m ∈ l) ∧ acc <= m ∧ Forall (λ x, x <= m) l.
Proof.
  revert acc. induction l as [|x l IH]; intros acc; simpl.
  - split_and!; [by left | apply Qle_refl | constructor].
  - destruct (IH (fmax acc x)) as (Hin & Hacc & Hall).
    assert (acc <= fmax acc x ∧ x <= fmax acc x ∧ (fmax acc x = acc ∨ fmax acc x = x))
      as (Ha & Hx & Hcase).
    { unfold fmax. destruct (fltb acc x) eqn:Hlt.
      - apply fltb_Q_true in Hlt.
        split_and!; [by apply Qlt_le_weak | apply Qle_refl | by right].
      - apply fltb_Q_false in Hlt.
        split_and!; [apply Qle_refl | done | by left]. }
    split_and!.
    + destruct Hin as [-> | Hin].
      * destruct Hcase as [-> | ->]; [by left | right; by left].
      * right. by right.
    + by eapply Qle_trans.
    + constructor; [by eapply Qle_trans | done].
Qed.

Lemma foldl_fmin_Q (l : list Q) (acc : Q) :
  let m := foldl fmin acc l in
  (m = acc ∨ m ∈ l) ∧ m <= acc ∧ Forall (λ x, m <= x) l.
Proof.
  revert acc. induction l as [|x l IH]; intros acc; simpl.
  - split_and!; [by left | apply Qle_refl | constructor].
  - destruct (IH (fmin acc x)) as (Hin & Hacc & Hall).
    assert (fmin acc x <= acc ∧ fmin acc x <= x ∧ (fmin acc x = acc ∨ fmin acc x = x))
      as (Ha & Hx & Hcase).
    { unfold fmin. destruct (fltb x acc) eqn:Hlt.
      - apply fltb_Q_true in Hlt.
        split_and!; [by apply Qlt_le_weak | apply Qle_refl | by right].
      - apply fltb_Q_false in Hlt.
        split_and!; [apply Qle_refl | done | by left]. }
    split_and!.
    + destruct Hin as [-> | Hin].
      * destruct Hcase as [-> | ->]; [by left | right; by left].
      * right. by right.
    + by eapply Qle_trans.
    + constructor; [by eapply Qle_trans | done].
Qed.

Lemma np_max_Q (l : list Q) (m : Q) :
  np_max l = inr m → m ∈ l ∧ Forall (λ x, x <= m) l.
Proof.
  destruct l as [|x l]; [discriminate|]. simpl. intros [= <-].
  destruct (foldl_fmax_Q l x) as (Hin & Hacc & Hall). split.
  - destruct Hin as [-> | Hin]; [by left | by right].
  - by constructor.
Qed.

Lemma np_min_Q (l : list Q) (m : Q) :
  np_min l = inr m → m ∈ l ∧ Forall (λ x, m <= x) l.
Proof.
  destruct l as [|x l]; [discriminate|]. simpl. intros [= <-].
  destruct (foldl_fmin_Q l x) as (Hin & Hacc & Hall). split.
  - destruct Hin as [-> | Hin]; [by left | by right].
  - by constructor.
Qed.

Lemma foldl_Qplus_bounds (lo hi : Q) (l : list Q) :
  Forall (λ x, lo <= x <= hi) l →
  ∀ acc, acc + inject_Z (Z.of_nat (length l)) * lo <= foldl Qplus acc l
         ∧ foldl Qplus acc l <= acc + inject_Z (Z.of_nat (length l)) * hi.
Proof.
  induction 1 as [|x l [Hlo Hhi] _ IH]; intros acc.
  - cbn [length foldl]. change (inject_Z (Z.of_nat 0)) with 0. split; lra.
  - destruct (IH (acc + x)) as [IHlo IHhi].
    cbn [length foldl]. rewrite Nat2Z.inj_succ, <- Z.add_1_r, inject_Z_plus.
    change (inject_Z 1) with 1.
    set (n := inject_Z (Z.of_nat (length l))) in *.
    split; lra.
Qed.

(** The exact mean of values between [lo] and [hi] lies between them. *)
Lemma np_mean_Q_bounds (lo hi : Q) (l : list Q) :
  l ≠ [] → Forall (λ x, lo <= x <= hi) l → lo <= np_mean l <= hi.
Proof.
  intros Hne Hall. unfold np_mean, np_sum. simpl.
  destruct (foldl_Qplus_bounds lo hi l Hall 0) as [Hlo Hhi].
  assert (0 < inject_Z (Z.of_nat (length l))) as Hpos.
  { change 0 with (inject_Z 0). rewrite <- Zlt_Qlt. destruct l; [done | simpl; lia]. }
  set (n := inject_Z (Z.of_nat (length l))) in *.
  split.
  - apply Qle_shift_div_l; [done|]. lra.
  - apply Qle_shift_div_r; [done|]. lra.
Qed.

Lemma take_index_elem (row : list Q) ind cols :
  take_index row ind = inr cols → Forall (λ x, x ∈ row) cols.
Proof.
  intros Hcols%mapR_inr. induction Hcols as [|j x ind cols Hj _ IH]; constructor; [|done].
  destruct (row !! j) as [y|] eqn:Hy; [|discriminate]. injection Hj as <-.
  by eapply list_elem_of_lookup_2.
Qed.
End ExactBounds.

Section BucketsNonempty.
Context {F : Type} `{Numeric F} {G : Type} `{RandomLaws G}.

(** Every bucket of a successful run holds at least one column. *)
Lemma buckets_nonempty mode (scores : list (list F)) nb method boot rs
    (st st' : store G) out bs :
  aom_moa_helper_traced mode scores nb method boot rs st = (inr (out, bs), st') →
  bs ≠ [] ∧ Forall (λ b, b ≠ []) bs.
Proof.
  intros Hrun.
  pose proof (helper_traced_inr _ _ _ _ _ _ _ _ _ _ Hrun)
    as (_ & _ & Hnb & Hlen & _ & Hbranch).
  split; [destruct bs; [simpl in Hlen; lia | done]|].
  set (n := n_columns scores) in *.
  destruct Hbranch as [(_ & Hrem & _ & shuffled & st1 & Hshuffle & ->)
                      | [(_ & Hrem & _ & Hdrawn) | (_ & Hdrawn)]].
  - apply shuffle_seq_inr in Hshuffle.
    assert (n = nb * (n / nb)) as Hdiv.
    { rewrite (Nat.div_mod n nb) at 1 by lia. lia. }
    assert (length shuffled = nb * (n / nb)) as Hl.
    { by rewrite Hshuffle, length_seq. }
    eapply Forall_impl; [exact (slices_length _ _ _ Hl)|].
    intros b Hb ->. simpl in Hb. nia.
  - assert (n = nb * (n / nb)) as Hdiv.
    { rewrite (Nat.div_mod n nb) at 1 by lia. lia. }
    eapply Forall_impl; [exact Hdrawn|].
    intros b (_ & Hb & _)%drawn_static_spec ->. simpl in Hb. nia.
  - eapply Forall_impl; [exact Hdrawn|].
    intros b [Hb _]%drawn_dynamic_spec ->. simpl in Hb. lia.
Qed.
End BucketsNonempty.

Section ExactBoundsRows.
Local Open Scope Q_scope.

Lemma row_extremes (row : list Q) (lo hi : Q) :
  np_min row = inr lo → np_max row = inr hi →
  Forall (λ x, lo <= x <= hi) row.
Proof.
  intros [_ Hlo]%np_min_Q [_ Hhi]%np_max_Q.
  apply Forall_forall. intros x Hx. split.
  - by eapply Forall_forall in Hlo.
  - by eapply Forall_forall in Hhi.
Qed.

Lemma take_index_bounds (row : list Q) ind cols (lo hi : Q) :
  Forall (λ x, lo <= x <= hi) row →
  take_index row ind = inr cols →
  Forall (λ x, lo <= x <= hi) cols.
Proof.
  intros Hrow Hcols%take_index_elem.
  eapply Forall_impl; [exact Hcols|]. intros x Hx. simpl in Hx.
  by eapply Forall_forall in Hrow.
Qed.

Lemma average_of_maximum_bounds (bs : list (list nat)) (row : list Q) (lo hi v : Q) :
  bs ≠ [] →
  Forall (λ x, lo <= x <= hi) row →
  average_of_maximum bs row = inr v → lo <= v <= hi.
Proof.
  intros Hne Hrow. unfold average_of_maximum.
  intros (ms & Hms & [= <-])%rbind_inr.
  apply np_mean_Q_bounds.
  - apply mapR_length in Hms. destruct ms; [|done]. by destruct bs.
  - apply mapR_inr in Hms. apply Forall_forall. intros m Hm.
    apply list_elem_of_lookup in Hm as [k Hm].
    destruct (Forall2_lookup_r _ _ _ _ _ Hms Hm) as (b & _ & Hb).
    unfold bucket_max in Hb. apply rbind_inr in Hb as (cols & Hcols & Hmax).
    apply np_max_Q in Hmax as [Hin _].
    eapply take_index_bounds in Hcols; [|exact Hrow].
    by eapply Forall_forall in Hcols.
Qed.

Lemma maximum_of_average_bounds (bs : list (list nat)) (row : list Q) (lo hi v : Q) :
  Forall (λ b, b ≠ []) bs →
  Forall (λ x, lo <= x <= hi) row →
  maximum_of_average bs row = inr v → lo <= v <= hi.
Proof.
  intros Hne Hrow. unfold maximum_of_average.
  intros (avgs & Havgs & Hmax)%rbind_inr.
  apply np_max_Q in Hmax as [Hin _].
  apply mapR_inr in Havgs.
  apply list_elem_of_lookup in Hin as [k Hv].
  destruct (Forall2_lookup_r _ _ _ _ _ Havgs Hv) as (b & Hb & Hmean).
  unfold bucket_mean in Hmean. apply rbind_inr in Hmean as (cols & Hcols & [= <-]).
  apply np_mean_Q_bounds.
  - apply take_index_length in Hcols as Hlen.
    eapply Forall_lookup_1 in Hne; [|exact Hb]. simpl in Hne.
    destruct cols; [|done]. by destruct b.
  - by eapply take_index_bounds.
Qed.
End ExactBoundsRows.

(** C4, amended.  In exact arithmetic the combined score of every sample lies
    between the minimum and the maximum of the sample's row, for [aom] and
    for [moa], whatever the method, the bootstrap flag and the random
    source. *)
Theorem aom_moa_bounded_exact {G : Type} `{RandomLaws G}
    (mode : string) (scores : list (list Q)) (n_buckets : nat) (method : string)
    (bootstrap_estimators : bool) (rs : random_state) (st st' : store G)
    (out : list Q) :
  _aom_moa_helper mode scores n_buckets method bootstrap_estimators rs st
  = (inr out, st') →
  Forall2 (λ row v, ∃ lo hi, np_min row = inr lo ∧ np_max row = inr hi
                             ∧ (lo <= v <= hi)%Q) scores out.
Proof.
  intros [bs Hrun]%helper_inr.
  pose proof (buckets_nonempty _ _ _ _ _ _ _ _ _ _ Hrun) as [Hne Hall].
  pose proof (helper_traced_inr _ _ _ _ _ _ _ _ _ _ Hrun)
    as (Hmode & Hchk & _).
  apply check_array_inr in Hchk as (_ & _ & Hcols & Hrect).
  assert (∀ row, row ∈ scores → ∃ lo hi, np_min row = inr lo ∧ np_max row = inr hi)
    as Hext.
  { intros row Hrow. eapply Forall_forall in Hrect; [|exact Hrow]. simpl in Hrect.
    destruct row; [simpl in Hrect; lia|]. simpl. eauto. }
  assert (∀ f, mapR f scores = inr out →
               (∀ row v lo hi, Forall (λ x, (lo <= x <= hi)%Q) row →
                               f row = inr v → (lo <= v <= hi)%Q) →
               Forall2 (λ row v, ∃ lo hi, np_min row = inr lo ∧ np_max row = inr hi
                                          ∧ (lo <= v <= hi)%Q) scores out) as Hgen.
  { intros f Hout%mapR_inr Hf.
    apply Forall2_same_length_lookup_2; [by eapply Forall2_length|].
    intros r row v Hrow Hv.
    destruct (Hext row) as (lo & hi & Hlo & Hhi); [by eapply list_elem_of_lookup_2|].
    exists lo, hi. do 2 (split; [done|]).
    eapply Hf; [by apply row_extremes|].
    by eapply Forall2_lookup_lr in Hout. }
  destruct Hmode as [-> | ->].
  - apply helper_traced_AOM in Hrun as [_ Hout].
    apply (Hgen _ Hout). intros row v lo hi. by apply average_of_maximum_bounds.
  - apply helper_traced_MOA in Hrun as [_ Hout].
    apply (Hgen _ Hout). intros row v lo hi. by apply maximum_of_average_bounds.
Qed.

Lemma aom_moa_bounded_exact_witness :
  ∃ out st',
    _aom_moa_helper "MOA" example_scores_exact 3 "static" true (RS_int 42) Lcg.st0
    = (inr out, st')
    ∧ Forall2 (λ row v, ∃ lo hi, np_min row = inr lo ∧ np_max row = inr hi
                                 ∧ (lo <= v <= hi)%Q) example_scores_exact out.
Proof.
  eexists _, _. split; [vm_compute; reflexivity|].
  apply (aom_moa_bounded_exact "MOA" example_scores_exact 3 "static" true
           (RS_int 42) Lcg.st0 Lcg.st0).
  vm_compute. reflexivity.
Defined.

Lemma dynamic_needs_six_estimators_witness :
  ∃ st', _aom_moa_helper "AOM" example_scores5 2 "dynamic" false (RS_int 42) Lcg.st0
         = (inl ValueError_low_ge_high, st').
Proof.
  apply (proj1 (proj2 (dynamic_needs_six_estimators "AOM" example_scores5 2 false
                         (RS_int 42) Lcg.st0))).
  - vm_compute. lia.
  - left. reflexivity.
  - reflexivity.
  - vm_compute. lia.
  - reflexivity.
  - discriminate.
Defined.

(** ** C5 and C8: [average] *)

Section AverageProofs.
Context {F : Type} `{Numeric F}.

Lemma shape_row_vector (w : ndarray F) (n : nat) :
  shape w = [1; n] → ∃ row, w = Array2 [row] ∧ length row = n ∧ ravel w = row.
Proof.
  destruct w as [v|rows]; simpl; [discriminate|].
  destruct rows as [|row [|row' rows]]; simpl; try discriminate.
  intros [= <-]. exists row. by rewrite app_nil_r.
Qed.

Lemma average_weighted (scores : list (list F)) (w : ndarray F) :
  check_array scores = inr scores →
  shape w = [1; n_columns scores] →
  average scores (Some w) = inr (weighted_mean (ravel w) <$> scores).
Proof.
  intros Hchk Hshape. unfold average, mbind, result_bind. rewrite Hchk. simpl.
  rewrite bool_decide_eq_true_2 by done. simpl. f_equal.
  unfold multiply_rows. rewrite <- list_fmap_compose. reflexivity.
Qed.

Lemma average_bad_shape (scores : list (list F)) (w : ndarray F) :
  check_array scores = inr scores →
  shape w ≠ [1; n_columns scores] →
  average scores (Some w)
  = inl (ValueError_weights_shape (n_columns scores) (shape w)).
Proof.
  intros Hchk Hshape. unfold average, mbind, result_bind. rewrite Hchk. simpl.
  by rewrite bool_decide_eq_false_2 by done.
Qed.

Lemma average_unweighted (scores : list (list F)) :
  check_array scores = inr scores →
  average scores None = inr (np_mean <$> scores).
Proof. intros Hchk. unfold average, mbind, result_bind. by rewrite Hchk. Qed.
End AverageProofs.

(** *** Exact sums *)

Section ExactSums.
Local Open Scope Q_scope.

Lemma foldl_Qplus_shift (l : list Q) (acc : Q) :
  foldl Qplus acc l == acc + foldl Qplus 0 l.
Proof.
  revert acc. induction l as [|x l IH]; intros acc; simpl; [ring|].
  rewrite (IH (acc + x)), (IH (0 + x)). ring.
Qed.

Lemma np_sum_cons_Q (x : Q) (l : list Q) : np_sum (x :: l) == x + np_sum l.
Proof. unfold np_sum. simpl. rewrite foldl_Qplus_shift. ring. Qed.




End ExactSums.

(** *** Sums and products of [int64] entries *)






(** *** [average] on [float64] arrays is the [float64] case of [average_dtype] *)

Lemma average_dtype_float64 {F : Type} `{Numeric F}
    (scores : list (list F)) (w : option (ndarray F)) :
  average_dtype (Float64_matrix scores) (Float64_weights <$> w) = average scores w.
Proof.
  unfold average_dtype, average, check_array_dtype, mbind, result_bind, rbind.
  destruct (check_array scores) as [e|checked]; [done|].
  destruct w as [w|]; simpl; [|done].
  destruct (negb _); [done|].
  unfold true_divide. simpl. by rewrite <- list_fmap_compose.
Qed.


Section AverageSpec.
Local Open Scope Q_scope.




End AverageSpec.



(** The claim has [average] accept a 1-D weight vector of matching length;
    the shape test wants the 2-D shape [(1, n_estimators)], so a 1-D vector of
    the right length is refused. *)
Lemma average_refuses_1d_weights :
  let scores := [[1; 3]]%float in
  let w := Array1 [1; 3]%float in
  check_array scores = inr scores
  ∧ length (ravel w) = n_columns scores
  ∧ average scores (Some w) = inl (ValueError_weights_shape 2 [2]).
Proof. vm_compute. split_and!; reflexivity. Qed.

(** C8, amended.  [average] accepts weights exactly when their shape is the
    2-D shape [(1, n_estimators)]; for any other shape, a 1-D vector of
    length [n_estimators] included, it raises the error that names the
    expected column count and the received shape. *)
Theorem average_weights_shape_check {F : Type} `{Numeric F}
    (scores : list (list F)) (w : ndarray F) :
  check_array scores = inr scores →
  (average scores (Some w)
   = inl (ValueError_weights_shape (n_columns scores) (shape w))
   ↔ shape w ≠ [1; n_columns scores])
  ∧ ((∃ out, average scores (Some w) = inr out) ↔ shape w = [1; n_columns scores])
  ∧ (∀ v, w = Array1 v →
       average scores (Some w)
       = inl (ValueError_weights_shape (n_columns scores) [length v])).
Proof.
  intros Hchk. split_and!.
  - split.
    + intros Herr Hshape. by rewrite average_weighted in Herr.
    + by apply average_bad_shape.
  - split.
    + intros [out Hout]. destruct (decide (shape w = [1; n_columns scores])); [done|].
      by rewrite average_bad_shape in Hout.
    + intros Hshape. eexists. by apply average_weighted.
  - intros v ->. by apply (average_bad_shape scores (Array1 v)).
Qed.

Lemma average_weights_shape_check_witness :
  (average [[1; 3]]%float (Some (Array2 [[1; 3]; [2; 4]]%float))
   = inl (ValueError_weights_shape (n_columns [[1; 3]]%float)
            (shape (Array2 [[1; 3]; [2; 4]]%float)))
   ↔ shape (Array2 [[1; 3]; [2; 4]]%float) ≠ [1; n_columns [[1; 3]]%float])
  ∧ ((∃ out, average [[1; 3]]%float (Some (Array2 [[1; 3]; [2; 4]]%float)) = inr out)
     ↔ shape (Array2 [[1; 3]; [2; 4]]%float) = [1; n_columns [[1; 3]]%float])
  ∧ (∀ v, Array2 [[1; 3]; [2; 4]]%float = Array1 v →
       average [[1; 3]]%float (Some (Array2 [[1; 3]; [2; 4]]%float))
       = inl (ValueError_weights_shape (n_columns [[1; 3]]%float) [length v])).
Proof.
  apply (average_weights_shape_check [[1; 3]]%float (Array2 [[1; 3]; [2; 4]]%float)).
  reflexivity.
Defined.

(** ** C6: [majority_vote] *)

(** The claim gives the vote to a label that maximises the total weight of its
    voters, the smallest on ties.  Three ways the code departs from it.
    When no voted label has a positive total the loop of [weighted_mode]
    never replaces its initial zero: with zero weights the votes [[1, 1]] and
    [[-1, -1]] both give 0, which nobody voted for and which, for [-1], is
    not the smallest label either.  The totals are binary64 sums: under the
    weights [[1e16, 1, 1e16]] the votes [[5, 5, 3]] give 3, because
    [1e16 + 1] rounds to [1e16] and the tie goes to 3, although the voters
    of 5 weigh more.  And the result is a [float64] array: the votes
    [[2^53 + 1, 2^53 + 1]] give [2^53]. *)
Lemma majority_vote_departs_from_heaviest_label :
  majority_vote [[1; 1]]%Z 2 (Some (Array2 [[0; 0]]%float)) = inr [0%float]
  ∧ majority_vote [[-1; -1]]%Z 2 (Some (Array2 [[0; 0]]%float)) = inr [0%float]
  ∧ (0%Z ∉ [1; 1]%Z)
  ∧ (0%Z ∉ [-1; -1]%Z)
  ∧ vote_weight [-1; -1]%Z [0; 0]%float (-1) = vote_weight [-1; -1]%Z [0; 0]%float 0
  ∧ majority_vote [[5; 5; 3]]%Z 2 (Some (Array2 [[1e16; 1; 1e16]]%float))
    = inr [3%float]
  ∧ (vote_weight [5; 5; 3]%Z [10000000000000000; 1; 10000000000000000]%Q 3
     < vote_weight [5; 5; 3]%Z [10000000000000000; 1; 10000000000000000]%Q 5)%Q
  ∧ majority_vote [[9007199254740993; 9007199254740993]]%Z 2 (@None (ndarray float))
    = inr [9007199254740992%float]
  ∧ float_of_Z 9007199254740993 = 9007199254740992%float.
Proof.
  split_and!; try (vm_compute; reflexivity).
  - apply not_elem_of_cons; split; [done|].
    apply not_elem_of_cons; split; [done|]. apply not_elem_of_nil.
  - apply not_elem_of_cons; split; [done|].
    apply not_elem_of_cons; split; [done|]. apply not_elem_of_nil.
Qed.

(** A NaN among the weights stays in the running total ([np.maximum]
    hands it on) and no later total compares greater: the vote is the
    initial zero. *)
Lemma majority_vote_nan_weight :
  majority_vote [[1; 2; 3]]%Z 2 (Some (Array2 [[nan; 5; 7]]%float))
  = inr [0%float].
Proof. vm_compute. reflexivity. Qed.

Lemma elem_of_insert_unique (x y : Z) (l : list Z) :
  y ∈ insert_unique x l ↔ y = x ∨ y ∈ l.
Proof.
  induction l as [|z l IH]; simpl.
  - rewrite list_elem_of_singleton, elem_of_nil. tauto.
  - destruct (x <? z)%Z; [rewrite (elem_of_cons (z :: l)); tauto|].
    destruct (x =? z)%Z eqn:Heq.
    + apply Z.eqb_eq in Heq as ->. rewrite elem_of_cons. tauto.
    + rewrite !elem_of_cons, IH. tauto.
Qed.

Lemma insert_unique_sorted (x : Z) (l : list Z) :
  StronglySorted Z.lt l → StronglySorted Z.lt (insert_unique x l).
Proof.
  induction 1 as [|z l Hl IH Hz]; simpl.
  - repeat constructor.
  - destruct (x <? z)%Z eqn:Hlt.
    + apply Z.ltb_lt in Hlt. constructor; [by constructor|].
      constructor; [done|]. eapply Forall_impl; [exact Hz|]. intros; simpl in *; lia.
    + destruct (x =? z)%Z eqn:Heq; [by constructor|].
      apply Z.ltb_ge in Hlt. apply Z.eqb_neq in Heq.
      constructor; [done|]. apply Forall_forall.
      intros y [-> | Hy]%elem_of_insert_unique; [lia|].
      by eapply Forall_forall in Hz.
Qed.

Lemma elem_of_np_unique (x : Z) (a : list Z) : x ∈ np_unique a ↔ x ∈ a.
Proof.
  unfold np_unique. induction a as [|y a IH]; simpl; [done|].
  rewrite elem_of_insert_unique, elem_of_cons, IH. tauto.
Qed.

Lemma np_unique_sorted (a : list Z) : StronglySorted Z.lt (np_unique a).
Proof.
  unfold np_unique. induction a as [|y a IH]; simpl; [constructor|].
  by apply insert_unique_sorted.
Qed.

Section VoteProofs.
Context {F : Type} `{WeightLaws F} `{!NoNaN F}.

Lemma fltb_asym (x y : F) : fltb x y = true → fltb y x = false.
Proof.
  intros Hxy. destruct (fltb y x) eqn:Hyx; [|done].
  pose proof (fltb_trans _ _ _ Hxy Hyx) as Hxx. by rewrite fltb_irrefl in Hxx.
Qed.

(** [z <= y] and [y <= x] give [z <= x]. *)
Lemma fleb_trans (x y z : F) :
  fltb x y = false → fltb y z = false → fltb x z = false.
Proof.
  intros Hxy Hyz. destruct (fltb x z) eqn:Hxz; [|done].
  destruct (fltb_negtrans x y z Hxz); congruence.
Qed.

Lemma fltb_le_trans (x y z : F) :
  fltb x y = true → fltb z y = false → fltb x z = true.
Proof. intros Hxy Hzy. destruct (fltb_negtrans x z y Hxy); congruence. Qed.

Lemma fleb_lt_trans (x y z : F) :
  fltb y x = false → fltb y z = true → fltb x z = true.
Proof. intros Hyx Hyz. destruct (fltb_negtrans y x z Hyz); congruence. Qed.

Lemma template_sum_from (a : list Z) (w : list F) (label : Z) :
  ∀ acc, foldl fadd acc (template a w label)
         = foldl fadd acc ((filter (λ p, p.1 = label) (zip a w)).*2).
Proof.
  revert w. induction a as [|x a IH]; intros [|wx w] acc; try reflexivity.
  cbn [template zip_with zip foldl]. rewrite filter_cons. cbn [fst].
  destruct (Z.eqb_spec x label) as [->|Hne].
  - rewrite decide_True by done. cbn [fmap list_fmap snd foldl]. apply IH.
  - rewrite decide_False by done. rewrite fadd_zero_r. apply IH.
Qed.

(** The total of the template is the sum of the weights of the voters. *)
Lemma template_sum (a : list Z) (w : list F) (label : Z) :
  np_sum (template a w label) = vote_weight a w label.
Proof. apply template_sum_from. Qed.

(** Without NaNs [np.maximum] is the greater of the two. *)
Lemma np_maximum_exact (x y : F) : np_maximum x y = fmax x y.
Proof. unfold np_maximum, fmax. by rewrite !fisnan_never. Qed.

Lemma weighted_mode_step_inv (a : list Z) (w : list F) seen state score :
  (∀ s, s ∈ seen → (s < score)%Z) →
  vote_inv a w seen state →
  vote_inv a w (seen ++ [score]) (weighted_mode_step a w state score).
Proof.
  destruct state as [best cnt]. unfold vote_inv, weighted_mode_step. simpl.
  rewrite np_maximum_exact.
  intros Hseen (Hmax & Hnonneg & Hcase).
  set (c := np_sum (template a w score)) in *.
  assert (∀ s, s ∈ seen ++ [score] ↔ s ∈ seen ∨ s = score) as Hin.
  { intros s. rewrite elem_of_app, list_elem_of_singleton. tauto. }
  destruct (fltb cnt c) eqn:Hupd.
  - (* the candidate replaces the winner *)
    assert (fmax c cnt = c) as ->.
    { unfold fmax. by rewrite (fltb_asym _ _ Hupd). }
    split_and!.
    + intros s [Hs | ->]%Hin; [|apply fltb_irrefl].
      destruct (fltb c (np_sum (template a w s))) eqn:Hlt; [|done].
      pose proof (fltb_trans _ _ _ Hupd Hlt) as Hcontra.
      by rewrite (Hmax s Hs) in Hcontra.
    + eapply fleb_trans; [exact (fltb_asym _ _ Hupd) | exact Hnonneg].
    + left. exists score. fold c. split_and!.
      * done.
      * apply Hin. by right.
      * eapply fleb_lt_trans; [exact Hnonneg | exact Hupd].
      * apply fltb_irrefl.
      * apply fltb_irrefl.
      * intros s [Hs | ->]%Hin Hlt; [|lia].
        eapply fleb_lt_trans; [exact (Hmax s Hs) | exact Hupd].
  - (* the winner stays *)
    assert (fltb (fmax c cnt) cnt = false
            ∧ fltb cnt (fmax c cnt) = false) as [Hle Hge].
    { unfold fmax. destruct (fltb c cnt) eqn:Hlt.
      - by rewrite fltb_irrefl.
      - done. }
    split_and!.
    + intros s [Hs | ->]%Hin.
      * eapply fleb_trans; [exact Hle | exact (Hmax s Hs)].
      * eapply fleb_trans; [exact Hle | exact Hupd].
    + eapply fleb_trans; [exact Hle | exact Hnonneg].
    + destruct Hcase as [(label & -> & Hbest & Hpos & Hb1 & Hb2 & Hsmaller)
                        | (-> & Hz1 & Hnone)]; [left; exists label | right].
      * split_and!.
        -- done.
        -- apply Hin. by left.
        -- done.
        -- eapply fleb_trans; [exact Hle | exact Hb1].
        -- eapply fleb_trans; [exact Hb2 | exact Hge].
        -- intros s [Hs | ->]%Hin Hlt; [by apply Hsmaller|].
           specialize (Hseen _ Hbest). lia.
      * split_and!; [done | |].
        -- eapply fleb_trans; [exact Hz1 | exact Hge].
        -- intros s [Hs | ->]%Hin; [by apply Hnone|].
           eapply fleb_trans; [exact Hz1 | exact Hupd].
Qed.

Lemma weighted_mode_inv (a : list Z) (w : list F) (seen : list Z) :
  StronglySorted Z.lt seen →
  vote_inv a w seen (foldl (weighted_mode_step a w) (fzero, fzero) seen).
Proof.
  induction seen as [|score seen IH] using rev_ind; intros Hsorted.
  - unfold vote_inv. simpl.
    split; [intros s Hs; by apply not_elem_of_nil in Hs|].
    split; [apply fltb_irrefl|].
    right. split_and!; [done | apply fltb_irrefl |].
    intros s Hs. by apply not_elem_of_nil in Hs.
  - rewrite foldl_snoc. apply StronglySorted_app in Hsorted as (Hlt & Hseen & _).
    apply weighted_mode_step_inv; [|by apply IH].
    intros s Hs. apply Hlt; [done|]. by apply list_elem_of_singleton.
Qed.

(** What [weighted_mode] returns, in exact arithmetic. *)
Lemma weighted_mode_spec (a : list Z) (w : list F) :
  let winner := (weighted_mode a w).1 in
  ((∃ label, label ∈ a ∧ fltb fzero (vote_weight a w label) = true) →
   ∃ best,
     winner = fint best
     ∧ best ∈ a
     ∧ (∀ label, label ∈ a →
          fltb (vote_weight a w best) (vote_weight a w label) = false)
     ∧ (∀ label, label ∈ a → (label < best)%Z →
          fltb (vote_weight a w label) (vote_weight a w best) = true))
  ∧ ((∀ label, label ∈ a → fltb fzero (vote_weight a w label) = false) →
     winner = fzero).
Proof.
  intros winner. unfold winner, weighted_mode.
  pose proof (weighted_mode_inv a w (np_unique a) (np_unique_sorted a)) as Hinv.
  destruct (foldl (weighted_mode_step a w) (fzero, fzero) (np_unique a))
    as [best cnt].
  unfold vote_inv in Hinv. simpl in Hinv. simpl.
  setoid_rewrite template_sum in Hinv. setoid_rewrite elem_of_np_unique in Hinv.
  destruct Hinv as (Hmax & _ & Hcase). split.
  - intros (label & Hlabel & Hpos).
    destruct Hcase as [(b & -> & Hbest & _ & Hb1 & Hb2 & Hsmaller)
                      | (-> & Hz1 & Hnone)].
    + exists b. split_and!; [done | done | | done].
      intros s Hs. eapply fleb_trans; [exact Hb2 | exact (Hmax s Hs)].
    + rewrite (Hnone label Hlabel) in Hpos. discriminate.
  - intros Hnone.
    destruct Hcase as [(b & _ & Hbest & Hpos & _) | (-> & _)]; [|done].
    rewrite (Hnone b Hbest) in Hpos. discriminate.
Qed.
End VoteProofs.

Section UniformWeights.
Context {F : Type} `{WeightLaws F}.

Lemma foldl_fadd_ones_pos (l : list F) :
  Forall (λ x, x = fone) l → l ≠ [] →
  ∀ acc, fltb acc fzero = false → fltb fzero (foldl fadd acc l) = true.
Proof.
  induction 1 as [|x l -> _ IH]; intros Hne acc Hacc; [done|].
  simpl. destruct l as [|y l].
  - simpl. by apply fadd_one_pos.
  - apply IH; [done|]. apply fltb_asym. by apply fadd_one_pos.
Qed.

(** Under uniform weights every voted label has a positive total. *)
Lemma uniform_vote_positive (row : list Z) (n : nat) (label : Z) :
  label ∈ row → length row ≤ n →
  fltb fzero (vote_weight row (replicate n fone) label) = true.
Proof.
  intros Hlabel Hn. unfold vote_weight, np_sum.
  apply foldl_fadd_ones_pos; [| |apply fltb_irrefl].
  - apply Forall_forall. intros x ([l x'] & -> & Hx)%list_elem_of_fmap.
    apply list_elem_of_filter in Hx as [_ Hx].
    apply elem_of_zip_r in Hx. by apply elem_of_replicate_inv in Hx.
  - apply list_elem_of_lookup_1 in Hlabel as [i Hi].
    assert ((label, fone) ∈ filter (λ p : Z * F, p.1 = label)
                               (zip row (replicate n fone))) as Hin.
    { apply list_elem_of_filter. split; [done|].
      apply (list_elem_of_lookup_2 _ i).
      apply lookup_zip_with_Some. exists label, fone.
      split_and!; [done | done |].
      apply lookup_replicate_2. apply lookup_lt_Some in Hi. lia. }
    intros Hnil. apply fmap_nil_inv in Hnil. rewrite Hnil in Hin.
    by apply elem_of_nil in Hin.
Qed.

Lemma check_array_labels_inr (scores scores' : list (list Z)) :
  check_array_labels scores = inr scores' →
  scores' = scores
  ∧ 0 < length (hd [] scores)
  ∧ Forall (λ row, length row = length (hd [] scores)) scores.
Proof.
  unfold check_array_labels. destruct scores as [|r rs]; [discriminate|].
  destruct (_ && _) eqn:Hchk; [|discriminate]. intros [= <-].
  apply andb_prop in Hchk as [Hr%Nat.ltb_lt Hrs]. split; [done|]. simpl.
  split; [done|]. constructor; [done|]. apply Forall_forall. intros r' Hr'.
  rewrite forallb_forall in Hrs. apply Nat.eqb_eq, Hrs.
  by apply list_elem_of_In.
Qed.

(** The weights [majority_vote] hands to [weighted_mode]. *)
Lemma majority_vote_inr (scores : list (list Z)) n_classes
    (weights : option (ndarray F)) out :
  majority_vote scores n_classes weights = inr out →
  ∃ w, (weights = None → w = replicate (length (hd [] scores)) fone)
       ∧ (∀ rows, weights = Some (Array2 rows) → rows = [w])
       ∧ (∀ v, weights ≠ Some (Array1 v))
       ∧ 0 < length (hd [] scores)
       ∧ Forall (λ row, length row = length (hd [] scores)) scores
       ∧ out = (λ row, (weighted_mode row w).1) <$> scores.
Proof.
  unfold majority_vote.
  intros (scores' & Hchk & Hrest)%rbind_inr.
  pose proof Hchk as Hne. unfold check_array_labels in Hne.
  apply check_array_labels_inr in Hchk as (-> & Hpos & Hrect).
  apply rbind_inr in Hrest as (ws & Hws & Hout).
  destruct scores as [|row0 scores]; [discriminate|]. clear Hne.
  assert (∃ w, ws = [w]) as [w ->].
  { simpl in Hout. destruct ws as [|w [|w' ws]]; try discriminate. by exists w. }
  exists w. split_and!.
  - intros ->. by injection Hws as <-.
  - intros rows ->. destruct (negb _); [discriminate|]. by injection Hws as ->.
  - intros v ->. discriminate.
  - done.
  - done.
  - apply mapR_inr in Hout. symmetry.
    apply list_eq_Forall2, Forall2_fmap_l.
    eapply Forall2_impl; [exact Hout|]. intros row winner Hw. simpl in Hw.
    by injection Hw as <-.
Qed.
End UniformWeights.

(** Exact rationals satisfy the laws asked of the weights. *)
#[global] Instance Q_weight_laws : WeightLaws Q.
Proof.
  split.
  - intros x. apply fltb_Q_false, Qle_refl.
  - intros x y z Hxy%fltb_Q_true Hyz%fltb_Q_true. apply fltb_Q_true.
    by eapply Qlt_trans.
  - intros x y z Hxz%fltb_Q_true.
    destruct (Qlt_le_dec x y) as [Hxy|Hyx]; [left; by apply fltb_Q_true|].
    right. apply fltb_Q_true. by eapply Qle_lt_trans.
  - intros [n d]. simpl. unfold Qplus. simpl. f_equal; lia.
  - intros x Hx%fltb_Q_false. apply fltb_Q_true. simpl in *. lra.
Qed.

#[global] Instance Q_no_nan : NoNaN Q.
Proof. done. Qed.

(** C6, amended.  [majority_vote] gives every sample the result of
    [weighted_mode] on its row, under the given weights or, by default, under
    uniform weights, as a [float64] value.  In exact arithmetic: whenever
    some voted label of the row has a positive total weight (always so under
    the default weights) the result is the conversion of a voted label whose
    total no other voted label exceeds, and every smaller voted label has a
    strictly smaller total: ties go to the smallest label.  When no voted
    label has a positive total the result is 0.  For the votes
    [[0, 0, 1], [1, 1, 0]] under uniform weights the binary64 result is
    [0, 1]. *)
Theorem majority_vote_weighted_mode {F : Type} `{WeightLaws F} `{!NoNaN F}
    (scores : list (list Z)) (n_classes : nat) (weights : option (ndarray F))
    (out : list F) :
  majority_vote scores n_classes weights = inr out →
  (∃ w,
     (weights = None → w = replicate (length (hd [] scores)) fone)
     ∧ (∀ rows, weights = Some (Array2 rows) → rows = [w])
     ∧ Forall2
         (λ row winner,
            let maximal :=
              ∃ best,
                winner = fint best
                ∧ best ∈ row
                ∧ (∀ label, label ∈ row →
                     fltb (vote_weight row w best) (vote_weight row w label) = false)
                ∧ (∀ label, label ∈ row → (label < best)%Z →
                     fltb (vote_weight row w label) (vote_weight row w best) = true) in
            winner = (weighted_mode row w).1
            ∧ ((∃ label, label ∈ row ∧ fltb fzero (vote_weight row w label) = true) →
               maximal)
            ∧ ((∀ label, label ∈ row → fltb fzero (vote_weight row w label) = false) →
               winner = fzero)
            ∧ (weights = None → maximal))
         scores out)
  ∧ majority_vote [[0; 0; 1]; [1; 1; 0]]%Z 2 (@None (ndarray float))
    = inr [0; 1]%float.
Proof.
  intros Hrun. split; [|vm_compute; reflexivity].
  apply majority_vote_inr in Hrun as (w & Hnone & Hsome & _ & Hn & Hrect & ->).
  exists w. split; [done|]. split; [done|].
  apply Forall2_fmap_r, Forall_Forall2_diag, Forall_forall.
  intros row Hrow. cbv zeta.
  destruct (weighted_mode_spec row w) as [Hpos Hzero].
  split; [done|]. split; [done|]. split; [done|].
  intros Hw. apply Hpos. rewrite (Hnone Hw).
  eapply Forall_forall in Hrect; [|exact Hrow]. simpl in Hrect.
  assert (∃ label, label ∈ row) as [label Hlabel].
  { destruct row as [|label row]; [simpl in Hrect; lia|]. exists label. by left. }
  exists label. split; [done|]. apply uniform_vote_positive; [done | lia].
Qed.

Lemma majority_vote_weighted_mode_witness :
  let scores := [[0; 0; 1]; [1; 1; 0]]%Z in
  let weights := Some (Array2 [[1; 2; 3]]%Q) in
  let out := [0; 0]%Q in
  (∃ w,
     (weights = None → w = replicate (length (hd [] scores)) fone)
     ∧ (∀ rows, weights = Some (Array2 rows) → rows = [w])
     ∧ Forall2
         (λ row winner,
            let maximal :=
              ∃ best,
                winner = fint best
                ∧ best ∈ row
                ∧ (∀ label, label ∈ row →
                     fltb (vote_weight row w best) (vote_weight row w label) = false)
                ∧ (∀ label, label ∈ row → (label < best)%Z →
                     fltb (vote_weight row w label) (vote_weight row w best) = true) in
            winner = (weighted_mode row w).1
            ∧ ((∃ label, label ∈ row ∧ fltb fzero (vote_weight row w label) = true) →
               maximal)
            ∧ ((∀ label, label ∈ row → fltb fzero (vote_weight row w label) = false) →
               winner = fzero)
            ∧ (weights = None → maximal))
         scores out)
  ∧ majority_vote [[0; 0; 1]; [1; 1; 0]]%Z 2 (@None (ndarray float))
    = inr [0; 1]%float.
Proof.
  apply (majority_vote_weighted_mode [[0; 0; 1]; [1; 1; 0]]%Z 2
           (Some (Array2 [[1; 2; 3]]%Q)) [0; 0]%Q).
  vm_compute. reflexivity.
Defined.

(** * Further properties of the module *)

(** ** [maximization] *)

Section MaximumProofs.
Context {F : Type} `{WeightLaws F}.

Lemma fmax_upper (a b : F) :
  fltb (fmax a b) a = false ∧ fltb (fmax a b) b = false
  ∧ (fmax a b = a ∨ fmax a b = b).
Proof.
  unfold fmax. destruct (fltb a b) eqn:Hlt.
  - split_and!; [by apply fltb_asym | apply fltb_irrefl | by right].
  - split_and!; [apply fltb_irrefl | done | by left].
Qed.

Lemma foldl_fmax_spec (l : list F) (acc : F) :
  let m := foldl fmax acc l in
  (m = acc ∨ m ∈ l) ∧ fltb m acc = false ∧ Forall (λ x, fltb m x = false) l.
Proof.
  revert acc. induction l as [|x l IH]; intros acc; simpl.
  - split_and!; [by left | apply fltb_irrefl | constructor].
  - destruct (IH (fmax acc x)) as (Hin & Hacc & Hall).
    destruct (fmax_upper acc x) as (Ha & Hx & Hcase).
    split_and!.
    + destruct Hin as [-> | Hin].
      * destruct Hcase as [-> | ->]; [by left | right; by left].
      * right. by right.
    + by eapply fleb_trans.
    + constructor; [by eapply fleb_trans | done].
Qed.

Lemma np_max_spec (l : list F) (m : F) :
  np_max l = inr m → m ∈ l ∧ Forall (λ x, fltb m x = false) l.
Proof.
  destruct l as [|x l]; [discriminate|]. simpl. intros [= <-].
  destruct (foldl_fmax_spec l x) as (Hin & Hacc & Hall). split.
  - destruct Hin as [-> | Hin]; [by left | by right].
  - by constructor.
Qed.
End MaximumProofs.

(** X1.  On a valid matrix [maximization] returns one value per sample; the
    value is an entry of the sample's row and no entry of the row is greater.
    An invalid matrix is refused with the error of [check_array]. *)
Theorem maximization_row_maximum {F : Type} `{WeightLaws F}
    (scores : list (list F)) :
  (check_array scores = inr scores →
   ∃ out, maximization scores = inr out
          ∧ Forall2 (λ row m, m ∈ row ∧ Forall (λ x, fltb m x = false) row)
                    scores out)
  ∧ (∀ e, check_array scores = inl e → maximization scores = inl e).
Proof.
  split.
  - intros Hchk. unfold maximization, mbind, result_bind. rewrite Hchk. simpl.
    apply check_array_inr in Hchk as (_ & _ & Hcols & Hrect).
    destruct (mapR_success np_max scores) as [out Hout].
    { eapply Forall_impl; [exact Hrect|]. intros row Hrow. simpl in Hrow.
      apply np_max_success. intros ->. simpl in Hrow. lia. }
    exists out. split; [done|]. apply mapR_inr in Hout.
    eapply Forall2_impl; [exact Hout|]. intros row m. apply np_max_spec.
  - intros e Hchk. unfold maximization, mbind, result_bind. by rewrite Hchk.
Qed.

Lemma maximization_row_maximum_witness :
  ∃ out, maximization example_scores_exact = inr out
         ∧ Forall2 (λ row m, m ∈ row ∧ Forall (λ x, fltb m x = false) row)
                   example_scores_exact out.
Proof.
  apply (proj1 (maximization_row_maximum example_scores_exact)). reflexivity.
Defined.

(** ** Validation in the helper *)

(** X2.  The helper validates in a fixed order and raises before it draws
    anything: an unknown mode raises [NotImplementedError] naming the mode,
    whatever the other arguments; then an invalid matrix raises the error of
    [check_array]; then a bucket count outside [[2, n_estimators]] raises the
    range error; then an unknown method raises [NotImplementedError] naming
    the method.  In each case the generators are left as they were. *)
Theorem helper_validation_order {F : Type} `{Numeric F} {G : Type} `{RandomOps G}
    (mode : string) (scores : list (list F)) (n_buckets : nat) (method : string)
    (bootstrap_estimators : bool) (rs : random_state) (st : store G) :
  let run := _aom_moa_helper mode scores n_buckets method bootstrap_estimators rs st in
  (mode ≠ "AOM" → mode ≠ "MOA" → run = (inl (NotImplementedError mode), st))
  ∧ (mode = "AOM" ∨ mode = "MOA" →
     ∀ e, check_array scores = inl e → run = (inl e, st))
  ∧ (mode = "AOM" ∨ mode = "MOA" →
     check_array scores = inr scores →
     ¬ (2 ≤ n_buckets ≤ n_columns scores) →
     run = (inl ValueError_check_parameter, st))
  ∧ (mode = "AOM" ∨ mode = "MOA" →
     check_array scores = inr scores →
     2 ≤ n_buckets ≤ n_columns scores →
     method ≠ "static" → method ≠ "dynamic" →
     run = (inl (NotImplementedError method), st)).
Proof.
  intros run. unfold run.
  assert (∀ r, aom_moa_helper_traced mode scores n_buckets method
                 bootstrap_estimators rs st = (inl r, st) →
               _aom_moa_helper mode scores n_buckets method bootstrap_estimators rs st
               = (inl r, st)) as Hlift.
  { intros r Hr. by rewrite (helper_of_traced _ _ _ _ _ _ _ _ _ Hr). }
  split_and!.
  - intros H1%String.eqb_neq H2%String.eqb_neq. apply Hlift.
    unfold aom_moa_helper_traced. by rewrite H1, H2.
  - intros Hmode e Hchk. apply Hlift. unfold aom_moa_helper_traced.
    assert (negb (String.eqb mode "AOM") && negb (String.eqb mode "MOA") = false) as ->.
    { by destruct Hmode as [-> | ->]. }
    unfold mbind at 1, M_bind at 1, lift at 1. by rewrite Hchk.
  - intros Hmode Hchk Hnb. apply Hlift. unfold aom_moa_helper_traced.
    assert (negb (String.eqb mode "AOM") && negb (String.eqb mode "MOA") = false) as ->.
    { by destruct Hmode as [-> | ->]. }
    unfold mbind at 1, M_bind at 1, lift at 1. rewrite Hchk.
    unfold mbind at 1, M_bind at 1, lift at 1. unfold check_parameter.
    destruct ((2 <=? n_buckets) && (n_buckets <=? n_columns scores)) eqn:Hpar; [|done].
    apply andb_prop in Hpar as [?%Nat.leb_le ?%Nat.leb_le]. lia.
  - intros Hmode Hchk Hnb H1%String.eqb_neq H2%String.eqb_neq. apply Hlift.
    rewrite helper_traced_validated by done. cbv zeta. by rewrite H1, H2.
Qed.

Lemma helper_validation_order_witness :
  _aom_moa_helper "MAX" example_scores 3 "static" false RS_None Lcg.st0
  = (inl (NotImplementedError "MAX"), Lcg.st0)
  ∧ _aom_moa_helper "AOM" example_scores 7 "static" false RS_None Lcg.st0
    = (inl ValueError_check_parameter, Lcg.st0)
  ∧ _aom_moa_helper "AOM" example_scores 3 "random" false RS_None Lcg.st0
    = (inl (NotImplementedError "random"), Lcg.st0).
Proof.
  split_and!.
  - apply (proj1 (helper_validation_order "MAX" example_scores 3 "static" false
                    RS_None Lcg.st0)); discriminate.
  - apply (proj1 (proj2 (proj2 (helper_validation_order "AOM" example_scores 7
                                  "static" false RS_None Lcg.st0)))).
    + by left.
    + reflexivity.
    + vm_compute. lia.
  - apply (proj2 (proj2 (proj2 (helper_validation_order "AOM" example_scores 3
                                  "random" false RS_None Lcg.st0)))).
    + by left.
    + reflexivity.
    + vm_compute. lia.
    + discriminate.
    + discriminate.
Defined.

(** X3.  What a returned result says about the call: the mode was AOM or
    MOA, the matrix was valid, [2 <= n_buckets <= n_estimators], the method
    was static with an even division or dynamic with six or more estimators,
    and the result holds one score per sample. *)
Theorem helper_success_conditions {F : Type} `{Numeric F} {G : Type} `{RandomOps G}
    (mode : string) (scores : list (list F)) (n_buckets : nat) (method : string)
    (bootstrap_estimators : bool) (rs : random_state) (st st' : store G)
    (out : list F) :
  _aom_moa_helper mode scores n_buckets method bootstrap_estimators rs st
  = (inr out, st') →
  (mode = "AOM" ∨ mode = "MOA")
  ∧ check_array scores = inr scores
  ∧ 2 ≤ n_buckets ≤ n_columns scores
  ∧ ((method = "static" ∧ n_columns scores mod n_buckets = 0)
     ∨ (method = "dynamic" ∧ 6 ≤ n_columns scores))
  ∧ length out = length scores.
Proof.
  intros [bs Hrun]%helper_inr.
  pose proof (helper_traced_inr _ _ _ _ _ _ _ _ _ _ Hrun)
    as (Hmode & Hchk & Hnb & Hlen & (sb & Hfill & Hout) & Hbranch).
  split_and!; [done | done | lia | lia | |].
  - destruct Hbranch as [(-> & ? & _) | [(-> & ? & _) | (-> & _)]];
      [by left | by left |].
    right. split; [done|]. by eapply dynamic_success_six.
  - rewrite <- Hlen in Hfill at 1 2. apply fill_from_zeros in Hfill.
    apply Forall2_length in Hfill.
    destruct (String.eqb mode "AOM").
    + subst out. unfold np_mean_axis1. by rewrite length_fmap.
    + apply mapR_length in Hout. lia.
Qed.

Lemma helper_success_conditions_witness :
  ("AOM" = "AOM" ∨ "AOM" = "MOA")
  ∧ check_array example_scores = inr example_scores
  ∧ 2 ≤ 3 ≤ n_columns example_scores
  ∧ (("static" = "static" ∧ n_columns example_scores mod 3 = 0)
     ∨ ("static" = "dynamic" ∧ 6 ≤ n_columns example_scores))
  ∧ length [4; 4]%float = length example_scores.
Proof.
  apply (helper_success_conditions "AOM" example_scores 3 "static" false
           (RS_int 42) Lcg.st0 Lcg.st0 [4; 4]%float).
  vm_compute. reflexivity.
Defined.

(** ** Integer seeds *)

Section StoreFree.
Context {G : Type}.

Lemma store_free_ret {A} (a : A) : store_free (G:=G) (mret a).
Proof. by exists (inr a). Qed.

Lemma store_free_raise {A} (e : exn) : store_free (G:=G) (A:=A) (raise e).
Proof. by exists (inl e). Qed.

Lemma store_free_lift {A} (r : result A) : store_free (G:=G) (lift r).
Proof. by exists r. Qed.

Lemma store_free_bind {A B} (m : M G A) (k : A → M G B) :
  store_free m → (∀ a, store_free (k a)) → store_free (m ≫= k).
Proof.
  intros [[e|a] Hm] Hk.
  - exists (inl e). intros st. unfold mbind, M_bind. by rewrite Hm.
  - destruct (Hk a) as [r Hr]. exists r. intros st.
    unfold mbind, M_bind. by rewrite Hm.
Qed.

Lemma store_free_for_each {A St} (l : list A) (body : A → St → M G St) :
  (∀ x s, store_free (body x s)) → ∀ s, store_free (for_each l body s).
Proof.
  intros Hbody. induction l as [|x l IH]; intros s; simpl.
  - apply store_free_ret.
  - apply store_free_bind; [apply Hbody | apply IH].
Qed.
End StoreFree.

Section StoreFreeDraws.
Context {F : Type} `{Numeric F} {G : Type} `{RandomOps G}.

Lemma store_free_with_int {A} (s : Z) (draw : G → A * G) :
  store_free (with_random_state (RS_int s) draw).
Proof.
  unfold with_random_state. destruct (seed_ok s); eexists; intros st; reflexivity.
Qed.

Lemma store_free_sample_int n k (s : Z) :
  store_free (sample_without_replacement (G:=G) n k (RS_int s)).
Proof.
  unfold sample_without_replacement. destruct (n <? k).
  - apply store_free_raise.
  - apply store_free_with_int.
Qed.

Lemma store_free_RandomState_int (s : Z) : store_free (RandomState (G:=G) (RS_int s)).
Proof.
  unfold RandomState. destruct (seed_ok s); eexists; intros st; reflexivity.
Qed.

Lemma store_free_traced_int mode (scores : list (list F)) nb method boot (s : Z) :
  store_free (aom_moa_helper_traced (G:=G) mode scores nb method boot (RS_int s)).
Proof.
  unfold aom_moa_helper_traced.
  destruct (negb (String.eqb mode "AOM") && negb (String.eqb mode "MOA"));
    [apply store_free_raise|].
  apply store_free_bind; [apply store_free_lift|]. intros scores'.
  apply store_free_bind; [apply store_free_lift|]. intros _.
  apply store_free_bind.
  - destruct (String.eqb method "static").
    + destruct (negb (_ =? 0)); [apply store_free_raise|].
      destruct (negb boot).
      * apply store_free_bind; [|intros l; apply store_free_lift].
        unfold shuffle. apply store_free_bind; [apply store_free_with_int|].
        intros idx. apply store_free_lift.
      * apply store_free_for_each. intros i [sb bs].
        apply store_free_bind; [apply store_free_sample_int|]. intros ind.
        apply store_free_bind; [apply store_free_lift|]. intros sb'.
        apply store_free_ret.
    + destruct (String.eqb method "dynamic"); [|apply store_free_raise].
      apply store_free_for_each. intros i [sb bs].
      apply store_free_bind; [apply store_free_RandomState_int|]. intros g.
      apply store_free_bind; [apply store_free_lift|]. intros size.
      apply store_free_bind; [apply store_free_sample_int|]. intros ind.
      apply store_free_bind; [apply store_free_lift|]. intros sb'.
      apply store_free_ret.
  - intros [sb bs]. destruct (String.eqb mode "AOM"); [apply store_free_ret|].
    apply store_free_bind; [apply store_free_lift|]. intros out.
    apply store_free_ret.
Qed.
End StoreFreeDraws.

(** X4.  With an integer [random_state] a call neither reads nor advances any
    generator that outlives it: [aom] and [moa] return the same result, error
    or scores, from every state of numpy's process-wide generator and of the
    caller's generators, and leave that state as it was.  Two calls with the
    same integer and the same inputs therefore return the same output. *)
Theorem integer_seed_reproducible {F : Type} `{Numeric F} {G : Type} `{RandomOps G}
    (scores : list (list F)) (n_buckets : nat) (method : string)
    (bootstrap_estimators : bool) (s : Z) :
  store_free (aom (G:=G) scores n_buckets method bootstrap_estimators (RS_int s))
  ∧ store_free (moa (G:=G) scores n_buckets method bootstrap_estimators (RS_int s))
  ∧ ∀ st1 st2 : store G,
      (aom scores n_buckets method bootstrap_estimators (RS_int s) st1).1
      = (aom scores n_buckets method bootstrap_estimators (RS_int s) st2).1
      ∧ (moa scores n_buckets method bootstrap_estimators (RS_int s) st1).1
        = (moa scores n_buckets method bootstrap_estimators (RS_int s) st2).1.
Proof.
  assert (∀ mode, store_free (_aom_moa_helper (G:=G) mode scores n_buckets method
                                bootstrap_estimators (RS_int s))) as Hfree.
  { intros mode. unfold _aom_moa_helper.
    apply store_free_bind; [apply store_free_traced_int|].
    intros r. apply store_free_ret. }
  split_and!; [apply Hfree.. |].
  intros st1 st2. unfold aom, moa.
  destruct (Hfree "AOM") as [ra Ha]. destruct (Hfree "MOA") as [rm Hm].
  by rewrite !Ha, !Hm.
Qed.

(** With [random_state=None] the same call advances numpy's process-wide
    generator. *)
Lemma unseeded_call_advances_generator :
  (aom example_scores 3 "static" false RS_None Lcg.st0).2 ≠ Lcg.st0.
Proof. vm_compute. discriminate. Qed.

(** X5.  In dynamic mode a [RandomState] instance passed as [random_state]
    is handed to [RandomState(seed=...)], which does not take a generator for
    a seed: every validated dynamic call with an instance raises a type
    error in the first pass of the loop, for [aom] and for [moa]. *)
Theorem dynamic_refuses_generator_instance {F : Type} `{Numeric F}
    {G : Type} `{RandomOps G}
    (scores : list (list F)) (n_buckets : nat) (bootstrap_estimators : bool)
    (st : store G) :
  check_array scores = inr scores →
  2 ≤ n_buckets ≤ n_columns scores →
  aom scores n_buckets "dynamic" bootstrap_estimators RS_instance st
  = (inl TypeError_seed, st)
  ∧ moa scores n_buckets "dynamic" bootstrap_estimators RS_instance st
    = (inl TypeError_seed, st).
Proof.
  intros Hchk Hnb. unfold aom, moa. split.
  - rewrite (helper_of_traced _ _ _ _ _ _ _ _ _
               (dynamic_instance_raises "AOM" scores n_buckets bootstrap_estimators st
                  (or_introl eq_refl) Hchk Hnb)). done.
  - rewrite (helper_of_traced _ _ _ _ _ _ _ _ _
               (dynamic_instance_raises "MOA" scores n_buckets bootstrap_estimators st
                  (or_intror eq_refl) Hchk Hnb)). done.
Qed.

Lemma dynamic_refuses_generator_instance_witness :
  aom example_scores8 3 "dynamic" false RS_instance Lcg.st0
  = (inl TypeError_seed, Lcg.st0)
  ∧ moa example_scores8 3 "dynamic" false RS_instance Lcg.st0
    = (inl TypeError_seed, Lcg.st0).
Proof.
  apply (dynamic_refuses_generator_instance example_scores8 3 false Lcg.st0).
  - reflexivity.
  - vm_compute. lia.
Defined.

(** ** [average] in exact arithmetic *)

Section AverageExact.
Local Open Scope Q_scope.

Lemma np_sum_scaled (c : Q) (row : list Q) :
  ∀ n, (length row ≤ n)%nat →
       np_sum (zip_with Qmult row (replicate n c)) == c * np_sum row.
Proof.
  induction row as [|x row IH]; intros n Hn.
  - destruct n; unfold np_sum; simpl; ring.
  - destruct n as [|n]; [simpl in Hn; lia|]. simpl.
    rewrite !np_sum_cons_Q, IH by (simpl in Hn; lia). ring.
Qed.

Lemma np_sum_replicate_Q (c : Q) (n : nat) :
  np_sum (replicate n c) == inject_Z (Z.of_nat n) * c.
Proof.
  induction n as [|n IH].
  - unfold np_sum. simpl. ring.
  - cbn [replicate]. rewrite np_sum_cons_Q, IH.
    rewrite Nat2Z.inj_succ, <- Z.add_1_r, inject_Z_plus.
    change (inject_Z 1) with 1. ring.
Qed.

Lemma weighted_mean_uniform (c : Q) (row : list Q) :
  ¬ c == 0 → row ≠ [] →
  weighted_mean (replicate (length row) c) row == np_mean row.
Proof.
  intros Hc Hne. unfold weighted_mean, np_mean. simpl.
  rewrite np_sum_scaled, np_sum_replicate_Q by done.
  assert (¬ inject_Z (Z.of_nat (length row)) == 0) as Hn.
  { change 0 with (inject_Z 0). rewrite inject_Z_injective.
    destruct row; [done | simpl; lia]. }
  field. by split.
Qed.

Lemma weighted_sum_bounds (lo hi : Q) (row : list Q) :
  ∀ w, length row = length w →
       Forall (λ x, lo <= x <= hi) row → Forall (λ y, 0 <= y) w →
       lo * np_sum w <= np_sum (zip_with Qmult row w)
       ∧ np_sum (zip_with Qmult row w) <= hi * np_sum w.
Proof.
  induction row as [|x row IH]; intros [|y w] Hlen Hrow Hw; try discriminate.
  - unfold np_sum. simpl. split; lra.
  - apply Forall_cons in Hrow as [[Hlo Hhi] Hrow].
    apply Forall_cons in Hw as [Hy Hw].
    destruct (IH w) as [IHlo IHhi]; [by injection Hlen | done | done |].
    cbn [zip_with]. rewrite !np_sum_cons_Q.
    pose proof (Qmult_le_compat_r _ _ _ Hlo Hy).
    pose proof (Qmult_le_compat_r _ _ _ Hhi Hy).
    split; lra.
Qed.

Lemma weighted_mean_bounds (lo hi : Q) (w row : list Q) :
  length row = length w →
  Forall (λ x, lo <= x <= hi) row → Forall (λ y, 0 <= y) w →
  0 < np_sum w →
  lo <= weighted_mean w row <= hi.
Proof.
  intros Hlen Hrow Hw Hpos. unfold weighted_mean. simpl.
  destruct (weighted_sum_bounds lo hi row w Hlen Hrow Hw) as [Hlo Hhi].
  split.
  - apply Qle_shift_div_l; [done | done].
  - apply Qle_shift_div_r; [done | done].
Qed.
End AverageExact.

(** X6.  In exact arithmetic, [average] under weights that are all the same
    non-zero value returns, sample by sample, the value it returns without
    weights. *)
Theorem average_uniform_weights_exact (scores : list (list Q)) (c : Q) :
  check_array scores = inr scores →
  ¬ (c == 0)%Q →
  ∃ weighted plain,
    average scores (Some (Array2 [replicate (n_columns scores) c])) = inr weighted
    ∧ average scores None = inr plain
    ∧ Forall2 Qeq weighted plain.
Proof.
  intros Hchk Hc.
  pose proof (check_array_inr _ _ Hchk) as (_ & _ & Hcols & Hrect).
  eexists _, _. split_and!.
  - apply average_weighted; [done|]. simpl. by rewrite length_replicate.
  - by apply average_unweighted.
  - apply Forall2_fmap. apply Forall_Forall2_diag.
    eapply Forall_impl; [exact Hrect|]. intros row Hrow. simpl in *.
    rewrite app_nil_r, <- Hrow. apply weighted_mean_uniform; [done|].
    intros ->. simpl in Hrow. lia.
Qed.

Lemma average_uniform_weights_exact_witness :
  ∃ weighted plain,
    average example_scores_exact
      (Some (Array2 [replicate (n_columns example_scores_exact) (3 # 2)%Q]))
    = inr weighted
    ∧ average example_scores_exact None = inr plain
    ∧ Forall2 Qeq weighted plain.
Proof.
  apply (average_uniform_weights_exact example_scores_exact (3 # 2)%Q).
  - reflexivity.
  - discriminate.
Defined.

(** X7.  In exact arithmetic the average of a sample lies between the minimum
    and the maximum of its row: without weights, and under weights of the
    accepted shape that are non-negative with a positive sum. *)
Theorem average_within_row_range (scores : list (list Q)) (w : list Q) :
  check_array scores = inr scores →
  length w = n_columns scores →
  Forall (λ y, (0 <= y)%Q) w →
  (0 < np_sum w)%Q →
  ∃ weighted plain,
    average scores (Some (Array2 [w])) = inr weighted
    ∧ average scores None = inr plain
    ∧ Forall2 (λ row v, ∃ lo hi, np_min row = inr lo ∧ np_max row = inr hi
                                 ∧ (lo <= v <= hi)%Q) scores weighted
    ∧ Forall2 (λ row v, ∃ lo hi, np_min row = inr lo ∧ np_max row = inr hi
                                 ∧ (lo <= v <= hi)%Q) scores plain.
Proof.
  intros Hchk Hlen Hw Hpos.
  pose proof (check_array_inr _ _ Hchk) as (_ & _ & Hcols & Hrect).
  assert (∀ row, row ∈ scores →
            ∃ lo hi, np_min row = inr lo ∧ np_max row = inr hi
                     ∧ Forall (λ x, (lo <= x <= hi)%Q) row ∧ row ≠ []
                     ∧ length row = length w) as Hext.
  { intros row Hrow. eapply Forall_forall in Hrect; [|exact Hrow]. simpl in Hrect.
    destruct row as [|x row]; [simpl in Hrect; lia|].
    eexists _, _. split; [reflexivity|]. split; [reflexivity|].
    split; [by apply row_extremes|]. split; [done | lia]. }
  eexists _, _. split_and!.
  - apply average_weighted; [done|]. simpl. by rewrite Hlen.
  - by apply average_unweighted.
  - apply Forall2_fmap_r, Forall_Forall2_diag, Forall_forall. intros row Hrow.
    destruct (Hext row Hrow) as (lo & hi & Hlo & Hhi & Hall & Hne & Hrowlen).
    exists lo, hi. do 2 (split; [done|]). simpl. rewrite app_nil_r.
    by apply weighted_mean_bounds.
  - apply Forall2_fmap_r, Forall_Forall2_diag, Forall_forall. intros row Hrow.
    destruct (Hext row Hrow) as (lo & hi & Hlo & Hhi & Hall & Hne & Hrowlen).
    exists lo, hi. do 2 (split; [done|]). by apply np_mean_Q_bounds.
Qed.

Lemma average_within_row_range_witness :
  ∃ weighted plain,
    average example_scores_exact (Some (Array2 [[1; 0; 2; 0; 0; 3]%Q])) = inr weighted
    ∧ average example_scores_exact None = inr plain
    ∧ Forall2 (λ row v, ∃ lo hi, np_min row = inr lo ∧ np_max row = inr hi
                                 ∧ (lo <= v <= hi)%Q) example_scores_exact weighted
    ∧ Forall2 (λ row v, ∃ lo hi, np_min row = inr lo ∧ np_max row = inr hi
                                 ∧ (lo <= v <= hi)%Q) example_scores_exact plain.
Proof.
  apply (average_within_row_range example_scores_exact [1; 0; 2; 0; 0; 3]%Q).
  - reflexivity.
  - reflexivity.
  - repeat constructor; discriminate.
  - reflexivity.
Defined.

(** ** More on [majority_vote] *)

Section VoteAnyCarrier.
Context {F : Type} `{Numeric F}.

(** The running winner only ever changes to the conversion of the candidate
    at hand: no law of arithmetic is involved. *)
Lemma weighted_mode_fold_winner (a : list Z) (w : list F) (seen : list Z)
    (state : F * F) :
  let final := foldl (weighted_mode_step a w) state seen in
  final.1 = state.1 ∨ ∃ label, label ∈ seen ∧ final.1 = fint label.
Proof.
  revert state. induction seen as [|score seen IH]; intros [best cnt]; simpl.
  - by left.
  - destruct (IH (weighted_mode_step a w (best, cnt) score)) as [Hsame | Hnew].
    + simpl in Hsame. destruct (fltb cnt _).
      * right. exists score. split; [by left | done].
      * by left.
    + destruct Hnew as (label & Hlabel & Hfinal).
      right. exists label. split; [by right | done].
Qed.

Lemma weighted_mode_vote_or_zero (a : list Z) (w : list F) :
  (∃ label, label ∈ a ∧ (weighted_mode a w).1 = fint label)
  ∨ (weighted_mode a w).1 = fzero.
Proof.
  unfold weighted_mode.
  destruct (weighted_mode_fold_winner a w (np_unique a) (fzero, fzero))
    as [Hsame | (label & Hlabel & Hfinal)].
  - by right.
  - left. exists label. split; [by apply elem_of_np_unique | done].
Qed.

(** What a successful [majority_vote] returned, for any carrier. *)
Lemma majority_vote_rows (scores : list (list Z)) n_classes
    (weights : option (ndarray F)) out :
  majority_vote scores n_classes weights = inr out →
  ∃ w, out = (λ row, (weighted_mode row w).1) <$> scores.
Proof.
  unfold majority_vote.
  intros (scores' & Hchk & Hrest)%rbind_inr.
  assert (scores' = scores) as ->.
  { unfold check_array_labels in Hchk. destruct scores as [|r rs]; [discriminate|].
    destruct (_ && _); [by injection Hchk | discriminate]. }
  apply rbind_inr in Hrest as (ws & _ & Hout).
  destruct scores as [|row0 scores]; [discriminate|].
  assert (∃ w, ws = [w]) as [w ->].
  { simpl in Hout. destruct ws as [|w [|w' ws]]; try discriminate. by exists w. }
  exists w. apply mapR_inr in Hout. symmetry.
  apply list_eq_Forall2, Forall2_fmap_l.
  eapply Forall2_impl; [exact Hout|]. intros row winner Hw. simpl in Hw.
  by injection Hw as <-.
Qed.
End VoteAnyCarrier.

Section VoteMore.
Context {F : Type} `{WeightLaws F} `{!NoNaN F}.

Lemma weighted_mode_strict_majority (a : list Z) (w : list F) (label : Z) :
  label ∈ a →
  fltb fzero (vote_weight a w label) = true →
  (∀ other, other ∈ a → other ≠ label →
            fltb (vote_weight a w other) (vote_weight a w label) = true) →
  (weighted_mode a w).1 = fint label.
Proof.
  intros Hlabel Hpos Hstrict.
  destruct (weighted_mode_spec a w) as [Hmax _].
  destruct Hmax as (best & Hwin & Hin & Hge & _); [by exists label|].
  rewrite Hwin.
  destruct (decide (best = label)) as [->|Hne]; [done|].
  specialize (Hstrict _ Hin Hne). rewrite (Hge label Hlabel) in Hstrict.
  discriminate.
Qed.
End VoteMore.

(** X8.  How [majority_vote] treats its weights argument: a 1-D array has no
    [shape[1]] and raises an index error; a 2-D array whose column count
    differs from the number of estimators fails the equality assertion; and
    an invalid label matrix is refused before the weights are looked at. *)
Theorem majority_vote_weights_argument {F : Type} `{Numeric F}
    (scores : list (list Z)) (n_classes : nat) :
  (∀ e weights, check_array_labels scores = inl e →
                majority_vote (F:=F) scores n_classes weights = inl e)
  ∧ (check_array_labels scores = inr scores →
     (∀ v : list F,
        majority_vote scores n_classes (Some (Array1 v)) = inl IndexError)
     ∧ (∀ rows : list (list F),
          length (hd [] rows) ≠ length (hd [] scores) →
          majority_vote scores n_classes (Some (Array2 rows)) = inl AssertionError)).
Proof.
  split.
  - intros e weights Hchk. unfold majority_vote, mbind, result_bind.
    by rewrite Hchk.
  - intros Hchk. split.
    + intros v. unfold majority_vote, mbind, result_bind. by rewrite Hchk.
    + intros rows Hne. unfold majority_vote, mbind, result_bind. rewrite Hchk.
      simpl. apply Nat.eqb_neq in Hne. rewrite Nat.eqb_sym in Hne. by rewrite Hne.
Qed.

Lemma majority_vote_weights_argument_witness :
  (∀ v : list float,
     majority_vote [[0; 0; 1]; [1; 1; 0]]%Z 2 (Some (Array1 v)) = inl IndexError)
  ∧ (∀ rows : list (list float),
       length (hd [] rows) ≠ length (hd [] [[0; 0; 1]; [1; 1; 0]]%Z) →
       majority_vote [[0; 0; 1]; [1; 1; 0]]%Z 2 (Some (Array2 rows))
       = inl AssertionError).
Proof.
  apply (proj2 (majority_vote_weights_argument (F:=float)
                  [[0; 0; 1]; [1; 1; 0]]%Z 2)).
  reflexivity.
Defined.

(** X9.  In exact arithmetic, a label whose total weight in a row is
    positive and strictly above the total of every other label voted in that
    row is the vote of the row, returned as a number of the result array,
    under any accepted weights. *)
Theorem majority_vote_strict_majority {F : Type} `{WeightLaws F} `{!NoNaN F}
    (scores : list (list Z)) (n_classes : nat) (weights : option (ndarray F))
    (out : list F) :
  majority_vote scores n_classes weights = inr out →
  ∃ w,
    (weights = None → w = replicate (length (hd [] scores)) fone)
    ∧ (∀ rows, weights = Some (Array2 rows) → rows = [w])
    ∧ Forall2
        (λ row winner,
           ∀ label, label ∈ row →
             fltb fzero (vote_weight row w label) = true →
             (∀ other, other ∈ row → other ≠ label →
                fltb (vote_weight row w other) (vote_weight row w label) = true) →
             winner = fint label)
        scores out.
Proof.
  intros Hrun.
  apply majority_vote_inr in Hrun as (w & Hnone & Hsome & _ & _ & _ & ->).
  exists w. do 2 (split; [done|]).
  apply Forall2_fmap_r, Forall_Forall2_diag, Forall_forall.
  intros row _ label. apply weighted_mode_strict_majority.
Qed.

Lemma majority_vote_strict_majority_witness :
  ∃ w,
    (Some (Array2 [[1; 2; 4]%Q]) = None → w = replicate 3 fone)
    ∧ (∀ rows, Some (Array2 [[1; 2; 4]%Q]) = Some (Array2 rows) → rows = [w])
    ∧ Forall2
        (λ row winner,
           ∀ label, label ∈ row →
             fltb fzero (vote_weight row w label) = true →
             (∀ other, other ∈ row → other ≠ label →
                fltb (vote_weight row w other) (vote_weight row w label) = true) →
             winner = fint label)
        [[0; 0; 1]; [1; 1; 0]]%Z [1; 0]%Q.
Proof.
  apply (majority_vote_strict_majority [[0; 0; 1]; [1; 1; 0]]%Z 2
           (Some (Array2 [[1; 2; 4]%Q])) [1; 0]%Q).
  vm_compute. reflexivity.
Defined.

(** X10.  [majority_vote] returns one value per sample, and the value is
    either a label voted in the sample's row, converted to the [float64] of
    the result array (which rounds a label beyond [2^53]), or the zero the
    vote starts from; it never returns anything else, whatever the weights
    and in binary64 as in exact arithmetic. *)
Theorem majority_vote_vote_or_zero {F : Type} `{Numeric F}
    (scores : list (list Z)) (n_classes : nat) (weights : option (ndarray F))
    (out : list F) :
  majority_vote scores n_classes weights = inr out →
  Forall2 (λ row winner,
             (∃ label, label ∈ row ∧ winner = fint label) ∨ winner = fzero)
          scores out.
Proof.
  intros Hrun.
  apply majority_vote_rows in Hrun as (w & ->).
  apply Forall2_fmap_r, Forall_Forall2_diag, Forall_forall.
  intros row _. apply weighted_mode_vote_or_zero.
Qed.

Lemma majority_vote_vote_or_zero_witness :
  Forall2 (λ row winner,
             (∃ label, label ∈ row ∧ winner = fint label) ∨ winner = fzero)
          [[9007199254740993; 9007199254740993; 1]; [1; 2; 3]]%Z
          [9007199254740992; 1]%float.
Proof.
  apply (majority_vote_vote_or_zero
           [[9007199254740993; 9007199254740993; 1]; [1; 2; 3]]%Z 2
           (@None (ndarray float))).
  vm_compute. reflexivity.
Defined.

(** ** [median] *)

Lemma StronglySorted_weaken {A} (R R' : A → A → Prop) (l : list A) :
  (∀ x y, R x y → R' x y) → StronglySorted R l → StronglySorted R' l.
Proof.
  intros HR. induction 1 as [|x l Hl IH Hx]; constructor; [done|].
  eapply Forall_impl; [exact Hx|]. intros y. apply HR.
Qed.

Section SortProofs.
Context {F : Type} `{WeightLaws F}.

Lemma insert_sorted_perm (x : F) (l : list F) : insert_sorted x l ≡ₚ x :: l.
Proof.
  induction l as [|y l IH]; simpl; [done|].
  destruct (fltb x y); [done|]. rewrite IH. apply Permutation_swap.
Qed.

Lemma np_sort_perm (l : list F) : np_sort l ≡ₚ l.
Proof.
  unfold np_sort. induction l as [|x l IH]; simpl; [done|].
  by rewrite insert_sorted_perm, IH.
Qed.

Lemma insert_sorted_sorted (x : F) (l : list F) :
  StronglySorted (λ a b, fltb b a = false) l →
  StronglySorted (λ a b, fltb b a = false) (insert_sorted x l).
Proof.
  induction 1 as [|y l Hl IH Hy]; simpl.
  - repeat constructor.
  - destruct (fltb x y) eqn:Hlt.
    + constructor; [by constructor|]. constructor; [by apply fltb_asym|].
      eapply Forall_impl; [exact Hy|]. intros z Hz. simpl in *.
      eapply fleb_trans; [exact Hz | by apply fltb_asym].
    + constructor; [done|]. rewrite insert_sorted_perm. by constructor.
Qed.

Lemma np_sort_sorted (l : list F) :
  StronglySorted (λ a b, fltb b a = false) (np_sort l).
Proof.
  unfold np_sort. induction l as [|x l IH]; simpl; [constructor|].
  by apply insert_sorted_sorted.
Qed.

Lemma sorted_lookup_le (s : list F) (i j : nat) (x y : F) :
  StronglySorted (λ a b, fltb b a = false) s →
  i ≤ j → s !! i = Some x → s !! j = Some y → fltb y x = false.
Proof.
  intros Hs Hij Hx Hy.
  destruct (decide (i = j)) as [->|Hne].
  - rewrite Hx in Hy. injection Hy as <-. apply fltb_irrefl.
  - rewrite <- (take_drop j s) in Hs.
    apply (StronglySorted_app_1_elem_of _ _ _ x y) in Hs; [done | |].
    + apply (list_elem_of_lookup_2 _ i). rewrite lookup_take_lt by lia. exact Hx.
    + apply (list_elem_of_lookup_2 _ 0). rewrite lookup_drop, Nat.add_0_r. exact Hy.
Qed.
End SortProofs.

Section MedianExact.
Local Open Scope Q_scope.

Lemma np_median_halves (row : list Q) :
  row ≠ [] →
  let m := np_median row in
  Forall (λ x, x <= m) (take ((length row + 1) / 2) (np_sort row))
  ∧ Forall (λ x, m <= x) (drop (length row / 2) (np_sort row)).
Proof.
  intros Hne m. unfold m, np_median. clear m.
  pose proof (np_sort_sorted row) as Hsorted.
  assert (length (np_sort row) = length row) as Hlen by by rewrite np_sort_perm.
  rewrite Hlen. set (s := np_sort row) in *. set (n := length row) in *.
  assert (0 < n)%nat as Hn by (unfold n; destruct row; [done | simpl; lia]).
  assert (∀ i j x y, (i ≤ j)%nat → s !! i = Some x → s !! j = Some y → x <= y)
    as Hle.
  { intros i j x y Hij Hx Hy. apply fltb_Q_false.
    by eapply (sorted_lookup_le (F:=Q) s i j). }
  pose proof (Nat.div_mod n 2 ltac:(lia)) as Hdiv.
  pose proof (Nat.mod_upper_bound n 2 ltac:(lia)) as Hmod.
  destruct (n mod 2 =? 1)%nat eqn:Hodd.
  - (* odd count: the middle entry *)
    apply Nat.eqb_eq in Hodd.
    assert (is_Some (s !! (n / 2)%nat)) as [a Ha].
    { apply lookup_lt_is_Some. lia. }
    assert (slice s (n / 2) (n / 2 + 1) = [a]) as ->.
    { unfold slice. replace (n / 2 + 1 - n / 2)%nat with 1%nat by lia.
      rewrite (drop_S _ _ _ Ha). reflexivity. }
    assert (np_mean [a] == a) as Hm.
    { unfold np_mean, np_sum. simpl. change (inject_Z (Z.of_nat 1)) with 1. field. }
    replace ((n + 1) / 2)%nat with (S (n / 2)).
    2:{ apply Nat.div_unique with 0%nat; lia. }
    split; apply Forall_lookup_2; intros i x Hx.
    + apply lookup_take_Some in Hx as [Hx Hi].
      rewrite Hm. eapply (Hle i (n / 2)%nat); [lia | done | done].
    + rewrite lookup_drop in Hx.
      rewrite Hm. eapply (Hle (n / 2)%nat (n / 2 + i)%nat); [lia | done | done].
  - (* even count: the mean of the two middle entries *)
    apply Nat.eqb_neq in Hodd.
    assert (n mod 2 = 0)%nat as Heven by lia.
    assert (is_Some (s !! (n / 2 - 1)%nat)) as [a Ha].
    { apply lookup_lt_is_Some. lia. }
    assert (is_Some (s !! (n / 2)%nat)) as [b Hb].
    { apply lookup_lt_is_Some. lia. }
    assert (slice s (n / 2 - 1) (n / 2 + 1) = [a; b]) as ->.
    { unfold slice. replace (n / 2 + 1 - (n / 2 - 1))%nat with 2%nat by lia.
      rewrite (drop_S _ _ _ Ha).
      replace (S (n / 2 - 1)) with (n / 2)%nat by lia.
      rewrite (drop_S _ _ _ Hb). reflexivity. }
    assert (a <= b) as Hab.
    { eapply (Hle (n / 2 - 1)%nat (n / 2)%nat); [lia | done | done]. }
    assert (a <= np_mean [a; b] ∧ np_mean [a; b] <= b) as [Hma Hmb].
    { unfold np_mean, np_sum. simpl. change (inject_Z (Z.of_nat 2)) with 2.
      split; [apply Qle_shift_div_l | apply Qle_shift_div_r]; lra. }
    replace ((n + 1) / 2)%nat with (n / 2)%nat.
    2:{ apply Nat.div_unique with 1%nat; lia. }
    split; apply Forall_lookup_2; intros i x Hx.
    + apply lookup_take_Some in Hx as [Hx Hi].
      eapply Qle_trans; [|exact Hma].
      eapply (Hle i (n / 2 - 1)%nat); [lia | done | done].
    + rewrite lookup_drop in Hx.
      eapply Qle_trans; [exact Hmb|].
      eapply (Hle (n / 2)%nat (n / 2 + i)%nat); [lia | done | done].
Qed.
End MedianExact.

(** X11.  On a valid matrix [median] returns one value per sample.  In exact
    arithmetic the value splits the ordered row in the middle: the lower half
    of the ordered entries (the middle one included for an odd count) are at
    most the median and the upper half are at least the median. *)
Theorem median_splits_row (scores : list (list Q)) :
  check_array scores = inr scores →
  ∃ out,
    median scores = inr out
    ∧ Forall2 (λ row m,
                 ∃ ordered,
                   ordered ≡ₚ row
                   ∧ StronglySorted Qle ordered
                   ∧ Forall (λ x, (x <= m)%Q) (take ((length row + 1) / 2) ordered)
                   ∧ Forall (λ x, (m <= x)%Q) (drop (length row / 2) ordered))
              scores out.
Proof.
  intros Hchk. unfold median, mbind, result_bind. rewrite Hchk. simpl.
  apply check_array_inr in Hchk as (_ & _ & Hcols & Hrect).
  eexists. split; [reflexivity|].
  apply Forall2_fmap_r, Forall_Forall2_diag, Forall_forall. intros row Hrow.
  eapply Forall_forall in Hrect; [|exact Hrow]. simpl in Hrect.
  assert (row ≠ []) as Hne by (intros ->; simpl in Hrect; lia).
  destruct (np_median_halves row Hne) as [Hlow Hhigh].
  exists (np_sort row). split_and!; [apply np_sort_perm | | done | done].
  eapply StronglySorted_weaken; [|apply (np_sort_sorted (F:=Q))].
  intros x y Hxy. by apply fltb_Q_false.
Qed.

Lemma median_splits_row_witness :
  ∃ out,
    median example_scores_exact = inr out
    ∧ Forall2 (λ row m,
                 ∃ ordered,
                   ordered ≡ₚ row
                   ∧ StronglySorted Qle ordered
                   ∧ Forall (λ x, (x <= m)%Q) (take ((length row + 1) / 2) ordered)
                   ∧ Forall (λ x, (m <= x)%Q) (drop (length row / 2) ordered))
              example_scores_exact out.
Proof. apply (median_splits_row example_scores_exact). reflexivity. Defined.

(** ** The bootstrap loop draw by draw *)

Section SampledProofs.
Context {F : Type} `{Numeric F} {G : Type} `{RandomOps G}.

Lemma with_random_state_advance {A} rs (draw : G → A * G) (st : store G) :
  seedable rs →
  with_random_state rs draw st
  = (inr (draw (generator_of rs st)).1,
     advance_generator rs (draw (generator_of rs st)).2 st).
Proof.
  unfold with_random_state, seedable, generator_of, advance_generator.
  destruct rs as [|s|]; intros Hs.
  - by destruct (draw (np_random st)).
  - by rewrite Hs.
  - by destruct (draw (caller_rng st)).
Qed.

Lemma static_bootstrap_loop_sampled mode (scores : list (list F)) n nb step rs :
  seedable rs →
  ∀ k j sb bs (st st' : store G) sb' bs',
    for_each (seq j k)
      (λ i '(sb, bs),
         ind ← sample_without_replacement n step rs;
         sb' ← lift (fill_bucket mode scores sb nb i ind);
         mret (sb', bs ++ [ind]))
      (sb, bs) st = (inr (sb', bs'), st') →
    bs' = bs ++ (sampled_buckets rs n step k st).1
    ∧ st' = (sampled_buckets rs n step k st).2.
Proof.
  intros Hseed k. induction k as [|k IH]; intros j sb bs st st' sb' bs' Hloop.
  - injection Hloop as <- <- <-. simpl. by rewrite app_nil_r.
  - simpl in Hloop.
    apply M_bind_inr in Hloop as ([sb1 bs1] & st1 & Hpass & Hloop).
    apply M_bind_inr in Hpass as (ind & st2 & Hind & Hpass).
    apply M_bind_inr in Hpass as (sb2 & st3 & Hfill & Hret).
    apply lift_inr in Hfill as [_ ->]. injection Hret as <- <- <-.
    unfold sample_without_replacement in Hind.
    destruct (n <? step); [discriminate|].
    rewrite with_random_state_advance in Hind by done.
    injection Hind as <- <-.
    apply IH in Hloop as [-> ->]. simpl.
    destruct (sampled_buckets rs n step k _) as [rest st'']. simpl.
    by rewrite <- app_assoc.
Qed.
End SampledProofs.

(** X12.  With [method='static'] and [bootstrap_estimators=True] the buckets
    of a run are the results of [n_buckets] successive calls of the sampler,
    each reading the generator [random_state] stands for in the store the
    call before left: with [None] or a generator instance every bucket is
    drawn from the generator as the previous draw advanced it, and the call
    leaves the generator advanced by [n_buckets] draws. *)
Theorem static_bootstrap_successive_draws {F : Type} `{Numeric F}
    {G : Type} `{RandomOps G}
    (mode : string) (scores : list (list F)) (n_buckets : nat)
    (rs : random_state) (st st' : store G) (out : list F)
    (buckets : list (list nat)) :
  seedable rs →
  aom_moa_helper_traced mode scores n_buckets "static" true rs st
  = (inr (out, buckets), st') →
  (buckets, st')
  = sampled_buckets rs (n_columns scores) (n_columns scores / n_buckets)
      n_buckets st.
Proof.
  intros Hseed Hrun.
  pose proof (helper_traced_inr _ _ _ _ _ _ _ _ _ _ Hrun)
    as (Hmode & Hchk & Hnb & _ & _ & Hbranch).
  assert (n_columns scores mod n_buckets = 0) as Hrem.
  { by destruct Hbranch as [(_ & ? & _) | [(_ & ? & _) | ([=] & _)]]. }
  rewrite helper_traced_validated in Hrun by done. cbv zeta in Hrun.
  change (String.eqb "static" "static") with true in Hrun.
  apply Nat.eqb_eq in Hrem. rewrite Hrem in Hrun. cbn [negb] in Hrun.
  apply M_bind_inr in Hrun as ([sb bs] & st1 & Hloop & Hfinal).
  assert (bs = buckets ∧ st1 = st') as [-> ->].
  { destruct (String.eqb mode "AOM").
    - by injection Hfinal as _ <- <-.
    - apply M_bind_inr in Hfinal as (o & st2 & Hmax & Hret).
      apply lift_inr in Hmax as [_ ->]. by injection Hret as _ <- <-. }
  unfold static_bootstrap_loop in Hloop.
  apply (static_bootstrap_loop_sampled mode scores _ _ _ rs Hseed) in Hloop
    as [-> ->].
  by destruct (sampled_buckets _ _ _ _ _).
Qed.

Lemma static_bootstrap_successive_draws_witness :
  ([[5; 0]; [1; 2]; [0; 1]],
   Store 712265938%Z (caller_rng Lcg.st0) (urandom Lcg.st0))
  = sampled_buckets RS_None (n_columns example_scores)
      (n_columns example_scores / 3) 3 Lcg.st0.
Proof.
  apply (static_bootstrap_successive_draws "MOA" example_scores 3 RS_None
           Lcg.st0 _ [3.5; 5.5]%float).
  - exact I.
  - vm_compute. reflexivity.
Defined.

(** ** The static partition against the plain average *)

Section PartitionAverage.
Local Open Scope Q_scope.

Lemma np_sum_nil_Q : np_sum (@nil Q) == 0.
Proof. reflexivity. Qed.

Lemma np_sum_perm (l l' : list Q) : l ≡ₚ l' → np_sum l == np_sum l'.
Proof.
  induction 1 as [|x l l' _ IH|x y l|l l' l'' _ IH1 _ IH2].
  - reflexivity.
  - by rewrite !np_sum_cons_Q, IH.
  - rewrite !np_sum_cons_Q. ring.
  - by rewrite IH1.
Qed.

Lemma np_sum_app_Q (l l' : list Q) : np_sum (l ++ l') == np_sum l + np_sum l'.
Proof.
  induction l as [|x l IH]; simpl.
  - rewrite np_sum_nil_Q. ring.
  - rewrite !np_sum_cons_Q, IH. ring.
Qed.

Lemma np_sum_mono (l l' : list Q) : Forall2 Qle l l' → np_sum l <= np_sum l'.
Proof.
  induction 1 as [|x y l l' Hxy _ IH].
  - apply Qle_refl.
  - rewrite !np_sum_cons_Q. lra.
Qed.

(** Fancy indexing that succeeds reads the row position by position. *)
Lemma take_index_fmap (row : list Q) ind cols :
  take_index row ind = inr cols → cols = (λ j, default 0 (row !! j)) <$> ind.
Proof.
  intros Hcols%mapR_inr.
  induction Hcols as [|j x ind cols Hj _ IH]; [done|].
  destruct (row !! j) as [y|] eqn:Hy; [|discriminate]. injection Hj as <-.
  simpl. by rewrite Hy, IH.
Qed.

Lemma fmap_lookup_seq (row : list Q) :
  (λ j, default 0 (row !! j)) <$> seq 0 (length row) = row.
Proof.
  apply list_eq. intros i. rewrite list_lookup_fmap.
  destruct (decide (i < length row)%nat) as [Hi|Hi].
  - rewrite lookup_seq_lt by done. simpl.
    destruct (lookup_lt_is_Some_2 row i Hi) as [x Hx]. by rewrite Hx.
  - rewrite lookup_seq_ge by lia. simpl. symmetry. apply lookup_ge_None. lia.
Qed.

(** The bucket means of equal-size buckets add up to the sum over all the
    positions of the buckets, divided by the size. *)
Lemma bucket_means_sum (row : list Q) (step : nat) bs avgs :
  Forall2 (λ b avg, bucket_mean row b = inr avg) bs avgs →
  Forall (λ b, length b = step) bs →
  np_sum avgs
  == np_sum ((λ j, default 0 (row !! j)) <$> concat bs) / inject_Z (Z.of_nat step).
Proof.
  induction 1 as [|b avg bs avgs Hb _ IH]; intros Hlen.
  - simpl. rewrite !np_sum_nil_Q. unfold Qdiv. ring.
  - apply Forall_cons in Hlen as [Hstep Hlen].
    unfold bucket_mean in Hb. apply rbind_inr in Hb as (cols & Hcols & [= <-]).
    apply take_index_fmap in Hcols as ->.
    simpl. rewrite fmap_app, np_sum_app_Q, np_sum_cons_Q, IH by done.
    unfold np_mean. simpl. rewrite length_fmap, Hstep. unfold Qdiv. ring.
Qed.

(** The mean of the bucket means of a partition into equal buckets is the
    mean of the row. *)
Lemma partition_bucket_means (row : list Q) (l : list nat) (step nb : nat) avgs :
  l ≡ₚ seq 0 (length row) →
  length row = (nb * step)%nat → (0 < step)%nat → (0 < nb)%nat →
  mapR (bucket_mean row) (slices step nb l) = inr avgs →
  np_mean avgs == np_mean row.
Proof.
  intros Hperm Hrow Hstep Hnb Havgs.
  assert (length l = (nb * step)%nat) as Hl by (by rewrite Hperm, length_seq).
  pose proof (mapR_length _ _ _ Havgs) as Hlen.
  apply mapR_inr in Havgs.
  pose proof (bucket_means_sum row step _ _ Havgs (slices_length _ _ _ Hl)) as Hsum.
  rewrite concat_slices in Hsum by done.
  rewrite (np_sum_perm _ _ (fmap_Permutation _ _ _ Hperm)), fmap_lookup_seq in Hsum.
  unfold np_mean. simpl. rewrite Hsum, Hlen.
  unfold slices. rewrite length_fmap, length_seq, Hrow.
  rewrite Nat2Z.inj_mul, inject_Z_mult.
  assert (¬ inject_Z (Z.of_nat step) == 0) as Hs.
  { change 0 with (inject_Z 0). rewrite inject_Z_injective. lia. }
  assert (¬ inject_Z (Z.of_nat nb) == 0) as Hn.
  { change 0 with (inject_Z 0). rewrite inject_Z_injective. lia. }
  field. by split.
Qed.

(** A bucket's maximum is at least its mean. *)
Lemma bucket_max_above_mean (row : list Q) b top :
  bucket_max row b = inr top →
  ∃ avg, bucket_mean row b = inr avg ∧ avg <= top.
Proof.
  unfold bucket_max, bucket_mean.
  intros (cols & Hcols & Hmax)%rbind_inr.
  exists (np_mean cols). unfold mbind, result_bind. rewrite Hcols. split; [done|].
  apply np_max_Q in Hmax as [Hin Hall].
  destruct (np_min cols) as [e|lo] eqn:Hmin;
    [destruct cols; [by apply elem_of_nil in Hin | discriminate]|].
  apply np_min_Q in Hmin as [_ Hlo].
  apply (np_mean_Q_bounds lo top).
  - intros ->. by apply elem_of_nil in Hin.
  - apply Forall_forall. intros x Hx. split.
    + by eapply Forall_forall in Hlo.
    + by eapply Forall_forall in Hall.
Qed.

Lemma bucket_maxima_above_means (row : list Q) bs tops :
  mapR (bucket_max row) bs = inr tops →
  ∃ avgs, mapR (bucket_mean row) bs = inr avgs ∧ Forall2 Qle avgs tops.
Proof.
  intros Htops%mapR_inr.
  induction Htops as [|b top bs tops Hb _ (avgs & Havgs & Hle)].
  - by exists [].
  - apply bucket_max_above_mean in Hb as (avg & Havg & Htop).
    exists (avg :: avgs). simpl. unfold mbind, result_bind.
    rewrite Havg, Havgs. split; [done | by constructor].
Qed.

Lemma np_mean_mono (l l' : list Q) : Forall2 Qle l l' → np_mean l <= np_mean l'.
Proof.
  intros Hle. unfold np_mean. simpl. rewrite <- (Forall2_length _ _ _ Hle).
  destruct l as [|x l].
  - apply Forall2_nil_inv_l in Hle as ->. apply Qle_refl.
  - apply np_sum_mono in Hle.
    assert (0 < inject_Z (Z.of_nat (length (x :: l)))) as Hpos.
    { change 0 with (inject_Z 0). rewrite <- Zlt_Qlt. simpl. lia. }
    apply Qle_shift_div_l; [done|].
    unfold Qdiv. rewrite <- Qmult_assoc, (Qmult_comm (/ _)), Qmult_inv_r, Qmult_1_r.
    + done.
    + intros Hz. rewrite Hz in Hpos. by apply Qlt_irrefl in Hpos.
Qed.

Lemma partition_average_of_maximum (row : list Q) (l : list nat) (step nb : nat) v :
  l ≡ₚ seq 0 (length row) →
  length row = (nb * step)%nat → (0 < step)%nat → (0 < nb)%nat →
  average_of_maximum (slices step nb l) row = inr v →
  np_mean row <= v.
Proof.
  intros Hperm Hrow Hstep Hnb. unfold average_of_maximum.
  intros (tops & Htops & [= <-])%rbind_inr.
  apply bucket_maxima_above_means in Htops as (avgs & Havgs & Hle).
  rewrite <- (partition_bucket_means row l step nb avgs) by done.
  by apply np_mean_mono.
Qed.

Lemma partition_maximum_of_average (row : list Q) (l : list nat) (step nb : nat) v :
  l ≡ₚ seq 0 (length row) →
  length row = (nb * step)%nat → (0 < step)%nat → (0 < nb)%nat →
  maximum_of_average (slices step nb l) row = inr v →
  np_mean row <= v.
Proof.
  intros Hperm Hrow Hstep Hnb. unfold maximum_of_average.
  intros (avgs & Havgs & Hmax)%rbind_inr.
  rewrite <- (partition_bucket_means row l step nb avgs) by done.
  apply np_max_Q in Hmax as [Hin Hall].
  destruct (np_min avgs) as [e|lo] eqn:Hmin;
    [destruct avgs; [by apply elem_of_nil in Hin | discriminate]|].
  apply np_min_Q in Hmin as [_ Hlo].
  apply (np_mean_Q_bounds lo v).
  - intros ->. by apply elem_of_nil in Hin.
  - apply Forall_forall. intros x Hx. split.
    + by eapply Forall_forall in Hlo.
    + by eapply Forall_forall in Hall.
Qed.
End PartitionAverage.

(** X13.  In exact arithmetic, with [method='static'] and
    [bootstrap_estimators=False] the combined score of every sample is at
    least the plain average of the sample's row, for [aom] and for [moa]:
    the buckets are a partition into groups of one size, so the mean of the
    bucket means is the mean of the row. *)
Theorem static_partition_above_average {G : Type} `{RandomLaws G}
    (mode : string) (scores : list (list Q)) (n_buckets : nat)
    (rs : random_state) (st st' : store G) (out : list Q) :
  _aom_moa_helper mode scores n_buckets "static" false rs st = (inr out, st') →
  ∃ plain, average scores None = inr plain ∧ Forall2 Qle plain out.
Proof.
  intros [bs Hrun]%helper_inr.
  pose proof (helper_traced_inr _ _ _ _ _ _ _ _ _ _ Hrun)
    as (Hmode & Hchk & Hnb & _ & _ & Hbranch).
  exists (np_mean <$> scores). split; [by apply average_unweighted|].
  set (n := n_columns scores) in *.
  destruct Hbranch as [(_ & Hrem & _ & shuffled & st1 & Hshuffle & ->)
                      | [(_ & _ & [=] & _) | ([=] & _)]].
  apply shuffle_seq_inr in Hshuffle.
  apply check_array_inr in Hchk as (_ & _ & _ & Hrect). fold n in Hrect.
  assert (n = n_buckets * (n / n_buckets)) as Hdiv.
  { rewrite (Nat.div_mod n n_buckets) at 1 by lia. lia. }
  assert (0 < n / n_buckets) as Hstep by nia.
  assert (∀ f, mapR f scores = inr out →
               (∀ row v, length row = n → f row = inr v → (np_mean row <= v)%Q) →
               Forall2 Qle (np_mean <$> scores) out) as Hgen.
  { intros f Hout%mapR_inr Hf. apply Forall2_fmap_l.
    apply Forall2_same_length_lookup_2; [by eapply Forall2_length|].
    intros r row v Hrow Hv.
    apply (Hf row v).
    - eapply Forall_lookup_1 in Hrect; [|exact Hrow]. done.
    - by eapply Forall2_lookup_lr in Hout. }
  destruct Hmode as [-> | ->].
  - apply helper_traced_AOM in Hrun as [_ Hout].
    apply (Hgen _ Hout). intros row v Hlen.
    apply partition_average_of_maximum; [by rewrite Hlen | lia | done | lia].
  - apply helper_traced_MOA in Hrun as [_ Hout].
    apply (Hgen _ Hout). intros row v Hlen.
    apply partition_maximum_of_average; [by rewrite Hlen | lia | done | lia].
Qed.

Lemma static_partition_above_average_witness :
  ∃ out st' plain,
    _aom_moa_helper "AOM" example_scores_exact 3 "static" false (RS_int 42) Lcg.st0
    = (inr out, st')
    ∧ average example_scores_exact None = inr plain
    ∧ Forall2 Qle plain out.
Proof.
  eexists _, _.
  assert (_aom_moa_helper "AOM" example_scores_exact 3 "static" false (RS_int 42)
            Lcg.st0 = (inr _, Lcg.st0)) as Hrun by (vm_compute; reflexivity).
  destruct (static_partition_above_average "AOM" example_scores_exact 3
              (RS_int 42) Lcg.st0 Lcg.st0 _ Hrun) as (plain & Hplain & Hle).
  exists plain. split; [exact Hrun | split; [exact Hplain | exact Hle]].
Defined.
